(** * A shallow embedding of the CVRP optimisation engine

    The development follows the Python package file by file:
    [model.py] (instance model and cost evaluator), [neighborhoods.py]
    (2-opt and relocate), [init.py] (Clarke-Wright savings construction),
    [meta.py] (simulated annealing) and the local-search loop of
    [cli.py] / [eval.py].

    Conventions.
    - Python [float]s are read as exact rationals ([Q]); rounding is not
      part of the model.  Python [int]s are [Z]; list positions and node
      indices are [nat].  The one exception is the 2-opt delta, which is
      also read in binary64: there a double is the rational it stands
      for and every operation rounds its exact result.
    - The distance matrix [D] is read as a function of its two indices.
      Construction is also read on the array itself, where a read
      outside its shape raises [IndexError].
    - [nodes[i]] is a list access.  Where the source raises [IndexError]
      (an index that is no node of the instance) the model reads a blank
      node; such solutions are outside the scope of the statements.
    - Route objects are mutable Python lists.  Where the source mutates
      them in place the model threads a store of route cells, so that
      aliasing between solutions is visible.
    - [np.sqrt] leaves the rationals: the matrix built by
      [euclidean_matrix] is read over the reals, with the coordinates
      embedded by [Q2R].
    - The random generator of [generate_synthetic] is read through the
      values of its successive draws. *)

From Stdlib Require Import Reals Qreals Sorted.
From Stdlib Require Import QArith Qabs Qminmax Qround Qpower Lqa ZArith Lia.
From Stdlib Require PrimFloat FloatOps SpecFloat.
From stdpp Require Import base list gmap.

(** ** Rational helpers *)

Definition Qltb (a b : Q) : bool := negb (Qle_bool b a).

Definition Qsum (l : list Q) : Q := foldr Qplus 0%Q l.

Definition Qlist_min (l : list Q) : Q :=
  match l with
  | [] => 0%Q
  | a :: l' => foldl Qmin a l'
  end.

Definition Qlist_max (l : list Q) : Q :=
  match l with
  | [] => 0%Q
  | a :: l' => foldl Qmax a l'
  end.

Definition Qnat (n : nat) : Q := inject_Z (Z.of_nat n).

(** ** model.py *)

Record Node := mkNode {
  idx : Z;
  x : Q;
  y : Q;
  demand : Z;
  tw_open : option Q;
  tw_close : option Q;
  service : Q
}.

Record VRPInstance := mkInstance {
  depot : Node;
  customers : list Node;
  vehicle_capacity : Z;
  num_vehicles : Z;
  lambda_tw : Q;
  mu_fair : Q
}.

Definition all_nodes (instance : VRPInstance) : list Node :=
  depot instance :: customers instance.

(** The distance matrix, read through its two indices. *)
Definition distmat := nat -> nat -> Q.

(** A matrix given by its rows, for concrete instances. *)
Definition dist_of_rows (rows : list (list Q)) : distmat :=
  fun a b => default 0%Q (rows !! a ≫= (.!! b)).

Definition blank_node : Node := mkNode 0 0 0 0 None None 0.

(** [nodes[i]] *)
Definition node_at (nodes : list Node) (i : nat) : Node :=
  default blank_node (nodes !! i).

(** [route[:-1]] *)
Definition but_last {A} (l : list A) : list A := take (length l - 1) l.

(** [zip(route[:-1], route[1:])]: the consecutive edges of a route. *)
Definition edges (route : list nat) : list (nat * nat) :=
  zip (but_last route) (tail route).

Definition route_distance (route : list nat) (D : distmat) : Q :=
  if length route <? 2 then 0%Q
  else Qsum (map (fun e => D e.1 e.2) (edges route)).

Definition route_demand (route : list nat) (nodes : list Node) : Z :=
  foldr Z.add 0%Z
    (map (fun i => demand (node_at nodes i)) (filter (fun i => i ≠ 0) route)).

(** One turn of the loop of [time_window_penalty]; the state is the
    clock [t] and the accumulated [penalty]. *)
Definition tw_step (nodes : list Node) (D : distmat)
    (st : Q * Q) (e : nat * nat) : Q * Q :=
  let t := (st.1 + D e.1 e.2)%Q in
  let penalty := st.2 in
  let node := node_at nodes e.2 in
  match tw_open node, tw_close node with
  | Some o, Some c =>
      let t := if Qltb t o then o else t in
      let penalty := if Qltb c t then (penalty + (t - c))%Q else penalty in
      ((t + service node)%Q, penalty)
  | _, _ => ((t + service node)%Q, penalty)
  end.

Definition time_window_penalty (route : list nat) (nodes : list Node)
    (D : distmat) : Q :=
  (foldl (tw_step nodes D) (0%Q, 0%Q) (edges route)).2.

(** [np.linspace(lo, hi, n + 1)] *)
Definition linspace (lo hi : Q) (n : nat) : list Q :=
  map (fun j => (lo + Qnat j * ((hi - lo) / Qnat n))%Q) (seq 0 (S n)).

(** [np.searchsorted(edges, v, side="right")] on a sorted array: the
    number of entries that are at most [v]. *)
Definition searchsorted_right (es : list Q) (v : Q) : Z :=
  Z.of_nat (length (filter (fun e => Qle_bool e v = true) es)).

Definition zone_id (nodes : list Node) (num_zones : nat) (i : nat) : Z :=
  let xs := map x nodes in
  let ys := map y nodes in
  let x_edges := linspace (Qlist_min xs) (Qlist_max xs) num_zones in
  let y_edges := linspace (Qlist_min ys) (Qlist_max ys) num_zones in
  let xz := (searchsorted_right x_edges (x (node_at nodes i)) - 1)%Z in
  let yz := (searchsorted_right y_edges (y (node_at nodes i)) - 1)%Z in
  let xz := Z.min (Z.max xz 0) (Z.of_nat num_zones - 1) in
  let yz := Z.min (Z.max yz 0) (Z.of_nat num_zones - 1) in
  (yz * Z.of_nat num_zones + xz)%Z.

(** [counts[z] = counts.get(z, 0) + 1] *)
Definition count_visit (counts : gmap Z nat) (z : Z) : gmap Z nat :=
  <[z := S (default 0 (counts !! z))]> counts.

(** The dictionary built by the two nested loops of [fairness_penalty]. *)
Definition zone_counts (routes : list (list nat)) (nodes : list Node)
    (num_zones : nat) : gmap Z nat :=
  foldl (fun counts r =>
           foldl (fun counts i =>
                    if decide (i = 0) then counts
                    else count_visit counts (zone_id nodes num_zones i))
                 counts r)
        ∅ routes.

Definition Qmean (l : list Q) : Q := (Qsum l / Qnat (length l))%Q.

(** [np.var]: the population variance. *)
Definition Qvar (l : list Q) : Q :=
  Qmean (map (fun v => ((v - Qmean l) * (v - Qmean l))%Q) l).

Definition fairness_penalty (routes : list (list nat)) (nodes : list Node)
    (num_zones : nat) : Q :=
  if num_zones <=? 1 then 0%Q
  else
    let counts := zone_counts routes nodes num_zones in
    if decide (counts = ∅) then 0%Q
    else Qvar (map (fun kv => Qnat kv.2) (map_to_list counts)).

Definition total_cost (routes : list (list nat)) (instance : VRPInstance)
    (D : distmat) : Q :=
  let nodes := all_nodes instance in
  let dist := Qsum (map (fun r => route_distance r D) routes) in
  let tw_pen :=
    if Qltb 0 (lambda_tw instance)
    then Qsum (map (fun r => time_window_penalty r nodes D) routes)
    else 0%Q in
  let fair_pen :=
    if Qltb 0 (mu_fair instance)
    then fairness_penalty routes nodes 4
    else 0%Q in
  (dist + lambda_tw instance * tw_pen + mu_fair instance * fair_pen)%Q.

(** ** Route cells

    A solution is a Python list of route objects.  The store holds the
    route objects; a solution is the list of their locations.  A list
    comprehension or a slice allocates new cells, [del] and [insert]
    change a cell in place.  The outer list travels by value: the source
    never keeps a second reference to an outer list that it mutates. *)

Abbreviation loc := nat (only parsing).
Abbreviation store := (list (list nat)) (only parsing).

Definition M (A : Type) : Type := store -> A * store.

Definition ret {A} (a : A) : M A := fun h => (a, h).
Definition bind {A B} (m : M A) (f : A -> M B) : M B :=
  fun h => let (a, h') := m h in f a h'.

Declare Scope route_monad_scope.
Delimit Scope route_monad_scope with rm.
Notation "'do' x <- m ; k" := (bind m (fun x => k))
  (at level 10, x pattern, m at level 100, k at level 200)
  : route_monad_scope.

Definition deref (h : store) (l : loc) : list nat := default [] (h !! l).

(** The routes of a solution, read through the store. *)
Definition routes_of (h : store) (rs : list loc) : list (list nat) :=
  map (deref h) rs.

Definition read (l : loc) : M (list nat) := fun h => (deref h l, h).
Definition read_all (rs : list loc) : M (list (list nat)) :=
  fun h => (routes_of h rs, h).
Definition alloc (r : list nat) : M loc := fun h => (length h, h ++ [r]).
Definition update (l : loc) (f : list nat -> list nat) : M unit :=
  fun h => (tt, <[l := f (deref h l)]> h).

(** [[r[:] for r in routes]] *)
Fixpoint copy_routes (rs : list loc) : M (list loc) :=
  match rs with
  | [] => ret []
  | l :: rs' =>
      (do r <- read l;
       do l' <- alloc r;
       do rs'' <- copy_routes rs';
       ret (l' :: rs''))%rm
  end.

(** ** neighborhoods.py *)

(** [range(a, b)] *)
Definition range (a b : nat) : list nat := seq a (b - a).

Definition two_opt_delta (route : list nat) (i k : nat) (D : distmat) : Q :=
  if (i <? 1) || (length route - 1 <=? k) || (k <=? i) then 0%Q
  else
    let a := route !!! (i - 1) in
    let b := route !!! i in
    let c := route !!! k in
    let d := route !!! (k + 1) in
    let before := (D a b + D c d)%Q in
    let after := (D a c + D b d)%Q in
    (after - before)%Q.

(** [route[:i] + list(reversed(route[i:k+1])) + route[k+1:]] *)
Definition apply_two_opt (route : list nat) (i k : nat) : list nat :=
  take i route ++ reverse (drop i (take (k + 1) route)) ++ drop (k + 1) route.

(** The candidate pairs [(i, k)] of one route, in loop order. *)
Definition two_opt_moves (r : list nat) : list (nat * nat) :=
  i ← range 1 (length r - 2);
  k ← range (i + 1) (length r - 1);
  [(i, k)].

(** The inner search of [improve_two_opt_intra] for one route:
    [(best_gain, best_move)]. *)
Definition two_opt_search (r : list nat) (D : distmat)
    : Q * option (nat * nat) :=
  foldl (fun st m =>
           let delta := two_opt_delta r m.1 m.2 D in
           if Qltb delta st.1 then (delta, Some m) else st)
        (0%Q, None) (two_opt_moves r).

(** One sweep over the routes; a route with a best move is replaced by a
    newly built list. *)
Fixpoint two_opt_sweep (rs : list loc) (D : distmat) : M (list loc * bool) :=
  match rs with
  | [] => ret ([], false)
  | l :: rs' =>
      (do r <- read l;
       match (two_opt_search r D).2 with
       | Some (i, k) =>
           do l' <- alloc (apply_two_opt r i k);
           do res <- two_opt_sweep rs' D;
           ret (l' :: res.1, true)
       | None =>
           do res <- two_opt_sweep rs' D;
           ret (l :: res.1, res.2)
       end)%rm
  end.

Fixpoint two_opt_passes (n : nat) (rs : list loc) (D : distmat)
    (improved : bool) : M (list loc * bool) :=
  match n with
  | 0 => ret (rs, improved)
  | S n' =>
      (do res <- two_opt_sweep rs D;
       if res.2 then two_opt_passes n' res.1 D true
       else ret (res.1, improved))%rm
  end.

Definition improve_two_opt_intra (rs : list loc) (D : distmat)
    (max_passes : nat) : M (list loc * bool) :=
  two_opt_passes max_passes rs D false.

Definition move := (nat * nat * nat * nat)%type.

(** The candidate moves [(ra, ia, rb, jb)] of [relocate_best_improvement]
    with their gains, in loop order; the [continue] branches contribute
    nothing. *)
Definition relocate_moves (routes : list (list nat)) (instance : VRPInstance)
    (D : distmat) : list (Q * move) :=
  let nodes := all_nodes instance in
  ra ← range 0 (length routes);
  let rA := routes !!! ra in
  ia ← range 1 (length rA - 1);
  let customer := rA !!! ia in
  let prevA := rA !!! (ia - 1) in
  let nextA := rA !!! (ia + 1) in
  let delta_remove :=
    (D prevA customer + D customer nextA - D prevA nextA)%Q in
  rb ← range 0 (length routes);
  if (ra =? rb) && (length rA <=? 3) then []
  else
    let rB := routes !!! rb in
    if negb (ra =? rb)
       && (vehicle_capacity instance
           <? route_demand rB nodes + demand (node_at nodes customer))%Z
    then []
    else
      jb ← range 1 (length rB);
      let prevB := rB !!! (jb - 1) in
      let nextB := rB !!! jb in
      let delta_insert :=
        (D prevB customer + D customer nextB - D prevB nextB)%Q in
      if (ra =? rb) && ((jb =? ia) || (jb =? ia + 1)) then []
      else [((delta_remove - delta_insert)%Q, (ra, ia, rb, jb))].

(** [(best_gain, best_move)] after the search loops. *)
Definition relocate_search (routes : list (list nat)) (instance : VRPInstance)
    (D : distmat) : Q * option move :=
  foldl (fun st gm => if Qltb st.1 gm.1 then (gm.1, Some gm.2) else st)
        (0%Q, None) (relocate_moves routes instance D).

(** [l.insert(j, c)] for [0 <= j]: past the end it appends. *)
Definition py_insert (j : nat) (c : nat) (l : list nat) : list nat :=
  take j l ++ c :: drop j l.

Definition relocate_eps : Q := 1 # 1000000000.

Definition relocate_best_improvement (rs : list loc) (instance : VRPInstance)
    (D : distmat) : M (list loc * bool) :=
  (do routes <- read_all rs;
   match relocate_search routes instance D with
   | (best_gain, Some (ra, ia, rb, jb)) =>
       if Qltb relocate_eps best_gain then
         do rA <- read (rs !!! ra);
         let customer := rA !!! ia in
         do _ <- update (rs !!! ra) (delete ia);
         do _ <- update (rs !!! rb) (py_insert jb customer);
         (* routes[:] = [r if len(r) > 2 else r for r in routes] *)
         do routes' <- read_all rs;
         let rs' :=
           map (fun lr => if 2 <? length lr.2 then lr.1 else lr.1)
               (zip rs routes') in
         ret (rs', true)
       else ret (rs, false)
   | _ => ret (rs, false)
   end)%rm.

(** ** init.py *)

(** [list.sort] is stable.  [before a b] says that [a] may stand in
    front of [b]; an element is put in front of the first later element it
    may stand in front of, so equal keys keep their order. *)
Fixpoint insert_by {A} (before : A -> A -> bool) (a : A) (l : list A)
    : list A :=
  match l with
  | [] => [a]
  | b :: l' => if before a b then a :: l else b :: insert_by before a l'
  end.

Definition stable_sort {A} (before : A -> A -> bool) (l : list A) : list A :=
  foldr (insert_by before) [] l.

(** [l[:k]] for an integer [k], negative [k] counting from the end. *)
Definition py_prefix {A} (k : Z) (l : list A) : list A :=
  if (k <? 0)%Z then take (Z.to_nat (Z.of_nat (length l) + k)) l
  else take (Z.to_nat k) l.

Definition saving := (Q * nat * nat)%type.

(** The savings of all pairs [i < j], in encounter order. *)
Definition savings_list (N : nat) (D : distmat) : list saving :=
  i ← seq 1 N;
  j ← seq 1 N;
  if i <? j then [((Qminus (Qplus (D 0 i) (D 0 j)) (D i j)), i, j)] else [].

(** [s_list.sort(reverse=True, key=lambda x: x[0])] *)
Definition sort_savings (l : list saving) : list saving :=
  stable_sort (fun a b => Qle_bool b.1.1 a.1.1) l.

(** The bookkeeping of the merge loop: the route slots, the dictionary
    customer -> slot and the dictionary slot -> (first, last) customer. *)
Record cw_state := mkCW {
  cw_routes : list (list nat);
  cw_route_of : gmap nat nat;
  cw_ends : gmap nat (nat * nat)
}.

Definition cw_init (N : nat) : cw_state :=
  let nodes_idx := seq 1 N in
  mkCW (map (fun i => [0; i; 0]) nodes_idx)
       (list_to_map (map (fun cust => (cust, cust - 1)) nodes_idx))
       (list_to_map (map (fun ri => (ri, (nodes_idx !!! ri, nodes_idx !!! ri)))
                         (range 0 N))).

(** A missing dictionary key or list index ([KeyError], [IndexError]) is
    [None]. *)
Definition feasible_merge (instance : VRPInstance) (st : cw_state)
    (ri_idx rj_idx i j : nat) : option bool :=
  let routes := cw_routes st in
  if negb (ri_idx <? length routes) || negb (rj_idx <? length routes)
  then Some false
  else
    ri ← routes !! ri_idx;
    rj ← routes !! rj_idx;
    if bool_decide (ri = [0; 0]) || bool_decide (rj = [0; 0]) then Some false
    else
      ei ← cw_ends st !! ri_idx;
      ej ← cw_ends st !! rj_idx;
      if negb ((i =? ei.1) || (i =? ei.2)) || negb ((j =? ej.1) || (j =? ej.2))
      then Some false
      else
        let load_i := route_demand ri (all_nodes instance) in
        let load_j := route_demand rj (all_nodes instance) in
        if (vehicle_capacity instance <? load_i + load_j)%Z then Some false
        else Some true.

(** One turn of the loop over the sorted savings. *)
Definition cw_merge_step (instance : VRPInstance) (st : cw_state)
    (p : saving) : option cw_state :=
  let i := p.1.2 in
  let j := p.2 in
  ri_idx ← cw_route_of st !! i;
  rj_idx ← cw_route_of st !! j;
  if ri_idx =? rj_idx then Some st
  else
    ok ← feasible_merge instance st ri_idx rj_idx i j;
    if negb ok then Some st
    else
      ri ← cw_routes st !! ri_idx;
      rj ← cw_routes st !! rj_idx;
      ei ← cw_ends st !! ri_idx;
      ej ← cw_ends st !! rj_idx;
      let ri := if ei.1 =? i then reverse ri else ri in
      let rj := if ej.2 =? j then reverse rj else rj in
      let new_route := but_last ri ++ tail rj in
      let routes := <[rj_idx := [0; 0]]> (<[ri_idx := new_route]> (cw_routes st)) in
      let new_first := if 2 <? length new_route then new_route !!! 1 else 0 in
      let new_last :=
        if 2 <? length new_route
        then new_route !!! (length new_route - 2) else 0 in
      let ends :=
        <[rj_idx := (0, 0)]> (<[ri_idx := (new_first, new_last)]> (cw_ends st)) in
      let route_of :=
        foldl (fun m c => if decide (c = 0) then m else <[c := ri_idx]> m)
              (cw_route_of st) new_route in
      Some (mkCW routes route_of ends).

Fixpoint cw_merge_loop (instance : VRPInstance) (st : cw_state)
    (s_list : list saving) : option cw_state :=
  match s_list with
  | [] => Some st
  | p :: s_list' =>
      st' ← cw_merge_step instance st p;
      cw_merge_loop instance st' s_list'
  end.

(** Prune dead routes and enforce the vehicle limit. *)
Definition cw_prune (instance : VRPInstance) (routes : list (list nat))
    : list (list nat) :=
  let nodes := all_nodes instance in
  let alive := filter (fun r => r ≠ [0; 0]) routes in
  if (num_vehicles instance <? Z.of_nat (length alive))%Z then
    py_prefix (num_vehicles instance)
      (stable_sort (fun a b => (- route_demand a nodes <=? - route_demand b nodes)%Z)
                   alive)
  else alive.

Definition clarke_wright (instance : VRPInstance) (D : distmat)
    : option (list (list nat)) :=
  let N := length (customers instance) in
  st ← cw_merge_loop instance (cw_init N) (sort_savings (savings_list N D));
  Some (cw_prune instance (cw_routes st)).

(** ** cli.py: the local-search loop of [solve_once] *)

(** One turn: a 2-opt pass, then a relocate pass. *)
Definition local_search_step (rs : list loc) (instance : VRPInstance)
    (D : distmat) : M (list loc * bool) :=
  (do r1 <- improve_two_opt_intra rs D 1;
   do r2 <- relocate_best_improvement r1.1 instance D;
   ret (r2.1, r1.2 || r2.2))%rm.

(** [while improved: ...], with a bound on the number of turns. *)
Fixpoint local_search (fuel : nat) (rs : list loc) (instance : VRPInstance)
    (D : distmat) : M (option (list loc)) :=
  match fuel with
  | 0 => ret None
  | S fuel' =>
      (do r <- local_search_step rs instance D;
       if r.2 then local_search fuel' r.1 instance D
       else ret (Some r.1))%rm
  end.

(** ** meta.py *)

Section Annealing.

(** The environment of one call: [clock k] is the value of the [k]-th
    call of [time.time()] (call 0 sets the deadline), and
    [accept iters delta T] is the outcome of the test
    [rng.random() < math.exp(-delta / max(T, 1e-9))] in turn [iters]. *)
Variable clock : nat -> Q.
Variable accept : nat -> Q -> Q -> bool.

Record sa_state := mkSA {
  sa_best : list loc;
  sa_best_cost : Q;
  sa_cur : list loc;
  sa_cur_cost : Q;
  sa_T : Q;
  sa_iters : nat
}.

Definition sa_iteration (instance : VRPInstance) (D : distmat) (alpha : Q)
    (st : sa_state) : M sa_state :=
  let iters := S (sa_iters st) in
  (do tmp <- copy_routes (sa_cur st);
   do res <- (if iters mod 2 =? 0
              then improve_two_opt_intra tmp D 1
              else relocate_best_improvement tmp instance D);
   let cand := res.1 in
   do cand_routes <- read_all cand;
   let cand_cost := total_cost cand_routes instance D in
   let delta := Qminus cand_cost (sa_cur_cost st) in
   let T' := Qmult (sa_T st) alpha in
   if Qle_bool delta 0 || accept iters delta (sa_T st) then
     if Qltb cand_cost (sa_best_cost st) then
       do best <- copy_routes cand;
       ret (mkSA best cand_cost cand cand_cost T' iters)
     else
       ret (mkSA (sa_best st) (sa_best_cost st) cand cand_cost T' iters)
   else
     ret (mkSA (sa_best st) (sa_best_cost st) (sa_cur st) (sa_cur_cost st)
               T' iters))%rm.

(** [while time.time() < t_end: ...]; [None] when the bound on the
    number of turns is reached before the deadline. *)
Fixpoint sa_loop (fuel : nat) (t_end : Q) (instance : VRPInstance)
    (D : distmat) (alpha : Q) (st : sa_state) : M (option (list loc)) :=
  if Qltb (clock (S (sa_iters st))) t_end then
    match fuel with
    | 0 => ret None
    | S fuel' =>
        (do st' <- sa_iteration instance D alpha st;
         sa_loop fuel' t_end instance D alpha st')%rm
    end
  else ret (Some (sa_best st)).

Definition simulated_annealing (fuel : nat) (rs : list loc)
    (instance : VRPInstance) (D : distmat)
    (time_budget_s T0 alpha : Q) : M (option (list loc)) :=
  (do best <- copy_routes rs;
   do best_routes <- read_all best;
   let best_cost := total_cost best_routes instance D in
   do cur <- copy_routes rs;
   let t_end := Qplus (clock 0) time_budget_s in
   sa_loop fuel t_end instance D alpha
           (mkSA best best_cost cur best_cost T0 0))%rm.

End Annealing.
(** ** model.py: the distance matrix and the instance generator *)

(** [np.sqrt] leaves the rationals: the matrix of [euclidean_matrix] is
    read over the reals.  For an empty list of nodes [coords] is a
    one-dimensional array, and indexing it along two axes raises
    [IndexError] ([None]). *)
Definition euclidean_matrix (nodes : list Node) : option (list (list R)) :=
  match nodes with
  | [] => None
  | _ :: _ =>
      let coords := map (fun n => (Q2R (x n), Q2R (y n))) nodes in
      Some (map (fun a =>
                   map (fun b => sqrt (Rsqr (a.1 - b.1) + Rsqr (a.2 - b.2)))
                       coords)
                coords)
  end.

Section Synthetic.

(** The generator [np.random.default_rng(seed)]: [rng_uniform seed k low
    high] is the value of its [k]-th draw when that draw is
    [uniform(low, high)], and [rng_integers seed k low high] when it is
    [integers(low, high)]. *)
Variable rng_uniform : Z -> nat -> Q -> Q -> Q.
Variable rng_integers : Z -> nat -> Z -> Z -> Z.

(** One turn of the loop over the customers; the state is the number of
    draws made so far and the list [customers]. *)
Definition synthetic_customer (seed capacity : Z) (with_time_windows : bool)
    (st : nat * list Node) (i : nat) : nat * list Node :=
  let k := st.1 in
  let x := rng_uniform seed k 0 100 in
  let y := rng_uniform seed (k + 1) 0 100 in
  let demand := rng_integers seed (k + 2) 1 (Z.max 2 (capacity / 5)) in
  if with_time_windows then
    let base := rng_uniform seed (k + 3) 0 200 in
    let tw_open := base in
    let tw_close := Qplus base (rng_uniform seed (k + 4) 20 60) in
    let service := rng_uniform seed (k + 5) (1 # 2) 2 in
    (k + 6,
     st.2 ++ [mkNode (Z.of_nat i) x y demand (Some tw_open) (Some tw_close)
                     service])
  else
    (k + 3, st.2 ++ [mkNode (Z.of_nat i) x y demand None None 0]).

Definition generate_synthetic (n_customers seed capacity num_vehicles : Z)
    (with_time_windows : bool) : option (VRPInstance * list (list R)) :=
  let depot := mkNode 0 50 50 0 None None 0 in
  let customers :=
    (foldl (synthetic_customer seed capacity with_time_windows) (0, [])
           (seq 1 (Z.to_nat n_customers))).2 in
  let inst := mkInstance depot customers capacity num_vehicles 0 0 in
  let nodes := all_nodes inst in
  D ← euclidean_matrix nodes;
  Some (inst, D).

End Synthetic.

(** ** init.py: the construction on an array *)

(** [D[a, b]] on a two-dimensional array given by its rows; outside the
    shape of the array numpy raises [IndexError] ([None]). *)
Definition nd_get (rows : list (list Q)) (a b : nat) : option Q :=
  rows !! a ≫= (.!! b).

(** The pairs [i < j] of customers, in the order of the two nested loops
    over [nodes_idx]. *)
Definition customer_pairs (N : nat) : list (nat * nat) :=
  i ← seq 1 N;
  j ← seq 1 N;
  if i <? j then [(i, j)] else [].

(** [s = D[0, i] + D[0, j] - D[i, j]] with the three reads of the array. *)
Definition nd_saving (rows : list (list Q)) (p : nat * nat) : option saving :=
  d0i ← nd_get rows 0 p.1;
  d0j ← nd_get rows 0 p.2;
  dij ← nd_get rows p.1 p.2;
  Some (Qminus (Qplus d0i d0j) dij, p.1, p.2).

(** [clarke_wright] on an array: the savings loop reads the array, and
    the first read outside its shape ends the call with [IndexError]. *)
Definition clarke_wright_nd (instance : VRPInstance) (rows : list (list Q))
    : option (list (list nat)) :=
  let N := length (customers instance) in
  s_list ← mapM (nd_saving rows) (customer_pairs N);
  st ← cw_merge_loop instance (cw_init N) (sort_savings s_list);
  Some (cw_prune instance (cw_routes st)).

(** ** Binary64 arithmetic *)

(** The largest [e] with [2 ^ e <= q], for a positive [q]. *)
Definition Qlog2 (q : Q) : Z :=
  let d := (Z.log2 (Qnum q) - Z.log2 (Zpos (Qden q)))%Z in
  if Qle_bool (2 ^ d) q then d else (d - 1)%Z.

(** The integer nearest to [q]; of two nearest ones the even one. *)
Definition round_half_even (q : Q) : Z :=
  let f := Qfloor q in
  let r := (q - inject_Z f)%Q in
  if Qltb r (1 # 2) then f
  else if Qltb (1 # 2) r then (f + 1)%Z
  else if Z.even f then f else (f + 1)%Z.

(** The double nearest to [q], ties to even: 53 significant bits, and
    below [2 ^ -1022] the fixed spacing [2 ^ -1074] of the subnormal
    numbers.  A result beyond the largest double, which the machine
    turns into an infinity, is left as it is. *)
Definition round64 (q : Q) : Q :=
  let q := Qred q in
  let e := Qlog2 (Qabs q) in
  let p := (Z.max e (-1022) - 52)%Z in
  Qred (inject_Z (round_half_even (q / 2 ^ p)) * 2 ^ p).

(** The rational value of a finite double of the kernel, to compare
    [round64] with the machine. *)
Definition Q_of_float (f : PrimFloat.float) : option Q :=
  match FloatOps.Prim2SF f with
  | SpecFloat.S754_zero _ => Some 0%Q
  | SpecFloat.S754_finite s m e =>
      Some (Qred ((if s then -1 else 1) * inject_Z (Zpos m) * 2 ^ e))
  | _ => None
  end.

(** The unit roundoff of binary64 and half the spacing of the subnormal
    numbers. *)
Definition unit_roundoff : Q := 1 # (2 ^ 53).
Definition half_subnormal : Q := 1 # (2 ^ 1075).

(** The standard model of binary64 arithmetic: every operation returns
    its exact result rounded, with a relative error of at most the unit
    roundoff (an absolute error of at most [half_subnormal] near zero),
    as long as the exact result does not overflow. *)
Definition binary64_rounding (fl : Q -> Q) : Prop :=
  forall q, Qle (Qabs q) (2 ^ 1023) ->
    Qle (Qabs (fl q - q)) (unit_roundoff * Qabs q + half_subnormal).

(** [two_opt_delta] in binary64: each of its three operations rounds. *)
Definition fl_two_opt_delta (fl : Q -> Q) (route : list nat) (i k : nat)
    (D : distmat) : Q :=
  if (i <? 1) || (length route - 1 <=? k) || (k <=? i) then 0%Q
  else
    let a := route !!! (i - 1) in
    let b := route !!! i in
    let c := route !!! k in
    let d := route !!! (k + 1) in
    let before := fl (D a b + D c d)%Q in
    let after := fl (D a c + D b d)%Q in
    fl (after - before)%Q.

(** [np.sum] of an array of doubles.  The source does not fix the order
    of the additions: numpy adds a short array from left to right and a
    long one in blocks and pairwise.  [np_sum fl l v] holds when adding
    the entries of [l] in some order, every partial sum rounded, gives
    [v]. *)
Inductive np_sum (fl : Q -> Q) : list Q -> Q -> Prop :=
  | np_sum_nil : np_sum fl [] 0
  | np_sum_one d : np_sum fl [d] d
  | np_sum_add l l1 l2 v1 v2 :
      l1 <> [] -> l2 <> [] -> l ≡ₚ l1 ++ l2 ->
      np_sum fl l1 v1 -> np_sum fl l2 v2 ->
      np_sum fl l (fl (v1 + v2)%Q).

(** The additions from left to right, the order of numpy for an array
    of fewer than eight entries. *)
Definition np_sum_left (fl : Q -> Q) (l : list Q) : Q :=
  match l with
  | [] => 0%Q
  | d :: l' => foldl (fun s x => fl (s + x)%Q) d l'
  end.

(** [route_distance] in binary64: [v] is a value that
    [float(np.sum(D[route[:-1], route[1:]]))] can have. *)
Definition fl_route_distance (fl : Q -> Q) (route : list nat) (D : distmat)
    (v : Q) : Prop :=
  if length route <? 2 then v = 0%Q
  else np_sum fl (map (fun e => D e.1 e.2) (edges route)) v.

(** [route_distance] in binary64 for a route of at most eight nodes. *)
Definition fl_route_distance_left (fl : Q -> Q) (route : list nat)
    (D : distmat) : Q :=
  if length route <? 2 then 0%Q
  else np_sum_left fl (map (fun e => D e.1 e.2) (edges route)).

(** The error of one operation on operands of moderate size. *)
Definition op_error : Q := 1 # 4000000000.


(** ** Reference definitions used by the statements *)

(** The length of a path, edge by edge. *)
Fixpoint path_len (D : distmat) (l : list nat) : Q :=
  match l with
  | a :: (b :: _) as t => (D a b + path_len D t)%Q
  | _ => 0%Q
  end.

Definition symmetric (D : distmat) : Prop := forall a b, (D a b == D b a)%Q.

(** The simulation of one vehicle along a route, in the words of the
    specification: the clock starts at 0 at the depot; an edge advances it
    by its distance; on arrival the vehicle waits for the window to open;
    if there is a close time and the arrival is after it, the lateness
    arrival - close is added; then the service duration elapses. *)
Fixpoint tw_simulate (nodes : list Node) (D : distmat) (clock penalty : Q)
    (here : nat) (rest : list nat) : Q :=
  match rest with
  | [] => penalty
  | b :: rest' =>
      let node := node_at nodes b in
      let arrival := (clock + D here b)%Q in
      let clock :=
        match tw_open node with
        | Some o => if Qltb arrival o then o else arrival
        | None => arrival
        end in
      let penalty :=
        match tw_close node with
        | Some c => if Qltb c arrival then (penalty + (arrival - c))%Q
                    else penalty
        | None => penalty
        end in
      tw_simulate nodes D (clock + service node)%Q penalty b rest'
  end.

Definition tw_lateness (route : list nat) (nodes : list Node) (D : distmat)
    : Q :=
  match route with
  | [] => 0%Q
  | a :: rest => tw_simulate nodes D 0 0 a rest
  end.

(** A node has no window, or a complete window that opens no later than
    it closes. *)
Definition window_ok (n : Node) : Prop :=
  match tw_open n, tw_close n with
  | None, None => True
  | Some o, Some c => (o <= c)%Q
  | _, _ => False
  end.

(** ** The operators on the values of the routes *)

(** Every location of a solution is a cell of the store. *)
Definition allocated (h : store) (rs : list loc) : Prop :=
  Forall (fun l => l < length h) rs.

(** What one 2-opt sweep does to one route. *)
Definition two_opt_route (D : distmat) (r : list nat) : list nat :=
  match (two_opt_search r D).2 with
  | Some (i, k) => apply_two_opt r i k
  | None => r
  end.

(** [del routes[ra][ia]; routes[rb].insert(jb, customer)] on routes that
    do not share cells. *)
Definition relocate_apply (routes : list (list nat)) (mv : move)
    : list (list nat) :=
  let '(ra, ia, rb, jb) := mv in
  let customer := (routes !!! ra) !!! ia in
  let routes1 := <[ra := delete ia (routes !!! ra)]> routes in
  <[rb := py_insert jb customer (routes1 !!! rb)]> routes1.

(** What [relocate_best_improvement] does to routes that do not share
    cells. *)
Definition relocate_routes (routes : list (list nat)) (instance : VRPInstance)
    (D : distmat) : list (list nat) :=
  match relocate_search routes instance D with
  | (best_gain, Some mv) =>
      if Qltb relocate_eps best_gain then relocate_apply routes mv else routes
  | _ => routes
  end.

(** ** Solution invariants *)

(** The number of times customer [c] is visited by a solution. *)
Definition visits (c : nat) (routes : list (list nat)) : nat :=
  length (filter (fun i => i = c) (concat routes)).

(** Every customer index 1..N is visited exactly once: by one route, at
    one position. *)
Definition partition_ok (N : nat) (routes : list (list nat)) : Prop :=
  forall c, 1 <= c <= N -> visits c routes = 1.

Definition capacity_ok (instance : VRPInstance) (routes : list (list nat))
    : Prop :=
  Forall (fun r => (route_demand r (all_nodes instance)
                    <= vehicle_capacity instance)%Z) routes.

(** Every single customer demand fits in a vehicle. *)
Definition demands_fit (instance : VRPInstance) : Prop :=
  Forall (fun n => (demand n <= vehicle_capacity instance)%Z)
         (customers instance).

Definition demands_nonneg (instance : VRPInstance) : Prop :=
  Forall (fun n => (0 <= demand n)%Z) (customers instance).

(** The share of one route entry in the load of its route. *)
Definition load_of (nodes : list Node) (c : nat) : Z :=
  if decide (c = 0) then 0%Z else demand (node_at nodes c).


(** ** The invariant of the annealing loop

    [h0] is the store at the call, [c0] the cost of the solution passed
    in, [P] a property of solutions that both operators keep. *)
Record sa_inv (P : list (list nat) -> Prop) (instance : VRPInstance)
    (D : distmat) (c0 : Q) (h0 h : store) (st : sa_state) : Prop := mkSAInv {
  inv_prefix : exists ext, h = h0 ++ ext;
  inv_best_alloc : allocated h (sa_best st);
  inv_cur_alloc : allocated h (sa_cur st);
  inv_best_cost :
    sa_best_cost st = total_cost (routes_of h (sa_best st)) instance D;
  inv_best_le : (sa_best_cost st <= c0)%Q;
  inv_best_P : P (routes_of h (sa_best st));
  inv_cur_P : P (routes_of h (sa_cur st));
  inv_best_fresh : Forall (fun l => length h0 <= l) (sa_best st)
}.

(** A property of solutions kept by a 2-opt sweep and by relocate. *)
Definition kept_by_operators (P : list (list nat) -> Prop)
    (instance : VRPInstance) (D : distmat) : Prop :=
  (forall routes, P routes -> P (map (two_opt_route D) routes)) /\
  (forall routes, P routes -> P (relocate_routes routes instance D)).

(** ** The invariant of the merge loop of Clarke-Wright *)

(** The customers of a route: its entries other than the depot. *)
Definition custs (r : list nat) : list nat := filter (fun i => i ≠ 0) r.

(** A route starts and ends at the depot. *)
Definition depot_ended (r : list nat) : Prop :=
  exists mid, r = 0 :: mid ++ [0].

Record cw_inv (N : nat) (st : cw_state) : Prop := mkCWInv {
  cw_inv_length : length (cw_routes st) = N;
  cw_inv_shape : Forall depot_ended (cw_routes st);
  cw_inv_customers : concat (map custs (cw_routes st)) ≡ₚ seq 1 N;
  cw_inv_route_of : forall c, 1 <= c <= N -> is_Some (cw_route_of st !! c);
  cw_inv_ends : forall ri, ri < N -> is_Some (cw_ends st !! ri)
}.

(** The routes after the merge loop, before pruning. *)
Definition cw_merged (instance : VRPInstance) (D : distmat)
    : option (list (list nat)) :=
  let N := length (customers instance) in
  st ← cw_merge_loop instance (cw_init N) (sort_savings (savings_list N D));
  Some (cw_routes st).

(** The routes that are not dead. *)
Definition cw_alive (routes : list (list nat)) : list (list nat) :=
  filter (fun r => r ≠ [0; 0]) routes.

(** Every live route slot carries a load that fits. *)
Definition cw_loads_ok (instance : VRPInstance) (routes : list (list nat))
    : Prop :=
  Forall (fun r => r = [0; 0] \/
                   (route_demand r (all_nodes instance)
                    <= vehicle_capacity instance)%Z) routes.

(** Customer [c] is alone in every route that visits it. *)
Definition stays_single (c : nat) (routes : list (list nat)) : Prop :=
  forall r, r ∈ routes -> c ∈ r -> r = [0; c; 0].

(** ** The fairness term, zone by zone *)

(** The identifiers that [zone_id] can return for a [k] x [k] grid. *)
Definition grid_cells (k : nat) : list Z := map Z.of_nat (seq 0 (k * k)).

(** The number of customer visits, over all routes, to which [zone_id]
    gives the identifier [z]. *)
Definition cell_visits (routes : list (list nat)) (nodes : list Node)
    (k : nat) (z : Z) : nat :=
  length (filter (fun i => i <> 0 /\ zone_id nodes k i = z) (concat routes)).



(** ** The local-search turn and the travel distance *)

(** The travel distance of a solution. *)
Definition total_distance (routes : list (list nat)) (D : distmat) : Q :=
  Qsum (map (fun r => route_distance r D) routes).

(** The gain that the search of relocate evaluates for a move. *)
Definition relocate_gain (routes : list (list nat)) (D : distmat) (mv : move)
    : Q :=
  let '(ra, ia, rb, jb) := mv in
  let rA := routes !!! ra in
  let rB := routes !!! rb in
  let customer := rA !!! ia in
  let prevA := rA !!! (ia - 1) in
  let nextA := rA !!! (ia + 1) in
  let prevB := rB !!! (jb - 1) in
  let nextB := rB !!! jb in
  ((D prevA customer + D customer nextA - D prevA nextA)
   - (D prevB customer + D customer nextB - D prevB nextB))%Q.

(** The move that relocate applies to [routes], if it applies one, goes
    to another route or to an earlier position of its own route. *)
Definition relocate_move_regular (routes : list (list nat))
    (instance : VRPInstance) (D : distmat) : Prop :=
  match relocate_search routes instance D with
  | (best_gain, Some (ra, ia, rb, jb)) =>
      Qltb relocate_eps best_gain = true -> ra <> rb \/ jb < ia
  | (_, None) => True
  end.
(** ** Further reference definitions *)

(** [M[a, b]] of a matrix given by its rows. *)
Definition matrix_entry (M : list (list R)) (a b : nat) : option R :=
  M !! a ≫= (.!! b).

(** The contract of the generator: a draw lies in the half-open interval
    it is asked for. *)
Definition uniform_in_range (rng_uniform : Z -> nat -> Q -> Q -> Q) : Prop :=
  forall seed k low high,
    Qlt low high ->
    Qle low (rng_uniform seed k low high) /\
    Qlt (rng_uniform seed k low high) high.

Definition integers_in_range (rng_integers : Z -> nat -> Z -> Z -> Z) : Prop :=
  forall seed k low high,
    (low < high)%Z -> (low <= rng_integers seed k low high < high)%Z.

(** A route starts at the depot, visits customers only, and ends at the
    depot. *)
Definition proper_route (r : list nat) : Prop :=
  exists mid, r = 0 :: mid ++ [0] /\ Forall (fun c => c <> 0) mid.

(** A move that the search loops of relocate evaluate: the customer at
    position [ia] of route [ra], put in front of position [jb] of route
    [rb]. *)
Definition relocate_candidate (routes : list (list nat))
    (instance : VRPInstance) (mv : move) : Prop :=
  let '(ra, ia, rb, jb) := mv in
  ra < length routes /\ 1 <= ia < length (routes !!! ra) - 1 /\
  rb < length routes /\ 1 <= jb < length (routes !!! rb) /\
  (ra = rb -> 3 < length (routes !!! ra) /\ jb <> ia /\ jb <> ia + 1) /\
  (ra <> rb ->
   (route_demand (routes !!! rb) (all_nodes instance)
    + demand (node_at (all_nodes instance) ((routes !!! ra) !!! ia))
    <= vehicle_capacity instance)%Z).

(** No route of the solution has a 2-opt move of negative delta. *)
Definition two_opt_optimal (routes : list (list nat)) (D : distmat) : Prop :=
  forall r i k,
    r ∈ routes -> 1 <= i -> i < k -> k <= length r - 2 ->
    Qle 0 (two_opt_delta r i k D).

(** No move that relocate evaluates gains more than its threshold. *)
Definition relocate_optimal (routes : list (list nat))
    (instance : VRPInstance) (D : distmat) : Prop :=
  forall mv, relocate_candidate routes instance mv ->
             Qle (relocate_gain routes D mv) relocate_eps.

(** The saving of serving [j] right after [i] instead of returning to
    the depot in between. *)
Definition pair_saving (D : distmat) (i j : nat) : Q :=
  Qminus (Qplus (D 0 i) (D 0 j)) (D i j).

(** The dictionary [ends] holds, for every route slot, the first and
    the last customer of its route, and [(0, 0)] for a dead slot. *)
Definition ends_ok (st : cw_state) : Prop :=
  forall k r, cw_routes st !! k = Some r ->
    exists mid, r = 0 :: mid ++ [0] /\
                cw_ends st !! k = Some (default 0 (head mid), default 0 (last mid)).

(** Through the depot is never shorter than straight. *)
Definition depot_triangle (D : distmat) : Prop :=
  forall i j, Qle (D i j) (Qplus (D i 0) (D 0 j)).

Definition nonneg_dist (D : distmat) : Prop := forall a b, Qle 0 (D a b).

(** The distance of serving every customer [1..N] by a route of its
    own. *)
Definition singles_distance (D : distmat) (N : nat) : Q :=
  Qsum (map (fun c => Qplus (D 0 c) (D c 0)) (seq 1 N)).

(** [sum(counts.values())] *)
Definition counts_total (counts : gmap Z nat) : nat :=
  foldr Nat.add 0 (map snd (map_to_list counts)).

(** ** The fairness term, in the words of the specification *)

(** The cell of a coordinate [v] when the range from [lo] to [hi] is cut
    into [k] cells of equal width: the number of whole cell widths that
    lie between [lo] and [v].  The right end of the range belongs to the
    last cell. *)
Definition grid_index (lo hi : Q) (k : nat) (v : Q) : nat :=
  if Qle_bool hi v then k - 1
  else Z.to_nat (Qfloor ((v - lo) / ((hi - lo) / Qnat k))).

(** The cell of node [i], as column and row, in the [k] x [k] grid that
    spans the observed range of the coordinates. *)
Definition grid_cell (nodes : list Node) (k : nat) (i : nat) : nat * nat :=
  let xs := map x nodes in
  let ys := map y nodes in
  (grid_index (Qlist_min xs) (Qlist_max xs) k (x (node_at nodes i)),
   grid_index (Qlist_min ys) (Qlist_max ys) k (y (node_at nodes i))).

(** The cells of the grid. *)
Definition grid (k : nat) : list (nat * nat) :=
  r ← seq 0 k; c ← seq 0 k; [(c, r)].

(** The number of customer visits, over all routes, that fall in a
    cell. *)
Definition grid_visits (routes : list (list nat)) (nodes : list Node)
    (k : nat) (cell : nat * nat) : nat :=
  length (filter (fun i => i <> 0 /\ grid_cell nodes k i = cell)
                 (concat routes)).

(** The population variance of the visit counts of all the cells of the
    grid, empty cells included. *)
Definition fairness_grid_all (routes : list (list nat)) (nodes : list Node)
    (k : nat) : Q :=
  Qvar (map (fun cell => Qnat (grid_visits routes nodes k cell)) (grid k)).

(** The population variance of the visit counts of the cells of the grid
    that are visited at least once. *)
Definition fairness_grid_visited (routes : list (list nat))
    (nodes : list Node) (k : nat) : Q :=
  Qvar (map (fun cell => Qnat (grid_visits routes nodes k cell))
            (filter (fun cell => 0 < grid_visits routes nodes k cell)
                    (grid k))).


(** ** Concrete instances used by the examples *)

(** Customers on a line: node [a] sits at abscissa [a]. *)
Definition line_dist : distmat :=
  fun a b => inject_Z (Z.abs (Z.of_nat a - Z.of_nat b)).

Definition line_route : list nat := [0; 2; 1; 3; 0].

Definition out_and_back : list nat := [0; 1; 0].

Definition tw_node (o c : option Q) (s : Q) : Node := mkNode 0 0 0 1 o c s.

(** A depot and one customer served in the window [2, 8]. *)
Definition tw_instance : VRPInstance :=
  mkInstance (tw_node None None 0) [tw_node (Some 2%Q) (Some 8%Q) 1] 10 1 1 0.

(** A customer with a close time and no open time, five units away. *)
Definition late_instance : VRPInstance :=
  mkInstance (tw_node None None 0) [tw_node None (Some 1%Q) 0] 10 1 1 0.

Definition late_dist : distmat := dist_of_rows [[0; 5]; [5; 0]]%Q.

Definition xy_node (px py : Q) (d : Z) : Node := mkNode 0 px py d None None 0.

(** Two customers at (3, 4) and (3, -4), the depot at the origin. *)
Definition pair_dist : distmat :=
  dist_of_rows [[0; 5; 5]; [5; 0; 8]; [5; 8; 0]]%Q.

Definition pair_instance : VRPInstance :=
  mkInstance (xy_node 0 0 0) [xy_node 3 4 1; xy_node 3 (-4) 1] 100 10 0 0.

Definition pair_store : store := [[0; 1; 0]; [0; 2; 0]].

(** A depot in the middle of a 6 x 8 rectangle of four customers; all
    Euclidean distances are integers. *)
Definition rect_instance : VRPInstance :=
  mkInstance (xy_node 0 0 0)
    [xy_node (-3) 4 1; xy_node 3 4 1; xy_node 3 (-4) 1; xy_node (-3) (-4) 1]
    100 10 0 0.

Definition rect_dist : distmat :=
  dist_of_rows [[0; 5; 5; 5; 5];
                [5; 0; 6; 10; 8];
                [5; 6; 0; 8; 10];
                [5; 10; 8; 0; 6];
                [5; 8; 10; 6; 0]]%Q.

Definition rect_store : store := [[0; 1; 3; 4; 2; 0]].

(** A clock that advances by one second per reading, and a run in which
    no worsening proposal is accepted. *)
Definition tick_clock : nat -> Q := fun k => inject_Z (Z.of_nat k).

Definition never_accept : nat -> Q -> Q -> bool := fun _ _ _ => false.

(** One customer whose demand (5) exceeds the capacity (3). *)
Definition heavy_instance : VRPInstance :=
  mkInstance (xy_node 0 0 0) [xy_node 10 0 5] 3 1 0 0.

Definition heavy_dist : distmat := dist_of_rows [[0; 10]; [10; 0]]%Q.

(** Two customers of demand 1, capacity 1 and a single vehicle. *)
Definition short_fleet_instance : VRPInstance :=
  mkInstance (xy_node 0 0 0) [xy_node 3 4 1; xy_node 3 (-4) 1] 1 1 0 0.

(** Capacity 5; customers 1 to 4 have demands 4, 5, 2 and 1, customer 5
    has demand -2 (a pick-up credit).  The nodes lie on the x axis at 0,
    5, 10, 11, 9 and -11. *)
Definition credit_instance : VRPInstance :=
  mkInstance (xy_node 0 0 0)
    [xy_node 5 0 4; xy_node 10 0 5; xy_node 11 0 2; xy_node 9 0 1;
     xy_node (-11) 0 (-2)]
    5 10 0 0.

Definition credit_dist : distmat :=
  dist_of_rows [[0; 5; 10; 11; 9; 11];
                [5; 0; 5; 6; 4; 16];
                [10; 5; 0; 1; 1; 21];
                [11; 6; 1; 0; 2; 22];
                [9; 4; 1; 2; 0; 20];
                [11; 16; 21; 22; 20; 0]]%Q.

(** The solution that construction returns for it. *)
Definition credit_store : store := [[0; 2; 0]; [0; 4; 3; 5; 1; 0]].

(** Fairness weight 1; both customers sit at (3, 4), in the last cell of
    the grid spanned by the depot at (0, 0) and them. *)
Definition corner_instance : VRPInstance :=
  mkInstance (xy_node 0 0 0) [xy_node 3 4 1; xy_node 3 4 1] 100 10 0 1.

Definition corner_dist : distmat :=
  dist_of_rows [[0; 5; 5]; [5; 0; 0]; [5; 0; 0]]%Q.

Definition corner_routes : list (list nat) := [[0; 1; 2; 0]].

(** Time-window weight 1; customers at abscissas 1, 2 and 3 of a line.
    Customer 1 takes 10 units of service, customer 2 must be reached by
    time 5. *)
Definition rush_instance : VRPInstance :=
  mkInstance (mkNode 0 0 0 0 None None 0)
    [mkNode 1 1 0 1 None None 10;
     mkNode 2 2 0 1 (Some 0%Q) (Some 5%Q) 0;
     mkNode 3 3 0 1 None None 0]
    100 10 1 0.

Definition rush_store : store := [[0; 2; 1; 3; 0]].

(** Two customers at abscissas 1 and 2 of a line, each in a route of its
    own. *)
Definition line_instance : VRPInstance :=
  mkInstance (xy_node 0 0 0) [xy_node 1 0 1; xy_node 2 0 1] 100 10 0 0.

Definition line_store : store := [[0; 1; 0]; [0; 2; 0]].
(** ** Further concrete instances *)

(** Three customers of a line in one route, in the order of their
    abscissas. *)
Definition sorted_store : store := [[0; 1; 2; 3; 0]].

(** The rectangle's route after its 2-opt pass. *)
Definition rect_swept_store : store := [[0; 4; 3; 1; 2; 0]].

(** The bookkeeping of construction after the two routes of
    [line_instance] are merged. *)
Definition line_merged_state : cw_state :=
  mkCW [[0; 1; 2; 0]; [0; 0]]
       (list_to_map [(1, 0); (2, 0)])
       (list_to_map [(0, (1, 2)); (1, (0, 0))]).

(** The store after five turns of annealing on the rectangle. *)
Definition rect_annealed_store : store :=
  [[0; 1; 3; 4; 2; 0]; [0; 1; 3; 4; 2; 0]; [0; 1; 3; 4; 2; 0];
   [0; 3; 4; 2; 1; 0]; [0; 3; 4; 2; 1; 0]; [0; 3; 4; 2; 1; 0];
   [0; 4; 3; 2; 1; 0]; [0; 4; 3; 2; 1; 0]].

(** A generator that always draws the low end of the interval. *)
Definition low_uniform : Z -> nat -> Q -> Q -> Q := fun _ _ low _ => low.
Definition low_integers : Z -> nat -> Z -> Z -> Z := fun _ _ low _ => low.

(** Fairness weight 1; the depot at the origin and five customers in
    the square from (0, 0) to (8, 8), whose cells are 2 wide: customers 1
    and 2 in the cell of the depot, customers 3 and 4 in the opposite
    corner cell, customer 5 in between. *)
Definition spread_instance : VRPInstance :=
  mkInstance (xy_node 0 0 0)
             [xy_node 1 1 1; xy_node (3 # 2) (1 # 2) 1; xy_node 7 7 1;
              xy_node 8 8 1; xy_node 3 5 1]
             10 2 0 1.

Definition spread_routes : list (list nat) := [[0; 1; 2; 5; 0]; [0; 3; 4; 0]].

(** Four nodes; nodes 1 and 2 are 1e16 apart, every other distance is
    1/2 or 1/8.  All entries are doubles. *)
Definition far_dist : distmat :=
  dist_of_rows [[0; 1 # 2; 1 # 8; 1 # 8];
                [1 # 2; 0; 10000000000000000; 1 # 8];
                [1 # 8; 10000000000000000; 0; 1 # 8];
                [1 # 8; 1 # 8; 1 # 8; 0]]%Q.

Definition far_route : list nat := [0; 1; 2; 3; 0].

(** The eighths in the entries below 1 of a list, and the number of its
    entries from 1 on. *)
Definition eighths (l : list Q) : Z :=
  foldr (fun d s => ((if Qle_bool 1 d then 0 else Qfloor (d * 8)) + s)%Z)
        0%Z l.

Definition larges (l : list Q) : Z :=
  foldr (fun d s => ((if Qle_bool 1 d then 1 else 0) + s)%Z) 0%Z l.


(** * Proofs *)

(** ** Rationals *)

Lemma Qltb_lt (a b : Q) : Qltb a b = true <-> (a < b)%Q.
Proof.
  unfold Qltb. rewrite negb_true_iff, <- not_true_iff_false, Qle_bool_iff.
  split; [apply Qnot_le_lt | apply Qlt_not_le].
Qed.

Lemma Qltb_ge (a b : Q) : Qltb a b = false <-> (b <= a)%Q.
Proof.
  unfold Qltb. rewrite negb_false_iff. apply Qle_bool_iff.
Qed.

(** ** Routes and their length *)

Lemma edges_cons2 (a b : nat) (t : list nat) :
  edges (a :: b :: t) = (a, b) :: edges (b :: t).
Proof.
  unfold edges, but_last. simpl. by rewrite Nat.sub_0_r.
Qed.

Lemma route_distance_path (route : list nat) (D : distmat) :
  route_distance route D = path_len D route.
Proof.
  unfold route_distance.
  destruct route as [|a [|b t]]; [done..|].
  simpl length. change (S (S (length t)) <? 2) with false. cbv iota.
  revert a b. induction t as [|c t IH]; intros a b.
  - reflexivity.
  - rewrite edges_cons2. simpl. f_equal. apply IH.
Qed.

Lemma path_len_split (D : distmat) (l1 : list nat) (a : nat) (l2 : list nat) :
  (path_len D (l1 ++ a :: l2) == path_len D (l1 ++ [a]) + path_len D (a :: l2))%Q.
Proof.
  induction l1 as [|b l1 IH].
  - simpl. lra.
  - destruct l1 as [|c l1].
    + simpl. lra.
    + change (path_len D ((b :: c :: l1) ++ a :: l2))
        with (D b c + path_len D ((c :: l1) ++ a :: l2))%Q.
      change (path_len D ((b :: c :: l1) ++ [a]))
        with (D b c + path_len D ((c :: l1) ++ [a]))%Q.
      rewrite IH. lra.
Qed.

Lemma path_len_reverse (D : distmat) (l : list nat) :
  symmetric D -> (path_len D (reverse l) == path_len D l)%Q.
Proof.
  intros Hsym. induction l as [|a l IH]; [reflexivity|].
  destruct l as [|b l]; [reflexivity|].
  rewrite reverse_cons. rewrite reverse_cons in *.
  rewrite <- app_assoc. simpl app.
  rewrite path_len_split. rewrite IH.
  change (path_len D (a :: b :: l)) with (D a b + path_len D (b :: l))%Q.
  simpl. rewrite (Hsym b a). lra.
Qed.

(** A segment [b .. c] between [a] and [d]. *)
Lemma path_len_segment (D : distmat) (a b c d : nat) (s1 s2 post : list nat) :
  b :: s1 = s2 ++ [c] ->
  (path_len D (a :: (b :: s1) ++ d :: post)
   == D a b + path_len D (b :: s1) + D c d + path_len D (d :: post))%Q.
Proof.
  intros Hseg.
  change (path_len D (a :: (b :: s1) ++ d :: post))
    with (D a b + path_len D ((b :: s1) ++ d :: post))%Q.
  rewrite Hseg, <- app_assoc. simpl app.
  rewrite path_len_split.
  change (path_len D (c :: d :: post)) with (D c d + path_len D (d :: post))%Q.
  lra.
Qed.

Lemma Qnat_nonneg (n : nat) : Qle 0 (Qnat n).
Proof. unfold Qnat, Qle. simpl. lia. Qed.


(** ** 2-opt: the four-edge delta *)

Lemma two_opt_cut (route : list nat) (i k : nat) :
  1 <= i -> i < k -> k + 1 < length route ->
  exists pre s1 s2 post,
    let a := route !!! (i - 1) in
    let b := route !!! i in
    let c := route !!! k in
    let d := route !!! (k + 1) in
    route = pre ++ a :: (b :: s1) ++ d :: post /\
    b :: s1 = s2 ++ [c] /\
    apply_two_opt route i k = pre ++ a :: reverse (b :: s1) ++ d :: post.
Proof.
  intros Hi Hik Hk.
  destruct i as [|i']; [lia|]. simpl. rewrite Nat.sub_0_r.
  assert (Ha : route !! i' = Some (route !!! i')).
  { apply list_lookup_lookup_total_lt. lia. }
  assert (Hb : route !! S i' = Some (route !!! S i')).
  { apply list_lookup_lookup_total_lt. lia. }
  assert (Hc : route !! k = Some (route !!! k)).
  { apply list_lookup_lookup_total_lt. lia. }
  assert (Hd : route !! (k + 1) = Some (route !!! (k + 1))).
  { apply list_lookup_lookup_total_lt. lia. }
  set (seg := drop (S i') (take (k + 1) route)).
  assert (Hlen : length seg = k - i').
  { unfold seg. rewrite length_drop, length_take. lia. }
  assert (Hseg0 : seg !! 0 = Some (route !!! S i')).
  { unfold seg. rewrite lookup_drop, lookup_take_lt by lia.
    by rewrite Nat.add_0_r. }
  assert (Hsegl : seg !! (k - S i') = Some (route !!! k)).
  { unfold seg. rewrite lookup_drop, lookup_take_lt by lia.
    replace (S i' + (k - S i')) with k by lia. done. }
  assert (Hroute : route = take i' route ++ route !!! i' :: seg
                             ++ route !!! (k + 1) :: drop (k + 2) route).
  { rewrite <- (take_drop_middle route i' _ Ha) at 1. f_equal. f_equal.
    rewrite <- (take_drop (k - i') (drop (S i') route)) at 1.
    f_equal.
    - unfold seg. rewrite take_drop_commute. f_equal. f_equal. lia.
    - rewrite drop_drop. replace (S i' + (k - i')) with (k + 1) by lia.
      rewrite (drop_S _ _ _ Hd). do 2 f_equal. lia. }
  destruct seg as [|b s1] eqn:Eseg; [simpl in Hlen; lia|].
  simpl in Hseg0. injection Hseg0 as ->.
  destruct (exists_last (l := route !!! S i' :: s1)) as (s2 & c & Hlast);
    [done|].
  assert (c = route !!! k) as ->.
  { rewrite Hlast in Hsegl, Hlen. rewrite length_app in Hlen. simpl in Hlen.
    rewrite lookup_app_r in Hsegl by lia.
    replace (k - S i' - length s2) with 0 in Hsegl by lia.
    simpl in Hsegl. congruence. }
  exists (take i' route), s1, s2, (drop (k + 2) route).
  split; [exact Hroute|]. split; [exact Hlast|].
  unfold apply_two_opt. fold seg. rewrite Eseg.
  rewrite (take_S_r _ _ _ Ha), <- app_assoc. simpl. do 3 f_equal.
  rewrite (drop_S _ _ _ Hd). do 2 f_equal. lia.
Qed.

Lemma two_opt_delta_exact (route : list nat) (i k : nat) (D : distmat) :
  symmetric D ->
  1 <= i -> i < k -> k <= length route - 2 ->
  (two_opt_delta route i k D
   == route_distance (apply_two_opt route i k) D - route_distance route D)%Q.
Proof.
  intros Hsym Hi Hik Hk.
  destruct (two_opt_cut route i k) as (pre & s1 & s2 & post & Hr & Hs & Ha);
    [lia..|].
  cbv zeta in Hr, Hs, Ha.
  unfold two_opt_delta.
  replace ((i <? 1) || (length route - 1 <=? k) || (k <=? i)) with false.
  2:{ symmetry. rewrite !orb_false_iff.
      repeat split; [apply Nat.ltb_ge | apply Nat.leb_gt..]; lia. }
  rewrite !route_distance_path. rewrite Ha.
  set (a := route !!! (i - 1)) in *. set (b := route !!! i) in *.
  set (c := route !!! k) in *. set (d := route !!! (k + 1)) in *.
  clearbody a b c d.
  assert (Hrev1 : reverse (b :: s1) = c :: reverse s2).
  { by rewrite Hs, reverse_snoc. }
  assert (Hrev2 : c :: reverse s2 = reverse s1 ++ [b]).
  { by rewrite <- Hrev1, reverse_cons. }
  pose proof (path_len_reverse D (b :: s1) Hsym) as Hp.
  rewrite Hrev1 in Hp |- *.
  pose proof (path_len_split D pre a ((b :: s1) ++ d :: post)) as E1.
  pose proof (path_len_split D pre a ((c :: reverse s2) ++ d :: post)) as E2.
  pose proof (path_len_segment D a b c d s1 s2 post Hs) as E3.
  pose proof (path_len_segment D a c b d (reverse s2) (reverse s1) post Hrev2)
    as E4.
  rewrite <- Hr in E1.
  cbv zeta. lra.
Qed.

Lemma line_dist_symmetric : symmetric line_dist.
Proof.
  intros a b. unfold line_dist.
  replace (Z.of_nat b - Z.of_nat a)%Z with (- (Z.of_nat a - Z.of_nat b))%Z
    by lia.
  by rewrite Z.abs_opp.
Qed.


(** ** Time windows *)

Lemma window_ok_blank : window_ok blank_node.
Proof. exact I. Qed.

Lemma window_ok_node_at (nodes : list Node) (i : nat) :
  Forall window_ok nodes -> window_ok (node_at nodes i).
Proof.
  intros Hall. unfold node_at.
  destruct (nodes !! i) as [n|] eqn:E; simpl.
  - eapply Forall_lookup_1; eauto.
  - exact window_ok_blank.
Qed.

Lemma tw_loop_simulate (nodes : list Node) (D : distmat) (rest : list nat) :
  Forall window_ok nodes ->
  forall (a : nat) (t p : Q),
    (foldl (tw_step nodes D) (t, p) (edges (a :: rest))).2
    = tw_simulate nodes D t p a rest.
Proof.
  intros Hall. induction rest as [|b rest IH]; intros a t p; [done|].
  rewrite edges_cons2. simpl foldl. unfold tw_step at 2. simpl fst. simpl snd.
  simpl tw_simulate.
  pose proof (window_ok_node_at nodes b Hall) as Hw. unfold window_ok in Hw.
  destruct (tw_open (node_at nodes b)) as [o|],
           (tw_close (node_at nodes b)) as [c|]; try done.
  destruct (Qltb (t + D a b) o) eqn:Ewait.
  - apply Qltb_lt in Ewait.
    assert (Qltb c o = false) as -> by (apply Qltb_ge; lra).
    assert (Qltb c (t + D a b) = false) as -> by (apply Qltb_ge; lra).
    apply IH.
  - apply IH.
Qed.

(** C9 (as amended).  For every route and every instance with positive
    time-window weight whose nodes carry either no window or a complete
    window that opens no later than it closes, the route's time-window
    penalty is the lateness accumulated by the simulation: clock 0 at the
    depot, each edge advances the clock by its distance, the vehicle waits
    for the window to open, an arrival after the close time adds
    arrival - close, and each node's service duration elapses. *)
Theorem time_window_penalty_simulation (route : list nat)
    (instance : VRPInstance) (D : distmat) :
  (0 < lambda_tw instance)%Q ->
  Forall window_ok (all_nodes instance) ->
  time_window_penalty route (all_nodes instance) D
  = tw_lateness route (all_nodes instance) D.
Proof.
  intros _ Hall. unfold time_window_penalty, tw_lateness.
  destruct route as [|a rest]; [done|].
  by apply tw_loop_simulate.
Qed.

Lemma time_window_penalty_simulation_witness :
  (0 < lambda_tw tw_instance)%Q /\
  Forall window_ok (all_nodes tw_instance) /\
  time_window_penalty out_and_back (all_nodes tw_instance) line_dist
  = tw_lateness out_and_back (all_nodes tw_instance) line_dist.
Proof.
  assert (H1 : (0 < lambda_tw tw_instance)%Q) by reflexivity.
  assert (H2 : Forall window_ok (all_nodes tw_instance)).
  { repeat constructor. simpl. discriminate. }
  split; [exact H1|]. split; [exact H2|].
  exact (time_window_penalty_simulation out_and_back tw_instance line_dist
           H1 H2).
Defined.

(** C9 as stated does not hold: the simulation charges the late
    arrival at a node that has a close time only, the code does not. *)
Lemma time_window_close_only_counterexample :
  (0 < lambda_tw late_instance)%Q /\
  time_window_penalty out_and_back (all_nodes late_instance) late_dist = 0%Q /\
  tw_lateness out_and_back (all_nodes late_instance) late_dist = 4%Q /\
  ~ (time_window_penalty out_and_back (all_nodes late_instance) late_dist
     == tw_lateness out_and_back (all_nodes late_instance) late_dist)%Q.
Proof.
  split; [reflexivity|]. split; [reflexivity|]. split; [reflexivity|].
  intros H. vm_compute in H. discriminate.
Qed.

(** ** Relocate and the local-search turn on concrete solutions *)

(** C1, the code at a failing input.  The best move takes customer 1 out
    of its route and puts it in front of customer 2; the move is applied
    (gain 2), and the emptied route [0, 0] is still in the returned
    solution. *)
Theorem relocate_keeps_empty_route :
  relocate_search (routes_of pair_store [0; 1]) pair_instance pair_dist
  = (2%Q, Some (0, 1, 1, 1)) /\
  relocate_best_improvement [0; 1] pair_instance pair_dist pair_store
  = ([0; 1], true, [[0; 0]; [0; 1; 2; 0]]) /\
  [0; 0] ∈ routes_of [[0; 0]; [0; 1; 2; 0]] [0; 1].
Proof.
  split; [vm_compute; reflexivity|].
  split; [vm_compute; reflexivity|].
  vm_compute. left.
Qed.

(** A turn in which relocate moves a customer to a later position of its
    own route.  One 2-opt pass followed by one relocate pass turns a
    solution of cost 36 into one of cost 38: after the 2-opt pass (cost
    32) the relocate move (0, 1, 0, 3) is evaluated with gain 2 for the
    insertion in front of index 3, but after the deletion at index 1 the
    insertion lands one place further. *)
Lemma local_search_step_raises_cost :
  let input := routes_of rect_store [0] in
  let swept := improve_two_opt_intra [0] rect_dist 1 rect_store in
  let res := local_search_step [0] rect_instance rect_dist rect_store in
  let out := routes_of res.2 res.1.1 in
  Qeq (total_cost input rect_instance rect_dist) 36 /\
  routes_of swept.2 swept.1.1 = [[0; 4; 3; 1; 2; 0]] /\
  Qeq (total_cost (routes_of swept.2 swept.1.1) rect_instance rect_dist) 32 /\
  relocate_search [[0; 4; 3; 1; 2; 0]] rect_instance rect_dist
  = (2%Q, Some (0, 1, 0, 3)) /\
  out = [[0; 3; 1; 4; 2; 0]] /\
  Qeq (total_cost out rect_instance rect_dist) 38 /\
  Qlt (total_cost input rect_instance rect_dist)
      (total_cost out rect_instance rect_dist).
Proof.
  cbv zeta. repeat split; vm_compute; reflexivity.
Qed.

(** ** The store *)

Lemma deref_app_l (h ext : store) (l : loc) :
  l < length h -> deref (h ++ ext) l = deref h l.
Proof. intros Hl. unfold deref. by rewrite lookup_app_l. Qed.

Lemma routes_of_app_l (h ext : store) (rs : list loc) :
  allocated h rs -> routes_of (h ++ ext) rs = routes_of h rs.
Proof.
  intros Hall. unfold routes_of. apply map_ext_Forall.
  eapply Forall_impl; [exact Hall|]. intros l Hl. by apply deref_app_l.
Qed.

Lemma allocated_app_l (h ext : store) (rs : list loc) :
  allocated h rs -> allocated (h ++ ext) rs.
Proof.
  intros Hall. eapply Forall_impl; [exact Hall|].
  intros l Hl. simpl in *. rewrite length_app. lia.
Qed.

Lemma routes_of_length (h : store) (rs : list loc) :
  length (routes_of h rs) = length rs.
Proof. unfold routes_of. apply length_map. Qed.

Lemma routes_of_seq (h : store) (rts : list (list nat)) :
  routes_of (h ++ rts) (seq (length h) (length rts)) = rts.
Proof.
  unfold routes_of. apply list_eq. intros i.
  rewrite list_lookup_fmap.
  destruct (decide (i < length rts)) as [Hi|Hi].
  - rewrite lookup_seq_lt by done. simpl. unfold deref.
    rewrite lookup_app_r by lia.
    replace (length h + i - length h) with i by lia.
    destruct (lookup_lt_is_Some_2 rts i Hi) as [r Hr]. by rewrite Hr.
  - rewrite lookup_seq_ge by lia. simpl. symmetry.
    apply lookup_ge_None. lia.
Qed.

Lemma allocated_seq (h : store) (rts : list (list nat)) :
  allocated (h ++ rts) (seq (length h) (length rts)).
Proof.
  apply Forall_forall. intros l Hl. apply elem_of_seq in Hl.
  rewrite length_app. lia.
Qed.

(** Copying a solution appends its routes to the store. *)
Lemma copy_routes_spec (rs : list loc) (h : store) :
  allocated h rs ->
  copy_routes rs h = (seq (length h) (length rs), h ++ routes_of h rs).
Proof.
  revert h. induction rs as [|l rs IH]; intros h Hall.
  - simpl. unfold ret. by rewrite app_nil_r.
  - apply Forall_cons in Hall as [Hl Hall].
    simpl. unfold bind, read, alloc, ret. simpl.
    rewrite IH by (by apply allocated_app_l).
    rewrite length_app. simpl.
    rewrite (routes_of_app_l h [deref h l] rs Hall).
    rewrite <- app_assoc. simpl.
    by replace (length h + 1) with (S (length h)) by lia.
Qed.

(** ** The 2-opt pass *)

Lemma foldl_invariant {A B} (P : A -> Prop) (f : A -> B -> A) (l : list B) :
  (forall a b, b ∈ l -> P a -> P (f a b)) ->
  forall a, P a -> P (foldl f a l).
Proof.
  induction l as [|b l IH]; intros Hstep a Ha; [done|].
  simpl. apply IH.
  - intros a' b' Hb'. apply Hstep. by right.
  - apply Hstep; [by left | done].
Qed.

Lemma elem_of_range (a b i : nat) : i ∈ range a b <-> a <= i < b.
Proof. unfold range. rewrite elem_of_seq. lia. Qed.

Lemma elem_of_two_opt_moves (r : list nat) (i k : nat) :
  (i, k) ∈ two_opt_moves r <->
  1 <= i < length r - 2 /\ i + 1 <= k < length r - 1.
Proof.
  unfold two_opt_moves. rewrite list_elem_of_bind. split.
  - intros (i' & Hk & Hi). apply list_elem_of_bind in Hk as (k' & Heq & Hk).
    apply list_elem_of_singleton in Heq. injection Heq as -> ->.
    apply elem_of_range in Hi, Hk. lia.
  - intros [Hi Hk]. exists i. split; [|by apply elem_of_range].
    apply list_elem_of_bind. exists k. split; [|by apply elem_of_range].
    by apply list_elem_of_singleton.
Qed.

Lemma two_opt_search_in (r : list nat) (D : distmat) (m : nat * nat) :
  (two_opt_search r D).2 = Some m -> m ∈ two_opt_moves r.
Proof.
  unfold two_opt_search.
  apply (foldl_invariant
           (fun st : Q * option (nat * nat) =>
              st.2 = Some m -> m ∈ two_opt_moves r)); [|done].
  intros st m' Hm' IH. destruct (Qltb _ _); [|exact IH].
  simpl. intros [= ->]. exact Hm'.
Qed.

Lemma apply_two_opt_perm (r : list nat) (i k : nat) :
  i <= k + 1 -> apply_two_opt r i k ≡ₚ r.
Proof.
  intros Hik. unfold apply_two_opt.
  rewrite reverse_Permutation.
  rewrite <- (take_drop (k + 1) r) at 4.
  rewrite app_assoc. f_equiv.
  rewrite <- (take_drop i (take (k + 1) r)) at 2.
  rewrite take_take. by replace (i `min` (k + 1)) with i by lia.
Qed.

Lemma two_opt_route_perm (D : distmat) (r : list nat) :
  two_opt_route D r ≡ₚ r.
Proof.
  unfold two_opt_route.
  destruct (two_opt_search r D).2 as [[i k]|] eqn:E; [|done].
  apply two_opt_search_in, elem_of_two_opt_moves in E.
  apply apply_two_opt_perm. lia.
Qed.

(** One sweep allocates the rebuilt routes and leaves every existing cell
    as it is. *)
Lemma two_opt_sweep_spec (rs : list loc) (D : distmat) :
  forall (h : store) (rs' : list loc) (c : bool) (h' : store),
    allocated h rs ->
    two_opt_sweep rs D h = (rs', c, h') ->
    exists ext,
      h' = h ++ ext /\ allocated h' rs' /\
      routes_of h' rs' = map (two_opt_route D) (routes_of h rs).
Proof.
  induction rs as [|l rs IH]; intros h rs' c h' Hall Hrun.
  - injection Hrun as <- <- <-. exists []. rewrite app_nil_r. by repeat split.
  - apply Forall_cons in Hall as [Hl Hall].
    simpl in Hrun. unfold bind at 1, read at 1 in Hrun.
    assert (Hroute : two_opt_route D (deref h l)
                     = match (two_opt_search (deref h l) D).2 with
                       | Some (i, k) => apply_two_opt (deref h l) i k
                       | None => deref h l
                       end) by reflexivity.
    destruct (two_opt_search (deref h l) D).2 as [[i k]|] eqn:E.
    + unfold bind at 1, alloc at 1 in Hrun.
      set (r' := apply_two_opt (deref h l) i k) in *.
      unfold bind at 1 in Hrun.
      destruct (two_opt_sweep rs D (h ++ [r'])) as [[rs1 c1] h1] eqn:Es.
      apply IH in Es as (ext & -> & Ha & Hr); [|by apply allocated_app_l].
      injection Hrun as <- <- <-.
      exists ([r'] ++ ext). rewrite app_assoc.
      split; [done|]. split.
      * apply Forall_cons. split; [|done].
        rewrite !length_app. simpl. lia.
      * simpl. rewrite Hroute. f_equal.
        -- unfold deref. rewrite <- app_assoc.
           change ([r'] ++ ext) with (r' :: ext).
           rewrite list_lookup_middle by reflexivity. reflexivity.
        -- rewrite Hr. f_equal. by apply routes_of_app_l.
    + unfold bind at 1 in Hrun.
      destruct (two_opt_sweep rs D h) as [[rs1 c1] h1] eqn:Es.
      apply IH in Es as (ext & -> & Ha & Hr); [|done].
      injection Hrun as <- <- <-.
      exists ext. split; [done|]. split.
      * apply Forall_cons. split; [|done]. rewrite length_app. lia.
      * simpl. rewrite Hroute. f_equal; [by apply deref_app_l | done].
Qed.

(** The passes of [improve_two_opt_intra] are a number of sweeps. *)
Lemma two_opt_passes_spec (n : nat) (D : distmat) :
  forall (rs : list loc) (improved : bool) (h : store)
         (rs' : list loc) (c : bool) (h' : store),
    allocated h rs ->
    two_opt_passes n rs D improved h = (rs', c, h') ->
    exists m ext,
      h' = h ++ ext /\ allocated h' rs' /\
      routes_of h' rs' = Nat.iter m (map (two_opt_route D)) (routes_of h rs).
Proof.
  induction n as [|n IH]; intros rs improved h rs' c h' Hall Hrun.
  - injection Hrun as <- <- <-. exists 0, []. rewrite app_nil_r.
    by repeat split.
  - simpl in Hrun. unfold bind at 1 in Hrun.
    destruct (two_opt_sweep rs D h) as [[rs1 c1] h1] eqn:Es.
    apply two_opt_sweep_spec in Es as (ext & -> & Ha & Hr); [|done].
    simpl in Hrun. destruct c1.
    + apply IH in Hrun as (m & ext' & -> & Ha' & Hr'); [|done].
      exists (S m), (ext ++ ext'). rewrite app_assoc.
      split; [done|]. split; [done|].
      rewrite Hr', Hr. by rewrite Nat.iter_succ_r.
    + injection Hrun as <- <- <-. exists 1, ext. by repeat split.
Qed.

Lemma improve_two_opt_intra_spec (rs : list loc) (D : distmat)
    (max_passes : nat) (h : store) (rs' : list loc) (c : bool) (h' : store) :
  allocated h rs ->
  improve_two_opt_intra rs D max_passes h = (rs', c, h') ->
  exists m ext,
    h' = h ++ ext /\ allocated h' rs' /\
    routes_of h' rs' = Nat.iter m (map (two_opt_route D)) (routes_of h rs).
Proof. apply two_opt_passes_spec. Qed.
(** ** Binary64 rounding *)

Lemma two_pow_pos (z : Z) : Qlt 0 (2 ^ z).
Proof. by apply Qpower_0_lt. Qed.

Lemma two_pow_plus (n m : Z) : Qeq (2 ^ (n + m)) (2 ^ n * 2 ^ m).
Proof. by apply Qpower_plus. Qed.

Lemma two_pow_nonneg_Z (n : Z) : (0 <= n)%Z -> Qeq (inject_Z (2 ^ n)) (2 ^ n).
Proof. intros Hn. by rewrite Zpower_Qpower. Qed.

Lemma Qlog2_spec (q : Q) :
  Qlt 0 q -> Qle (2 ^ Qlog2 q) q /\ Qlt q (2 ^ (Qlog2 q + 1)).
Proof.
  intros Hq. unfold Qlog2.
  destruct q as [a b]. cbn [Qnum Qden].
  assert (Ha : (0 < a)%Z) by (unfold Qlt in Hq; simpl in Hq; lia).
  set (la := Z.log2 a). set (lb := Z.log2 (Z.pos b)).
  destruct (Z.log2_spec a Ha) as [Ha1 Ha2]. fold la in Ha1, Ha2.
  destruct (Z.log2_spec (Z.pos b) (Pos2Z.is_pos b)) as [Hb1 Hb2].
  fold lb in Hb1, Hb2.
  assert (Hla : (0 <= la)%Z) by apply Z.log2_nonneg.
  assert (Hlb : (0 <= lb)%Z) by apply Z.log2_nonneg.
  assert (Hqb : Qeq ((a # b) * inject_Z (Z.pos b)) (inject_Z a)).
  { unfold Qeq, Qmult, inject_Z. simpl. lia. }
  assert (Hbpos : Qlt 0 (inject_Z (Z.pos b))) by done.
  assert (Ha1q : Qle (2 ^ la) (inject_Z a))
    by (rewrite <- two_pow_nonneg_Z by done; by rewrite <- Zle_Qle).
  assert (Ha2q : Qlt (inject_Z a) (2 ^ (la + 1)))
    by (rewrite <- two_pow_nonneg_Z by lia; rewrite <- Zlt_Qlt;
        by rewrite <- Z.add_1_r in Ha2).
  assert (Hb1q : Qle (2 ^ lb) (inject_Z (Z.pos b)))
    by (rewrite <- two_pow_nonneg_Z by done; by rewrite <- Zle_Qle).
  assert (Hb2q : Qlt (inject_Z (Z.pos b)) (2 ^ (lb + 1)))
    by (rewrite <- two_pow_nonneg_Z by lia; rewrite <- Zlt_Qlt;
        by rewrite <- Z.add_1_r in Hb2).
  destruct (Qle_bool (2 ^ (la - lb)) (a # b)) eqn:E.
  - apply Qle_bool_iff in E. split; [done|].
    (* q * b = a < 2^(la+1) = 2^(d+1) * 2^lb <= 2^(d+1) * b *)
    apply (Qmult_lt_r _ _ (inject_Z (Z.pos b)) Hbpos).
    rewrite Hqb.
    eapply Qlt_le_trans; [exact Ha2q|].
    replace (la + 1)%Z with ((la - lb + 1) + lb)%Z by lia.
    rewrite two_pow_plus.
    apply Qmult_le_l; [apply two_pow_pos | done].
  - assert (E' : Qlt (a # b) (2 ^ (la - lb))).
    { apply Qnot_le_lt. intros Hle. apply Qle_bool_iff in Hle. congruence. }
    split.
    + apply (Qmult_le_r _ _ (inject_Z (Z.pos b)) Hbpos).
      rewrite Hqb.
      eapply Qle_trans; [|exact Ha1q].
      replace la with ((la - lb - 1) + (lb + 1))%Z at 2 by lia.
      rewrite two_pow_plus.
      apply Qmult_le_l; [apply two_pow_pos | by apply Qlt_le_weak].
    + by replace (la - lb - 1 + 1)%Z with (la - lb)%Z by lia.
Qed.

Lemma round_half_even_near (q : Q) :
  Qle (Qabs (inject_Z (round_half_even q) - q)) (1 # 2).
Proof.
  unfold round_half_even.
  pose proof (Qfloor_le q) as H1. pose proof (Qlt_floor q) as H2.
  rewrite inject_Z_plus in H2. change (inject_Z 1) with 1%Q in H2.
  set (f := Qfloor q) in *. clearbody f.
  assert (Hf1 : Qeq (inject_Z (f + 1)) (inject_Z f + 1))
    by (by rewrite inject_Z_plus).
  apply Qabs_Qle_condition.
  destruct (Qltb (q - inject_Z f) (1 # 2)) eqn:E1;
    [apply Qltb_lt in E1|apply Qltb_ge in E1;
     destruct (Qltb (1 # 2) (q - inject_Z f)) eqn:E2;
     [apply Qltb_lt in E2|apply Qltb_ge in E2; destruct (Z.even f)]];
    revert Hf1; generalize (inject_Z (f + 1));
    revert H1 H2 E1; try revert E2; generalize (inject_Z f);
    intros F; intros; split; lra.
Qed.

Lemma round64_scaled_error (q : Q) :
  let p := (Z.max (Qlog2 (Qabs q)) (-1022) - 52)%Z in
  Qle (Qabs (inject_Z (round_half_even (q / 2 ^ p)) * 2 ^ p - q))
      (unit_roundoff * Qabs q + half_subnormal).
Proof.
  cbv zeta.
  set (p := (Z.max (Qlog2 (Qabs q)) (-1022) - 52)%Z).
  pose proof (two_pow_pos p) as Hp.
  set (m := (q / 2 ^ p)%Q).
  assert (Hm : Qeq q (m * 2 ^ p)).
  { unfold m. field. intros H0. rewrite H0 in Hp. by apply Qlt_irrefl in Hp. }
  pose proof (round_half_even_near m) as Hn.
  set (n := inject_Z (round_half_even m)) in *.
  assert (Herr : Qeq (Qabs (n * 2 ^ p - q)) (Qabs (n - m) * 2 ^ p)).
  { assert (E1 : Qeq (n * 2 ^ p - q) ((n - m) * 2 ^ p)).
    { transitivity (n * 2 ^ p - m * 2 ^ p)%Q; [|ring].
      apply Qplus_comp; [reflexivity|]. by apply Qopp_comp. }
    rewrite E1, Qabs_Qmult. rewrite (Qabs_pos (2 ^ p)); [reflexivity|].
    by apply Qlt_le_weak. }
  rewrite Herr.
  pose proof (Qabs_nonneg q) as Hq0.
  destruct (Qlt_le_dec 0 (Qabs q)) as [Hq|Hq].
  - destruct (Qlog2_spec (Qabs q) Hq) as [He _].
    set (e := Qlog2 (Qabs q)) in *.
    destruct (Z_le_gt_dec (-1022) e) as [Hbig|Hsmall].
    + assert (Ep : Qeq (2 ^ p) (2 ^ e * (2 ^ (-52)))).
      { unfold p. rewrite Z.max_l by lia.
        replace (e - 52)%Z with (e + (-52))%Z by lia. apply two_pow_plus. }
      assert (Hbound : Qle (Qabs (n - m) * 2 ^ p)
                           ((1 # 2) * (2 ^ e * 2 ^ (-52)))).
      { rewrite Ep. apply Qmult_le_compat_r; [done|].
        rewrite <- Ep. by apply Qlt_le_weak. }
      assert (Hu : Qeq ((1 # 2) * (2 ^ e * 2 ^ (-52)))
                       (unit_roundoff * 2 ^ e)).
      { assert (E2 : Qeq (2 ^ (-52)) (2 * unit_roundoff))
          by (vm_compute; reflexivity).
        rewrite E2. ring. }
      assert (Hue : Qle (unit_roundoff * 2 ^ e) (unit_roundoff * Qabs q))
        by (apply Qmult_le_l; done).
      assert (Qlt 0 half_subnormal) by done.
      revert Hbound Hu Hue. generalize (Qabs (n - m) * 2 ^ p)%Q.
      generalize ((1 # 2) * (2 ^ e * 2 ^ (-52)))%Q.
      generalize (unit_roundoff * 2 ^ e)%Q.
      generalize (unit_roundoff * Qabs q)%Q.
      intros; lra.
    + assert (Ep : p = (-1074)%Z) by (unfold p; lia).
      rewrite Ep.
      assert (Hbound : Qle (Qabs (n - m) * 2 ^ (-1074))
                           ((1 # 2) * 2 ^ (-1074)))
        by (apply Qmult_le_compat_r; [done | by vm_compute]).
      assert (Hh : Qeq ((1 # 2) * 2 ^ (-1074)) half_subnormal)
        by (vm_compute; reflexivity).
      assert (Huq : Qle 0 (unit_roundoff * Qabs q))
        by (apply Qmult_le_0_compat; done).
      revert Hbound Hh Huq. generalize (Qabs (n - m) * 2 ^ (-1074))%Q.
      generalize ((1 # 2) * 2 ^ (-1074))%Q.
      generalize (unit_roundoff * Qabs q)%Q.
      intros; lra.
  - assert (Hq' : Qeq q 0).
    { assert (Qeq (Qabs q) 0) by (by apply Qle_antisym).
      apply Qabs_Qle_condition in Hq. apply Qle_antisym; lra. }
    assert (Hm0 : Qeq m 0).
    { unfold m. rewrite Hq'. unfold Qdiv. ring. }
    assert (Hn0 : Qeq n 0).
    { rewrite Hm0 in Hn. apply Qabs_Qle_condition in Hn.
      unfold n in *. 
      assert ((-1 < round_half_even m < 1)%Z).
      { split; rewrite Zlt_Qlt; change (inject_Z (-1)) with (-1)%Q;
          change (inject_Z 1) with 1%Q;
          revert Hn; generalize (inject_Z (round_half_even m));
          intros; lra. }
      replace (round_half_even m) with 0%Z by lia. reflexivity. }
    rewrite Hn0, Hm0.
    assert (Huq : Qle 0 (unit_roundoff * Qabs q))
      by (apply Qmult_le_0_compat; done).
    assert (E0 : Qeq (Qabs (0 - 0) * 2 ^ p) 0)
      by (change (Qabs (0 - 0)) with 0%Q; ring).
    rewrite E0.
    assert (Qlt 0 half_subnormal) by done.
    revert Huq. generalize (unit_roundoff * Qabs q)%Q. intros; lra.
Qed.

Lemma round64_error (q : Q) :
  Qle (Qabs (round64 q - q)) (unit_roundoff * Qabs q + half_subnormal).
Proof.
  pose proof (round64_scaled_error (Qred q)) as H. cbv zeta in H.
  unfold round64. cbv zeta.
  set (X := (inject_Z _ * _)%Q) in *. clearbody X.
  pose proof (Qred_correct X) as EX. set (X' := Qred X) in *. clearbody X'.
  pose proof (Qred_correct q) as Eq. set (q' := Qred q) in *. clearbody q'.
  rewrite EX, <- Eq. exact H.
Qed.

(** Equal rationals round to the same double. *)
Lemma round64_proper (q q' : Q) : Qeq q q' -> round64 q = round64 q'.
Proof. intros H. unfold round64. by rewrite (Qred_complete q q' H). Qed.

Lemma round64_rounding : binary64_rounding round64.
Proof. intros q _. apply round64_error. Qed.

Section Kernel.

Import PrimFloat.

(** [round64] returns what the binary64 operations of the kernel return:
    on the sums of the examples below, on ties, on a quotient and on
    subnormal numbers. *)
Example round64_kernel_sums :
  map Q_of_float
      [(1e16 + 0.5)%float; (1e16 + 0.125)%float; (0.5 + 0.125)%float;
       (0.125 + 0.125)%float; (0.25 - 0.625)%float;
       (1e16 + 1)%float; (1e16 + 3)%float; (1 / 3)%float;
       (0x1p-1074 / 2)%float; (0x3p-1074 / 2)%float]
  = map (fun q => Some (round64 q))
      [10000000000000000 + (1 # 2); 10000000000000000 + (1 # 8);
       (1 # 2) + (1 # 8); (1 # 8) + (1 # 8); (1 # 4) - (5 # 8);
       10000000000000000 + 1; 10000000000000000 + 3; 1 # 3;
       2 ^ (-1075); 3 * 2 ^ (-1075)]%Q.
Proof. vm_compute. reflexivity. Qed.

End Kernel.

(** ** 2-opt: the four-edge delta in binary64 *)

Lemma np_sum_left_foldl (fl : Q -> Q) (l2 l : list Q) (v : Q) :
  l <> [] -> np_sum fl l v ->
  np_sum fl (l ++ l2) (foldl (fun s x => fl (s + x)%Q) v l2).
Proof.
  revert l v. induction l2 as [|x l2 IH]; intros l v Hl Hv.
  - by rewrite app_nil_r.
  - simpl. rewrite (assoc_L (++) l [x] l2 : l ++ x :: l2 = (l ++ [x]) ++ l2).
    apply IH; [by destruct l|].
    apply (np_sum_add fl _ l [x] v x); try done. constructor.
Qed.

(** Adding from left to right is one of the orders of [np_sum]. *)
Lemma np_sum_left_sum (fl : Q -> Q) (l : list Q) :
  np_sum fl l (np_sum_left fl l).
Proof.
  destruct l as [|d l]; [constructor|].
  apply (np_sum_left_foldl fl l [d] d); [done | constructor].
Qed.

Lemma fl_route_distance_left_sum (fl : Q -> Q) (route : list nat)
    (D : distmat) :
  fl_route_distance fl route D (fl_route_distance_left fl route D).
Proof.
  unfold fl_route_distance, fl_route_distance_left.
  destruct (length route <? 2); [done | apply np_sum_left_sum].
Qed.

Lemma rounding_step (fl : Q -> Q) (q : Q) :
  binary64_rounding fl -> Qle (Qabs q) 2000001 ->
  Qle (Qabs (fl q - q)) op_error.
Proof.
  intros Hfl Hq.
  eapply Qle_trans; [apply Hfl|].
  - eapply Qle_trans; [exact Hq | by vm_compute].
  - assert (Hu : Qle (unit_roundoff * Qabs q) (unit_roundoff * 2000001))
      by (apply Qmult_le_l; done).
    eapply Qle_trans; [apply Qplus_le_l, Hu | by vm_compute].
Qed.

Lemma Qsum_Permutation (l l' : list Q) : l ≡ₚ l' -> Qeq (Qsum l) (Qsum l').
Proof.
  induction 1 as [|a l l' _ IH|a b l|l l' l'' _ IH1 _ IH2]; simpl.
  - reflexivity.
  - by rewrite IH.
  - ring.
  - by rewrite IH1.
Qed.

Lemma Qsum_app_plus (l1 l2 : list Q) :
  Qeq (Qsum (l1 ++ l2)) (Qsum l1 + Qsum l2).
Proof.
  induction l1 as [|a l1 IH]; simpl; [ring|]. rewrite IH. ring.
Qed.

Lemma Qnat_S (n : nat) : Qeq (Qnat (S n)) (Qnat n + 1).
Proof.
  unfold Qnat. rewrite Nat2Z.inj_succ, <- Z.add_1_r, inject_Z_plus.
  reflexivity.
Qed.

Lemma Qnat_plus (n m : nat) : Qeq (Qnat (n + m)) (Qnat n + Qnat m).
Proof. unfold Qnat. by rewrite Nat2Z.inj_add, inject_Z_plus. Qed.

Lemma Qnat_le (n m : nat) : n <= m -> Qle (Qnat n) (Qnat m).
Proof. intros H. unfold Qnat. rewrite <- Zle_Qle. lia. Qed.

Lemma Qsum_abs_bound (l : list Q) (M : Q) :
  Forall (fun d => Qle (Qabs d) M) l ->
  Qle (Qabs (Qsum l)) (Qnat (length l) * M).
Proof.
  induction 1 as [|d l Hd _ IH]; simpl Qsum; cbn [length].
  - change (Qnat 0) with 0%Q. ring_simplify (0 * M)%Q. discriminate.
  - eapply Qle_trans; [apply Qabs_triangle|].
    rewrite Qnat_S. revert Hd IH.
    generalize (Qabs d), (Qabs (Qsum l)), (Qnat (length l)).
    intros x s n Hd IH. ring_simplify ((n + 1) * M)%Q. lra.
Qed.

Lemma Qnat_pred (n : nat) : 0 < n -> Qeq (Qnat n) (Qnat (n - 1) + 1).
Proof.
  intros Hn. rewrite <- Qnat_S. by replace (S (n - 1)) with n by lia.
Qed.

(** The rounded sum of at most 999 entries of size at most 1000, added
    in any order, is within one [op_error] per addition of the exact
    sum. *)
Lemma np_sum_error (fl : Q -> Q) (l : list Q) (v : Q) :
  binary64_rounding fl -> np_sum fl l v ->
  l <> [] -> length l <= 999 ->
  Forall (fun d => Qle (Qabs d) 1000) l ->
  Qle (Qabs (v - Qsum l)) (Qnat (length l - 1) * op_error).
Proof.
  intros Hfl Hsum.
  induction Hsum as [|d|l l1 l2 v1 v2 Hl1 Hl2 Hp _ IH1 _ IH2];
    intros Hne Hlen Hall.
  - done.
  - change (Qnat (length [d] - 1)) with 0%Q.
    change (Qsum [d]) with (d + 0)%Q.
    apply Qabs_Qle_condition. unfold op_error. split; lra.
  - assert (Hlen' : length l = length l1 + length l2)
      by (by rewrite Hp, length_app).
    assert (Hn1 : 0 < length l1) by (destruct l1; [done | simpl; lia]).
    assert (Hn2 : 0 < length l2) by (destruct l2; [done | simpl; lia]).
    rewrite Hp in Hall. apply Forall_app in Hall as [Hall1 Hall2].
    specialize (IH1 Hl1 ltac:(lia) Hall1).
    specialize (IH2 Hl2 ltac:(lia) Hall2).
    pose proof (Qsum_abs_bound l1 1000 Hall1) as HS1.
    pose proof (Qsum_abs_bound l2 1000 Hall2) as HS2.
    assert (ES : Qeq (Qsum l) (Qsum l1 + Qsum l2))
      by (by rewrite (Qsum_Permutation _ _ Hp), Qsum_app_plus).
    pose proof (Qnat_pred (length l1) Hn1) as EN1.
    pose proof (Qnat_pred (length l2) Hn2) as EN2.
    assert (EN : Qeq (Qnat (length l - 1))
                     (Qnat (length l1 - 1) + Qnat (length l2 - 1) + 1)).
    { replace (length l - 1) with (S (length l1 - 1 + (length l2 - 1)))
        by lia.
      by rewrite Qnat_S, Qnat_plus. }
    assert (HN : Qle (Qnat (length l1) + Qnat (length l2)) 999).
    { rewrite <- Qnat_plus. apply (Qnat_le _ 999). lia. }
    pose proof (Qnat_nonneg (length l1 - 1)) as Ha1.
    pose proof (Qnat_nonneg (length l2 - 1)) as Ha2.
    assert (Hstep : Qle (Qabs (fl (v1 + v2)%Q - (v1 + v2))) op_error).
    { apply rounding_step; [done|].
      apply Qabs_Qle_condition in IH1, IH2, HS1, HS2.
      apply Qabs_Qle_condition. unfold op_error in *.
      revert IH1 IH2 HS1 HS2 EN1 EN2 HN Ha1 Ha2.
      generalize (Qnat (length l1 - 1)), (Qnat (length l2 - 1)),
        (Qnat (length l1)), (Qnat (length l2)), (Qsum l1), (Qsum l2).
      intros a1 a2 N1 N2 S1 S2. intros. split; lra. }
    apply Qabs_Qle_condition in IH1, IH2, Hstep.
    apply Qabs_Qle_condition. unfold op_error in *.
    revert IH1 IH2 Hstep ES EN Ha1 Ha2.
    generalize (Qnat (length l1 - 1)), (Qnat (length l2 - 1)),
      (Qnat (length l - 1)), (Qsum l1), (Qsum l2), (Qsum l),
      (fl (v1 + v2)%Q).
    intros a1 a2 a S1 S2 S f. intros. split; lra.
Qed.

Lemma length_edges (route : list nat) : length (edges route) = length route - 1.
Proof.
  unfold edges, but_last. rewrite length_zip, length_take.
  destruct route; simpl; lia.
Qed.

Lemma elem_of_edges (route : list nat) (a b : nat) :
  (a, b) ∈ edges route -> a ∈ route /\ b ∈ route.
Proof.
  intros H. unfold edges, but_last in H. split.
  - apply elem_of_zip_l in H. by apply (subseteq_take _ _ _ H).
  - apply elem_of_zip_r in H. destruct route; [done|]. by right.
Qed.

(** The entries of the matrix between nodes of the route are at most
    1000 in size. *)
Lemma edges_bounded (route : list nat) (D : distmat) :
  (forall a b, a ∈ route -> b ∈ route -> Qle (Qabs (D a b)) 1000) ->
  Forall (fun d => Qle (Qabs d) 1000) (map (fun e => D e.1 e.2) (edges route)).
Proof.
  intros HD. apply Forall_fmap, Forall_forall. intros [a b] He.
  apply elem_of_edges in He as [Ha Hb]. by apply HD.
Qed.

(** The three roundings of [two_opt_delta]. *)
Lemma fl_two_opt_delta_error (fl : Q -> Q) (route : list nat) (i k : nat)
    (D : distmat) :
  binary64_rounding fl ->
  1 <= i -> i < k -> k <= length route - 2 ->
  (forall a b, a ∈ route -> b ∈ route -> Qle (Qabs (D a b)) 1000) ->
  Qle (Qabs (fl_two_opt_delta fl route i k D - two_opt_delta route i k D))
      (3 * op_error).
Proof.
  intros Hfl Hi Hik Hk HD. unfold fl_two_opt_delta, two_opt_delta.
  destruct ((i <? 1) || (length route - 1 <=? k) || (k <=? i)).
  { by vm_compute. }
  cbv zeta.
  assert (Hin : forall j, j < length route -> route !!! j ∈ route)
    by (intros j Hj; by apply list_elem_of_lookup_total_2).
  pose proof (Hin (i - 1) ltac:(lia)) as Ia.
  pose proof (Hin i ltac:(lia)) as Ib.
  pose proof (Hin k ltac:(lia)) as Ic.
  pose proof (Hin (k + 1) ltac:(lia)) as Id.
  revert Ia Ib Ic Id.
  generalize (route !!! (i - 1)), (route !!! i), (route !!! k),
    (route !!! (k + 1)).
  intros a b c d Ia Ib Ic Id.
  pose proof (HD a b Ia Ib) as Hab. pose proof (HD c d Ic Id) as Hcd.
  pose proof (HD a c Ia Ic) as Hac. pose proof (HD b d Ib Id) as Hbd.
  apply Qabs_Qle_condition in Hab, Hcd, Hac, Hbd.
  assert (H1 : Qle (Qabs (fl (D a b + D c d)%Q - (D a b + D c d))) op_error).
  { apply rounding_step; [done|]. apply Qabs_Qle_condition. split; lra. }
  assert (H2 : Qle (Qabs (fl (D a c + D b d)%Q - (D a c + D b d))) op_error).
  { apply rounding_step; [done|]. apply Qabs_Qle_condition. split; lra. }
  set (before := fl (D a b + D c d)%Q) in *.
  set (after := fl (D a c + D b d)%Q) in *.
  apply Qabs_Qle_condition in H1, H2.
  assert (H3 : Qle (Qabs (fl (after - before)%Q - (after - before))) op_error).
  { apply rounding_step; [done|]. apply Qabs_Qle_condition.
    unfold op_error in *. split; lra. }
  apply Qabs_Qle_condition in H3. apply Qabs_Qle_condition.
  unfold op_error in *.
  revert H1 H2 H3. generalize (fl (after - before)%Q).
  clearbody before after. intros; split; lra.
Qed.

(** C7 (as amended).  In binary64 arithmetic, for every route of at most
    1000 entries, every symmetric distance matrix whose entries between
    the nodes of the route do not exceed 1000 in size, and all indices with
    1 <= i < k <= len(route) - 2, both route distances are computed, and
    the delta that [two_opt_delta] computes from the four boundary edges
    equals the distance of the route with route[i..k] reversed minus the
    distance of the original route within 1e-6, whatever the order in
    which [np.sum] adds the edges, with the difference taken exactly or
    rounded. *)
Theorem two_opt_delta_rounded (fl : Q -> Q) (route : list nat) (i k : nat)
    (D : distmat) :
  binary64_rounding fl ->
  symmetric D ->
  1 <= i -> i < k -> k <= length route - 2 ->
  length route <= 1000 ->
  (forall a b, a ∈ route -> b ∈ route -> Qle (Qabs (D a b)) 1000) ->
  (exists v, fl_route_distance fl route D v) /\
  (exists v, fl_route_distance fl (apply_two_opt route i k) D v) /\
  forall v_old v_new,
    fl_route_distance fl route D v_old ->
    fl_route_distance fl (apply_two_opt route i k) D v_new ->
    Qle (Qabs (fl_two_opt_delta fl route i k D - (v_new - v_old)))
        (1 # 1000000) /\
    Qle (Qabs (fl_two_opt_delta fl route i k D - fl (v_new - v_old)%Q))
        (1 # 1000000).
Proof.
  intros Hfl Hsym Hi Hik Hk Hlen HD.
  split; [eexists; apply fl_route_distance_left_sum|].
  split; [eexists; apply fl_route_distance_left_sum|].
  intros v_old v_new Hold Hnew.
  pose proof (apply_two_opt_perm route i k ltac:(lia)) as Hperm.
  pose proof (Permutation_length Hperm) as Hlen'.
  pose proof (two_opt_delta_exact route i k D Hsym Hi Hik Hk) as Hex.
  pose proof (fl_two_opt_delta_error fl route i k D Hfl Hi Hik Hk HD)
    as Hdelta.
  unfold fl_route_distance in Hold, Hnew. unfold route_distance in Hex.
  rewrite Hlen' in Hnew, Hex.
  destruct (length route <? 2) eqn:E2; [apply Nat.ltb_lt in E2; lia|].
  set (es := map (fun e => D e.1 e.2) (edges route)) in *.
  set (es' := map (fun e => D e.1 e.2) (edges (apply_two_opt route i k))) in *.
  assert (Hes : length es = length route - 1)
    by (unfold es; by rewrite length_map, length_edges).
  assert (Hes' : length es' = length route - 1)
    by (unfold es'; by rewrite length_map, length_edges, Hlen').
  assert (Hall : Forall (fun d => Qle (Qabs d) 1000) es)
    by (by apply edges_bounded).
  assert (Hall' : Forall (fun d => Qle (Qabs d) 1000) es').
  { apply edges_bounded. intros a b Ha Hb.
    apply HD; by rewrite <- Hperm. }
  assert (Hne : es <> []) by (intros E; rewrite E in Hes; simpl in Hes; lia).
  assert (Hne' : es' <> [])
    by (intros E; rewrite E in Hes'; simpl in Hes'; lia).
  pose proof (np_sum_error fl es v_old Hfl Hold Hne ltac:(lia) Hall) as Eold.
  pose proof (np_sum_error fl es' v_new Hfl Hnew Hne' ltac:(lia) Hall')
    as Enew.
  pose proof (Qsum_abs_bound es 1000 Hall) as Sold.
  pose proof (Qsum_abs_bound es' 1000 Hall') as Snew.
  assert (Hn : Qle (Qnat (length es - 1)) 998)
    by (apply (Qnat_le _ 998); lia).
  assert (Hn' : Qle (Qnat (length es' - 1)) 998)
    by (apply (Qnat_le _ 998); lia).
  assert (HN : Qle (Qnat (length es)) 999) by (apply (Qnat_le _ 999); lia).
  assert (HN' : Qle (Qnat (length es')) 999) by (apply (Qnat_le _ 999); lia).
  pose proof (Qnat_nonneg (length es - 1)) as Hp.
  pose proof (Qnat_nonneg (length es' - 1)) as Hp'.
  pose proof (Qnat_nonneg (length es)) as HP.
  pose proof (Qnat_nonneg (length es')) as HP'.
  apply Qabs_Qle_condition in Eold, Enew, Sold, Snew, Hdelta.
  assert (Hstep : Qle (Qabs (fl (v_new - v_old)%Q - (v_new - v_old)))
                      op_error).
  { apply rounding_step; [done|]. apply Qabs_Qle_condition.
    unfold op_error in *.
    revert Eold Enew Sold Snew Hn Hn' HN HN' Hp Hp' HP HP'.
    generalize (Qnat (length es - 1)), (Qnat (length es' - 1)),
      (Qnat (length es)), (Qnat (length es')), (Qsum es), (Qsum es').
    intros; split; lra. }
  apply Qabs_Qle_condition in Hstep.
  unfold op_error in *.
  revert Eold Enew Hdelta Hex Hstep Hn Hn' Hp Hp'.
  generalize (Qnat (length es - 1)), (Qnat (length es' - 1)),
    (Qsum es), (Qsum es'), (fl (v_new - v_old)%Q),
    (fl_two_opt_delta fl route i k D), (two_opt_delta route i k D).
  intros n n' S S' f df d. intros.
  split; apply Qabs_Qle_condition; split; lra.
Qed.

Lemma far_dist_symmetric : symmetric far_dist.
Proof.
  intros a b. unfold far_dist.
  do 5 (destruct a as [|a]; [do 5 (destruct b as [|b]; [reflexivity|]);
                             reflexivity|]).
  do 5 (destruct b as [|b]; [reflexivity|]). reflexivity.
Qed.

Lemma eighths_app (l1 l2 : list Q) :
  eighths (l1 ++ l2) = (eighths l1 + eighths l2)%Z.
Proof. induction l1 as [|d l1 IH]; simpl; [done|]. rewrite IH. lia. Qed.

Lemma larges_app (l1 l2 : list Q) :
  larges (l1 ++ l2) = (larges l1 + larges l2)%Z.
Proof. induction l1 as [|d l1 IH]; simpl; [done|]. rewrite IH. lia. Qed.

Lemma eighths_perm (l l' : list Q) : l ≡ₚ l' -> eighths l = eighths l'.
Proof.
  induction 1 as [|a l l' _ IH|a b l|l l' l'' _ IH1 _ IH2]; simpl; lia.
Qed.

Lemma larges_perm (l l' : list Q) : l ≡ₚ l' -> larges l = larges l'.
Proof.
  induction 1 as [|a l l' _ IH|a b l|l l' l'' _ IH1 _ IH2]; simpl; lia.
Qed.

Lemma eighths_larges_nonneg (l : list Q) :
  Forall (fun d => d ∈ [1 # 8; 1 # 2; 10000000000000000]%Q) l ->
  (0 <= eighths l)%Z /\ (0 <= larges l)%Z.
Proof.
  induction 1 as [|d l Hd _ IH]; [simpl; lia|].
  set_unfold in Hd. destruct Hd as [->|[->|[->|[]]]].
  - change (eighths ((1 # 8)%Q :: l)) with (1 + eighths l)%Z.
    change (larges ((1 # 8)%Q :: l)) with (0 + larges l)%Z. lia.
  - change (eighths ((1 # 2)%Q :: l)) with (4 + eighths l)%Z.
    change (larges ((1 # 2)%Q :: l)) with (0 + larges l)%Z. lia.
  - change (eighths (10000000000000000%Q :: l)) with (0 + eighths l)%Z.
    change (larges (10000000000000000%Q :: l)) with (1 + larges l)%Z. lia.
Qed.

(** In whatever order they are added, entries of 1/8 and 1/2 that sum up
    to less than 1 vanish beside one entry of 1e16, and add up exactly
    without it. *)
Lemma np_sum_far (l : list Q) (v : Q) :
  np_sum round64 l v ->
  Forall (fun d => d ∈ [1 # 8; 1 # 2; 10000000000000000]%Q) l ->
  (eighths l <= 7)%Z -> (larges l <= 1)%Z ->
  v = if (larges l =? 1)%Z then 10000000000000000%Q
      else Qred (eighths l # 8).
Proof.
  induction 1 as [|d|l l1 l2 v1 v2 Hl1 Hl2 Hp _ IH1 _ IH2];
    intros Hall Hj Hb.
  - reflexivity.
  - apply Forall_cons_1 in Hall as [Hall _].
    apply elem_of_cons in Hall as [->|Hall]; [reflexivity|].
    apply elem_of_cons in Hall as [->|Hall]; [reflexivity|].
    apply elem_of_cons in Hall as [->|Hall]; [reflexivity|].
    by apply elem_of_nil in Hall.
  - rewrite (eighths_perm _ _ Hp), eighths_app in Hj |- *.
    rewrite (larges_perm _ _ Hp), larges_app in Hb |- *.
    rewrite Hp in Hall. apply Forall_app in Hall as [Hall1 Hall2].
    destruct (eighths_larges_nonneg l1 Hall1) as [Hj1 Hb1].
    destruct (eighths_larges_nonneg l2 Hall2) as [Hj2 Hb2].
    rewrite (IH1 Hall1) by lia. rewrite (IH2 Hall2) by lia.
    clear IH1 IH2 Hall1 Hall2 Hp Hl1 Hl2.
    revert Hj Hb Hj1 Hj2 Hb1 Hb2.
    generalize (eighths l1), (eighths l2), (larges l1), (larges l2).
    intros j1 j2 b1 b2 Hj Hb Hj1 Hj2 Hb1 Hb2.
    assert (Hc1 : j1 ∈ [0; 1; 2; 3; 4; 5; 6; 7]%Z)
      by (set_unfold; lia).
    assert (Hc2 : j2 ∈ [0; 1; 2; 3; 4; 5; 6; 7]%Z)
      by (set_unfold; lia).
    assert (Hd1 : b1 ∈ [0; 1]%Z) by (set_unfold; lia).
    assert (Hd2 : b2 ∈ [0; 1]%Z) by (set_unfold; lia).
    set_unfold in Hc1. set_unfold in Hc2. set_unfold in Hd1. set_unfold in Hd2.
    destruct Hd1 as [->|[->|[]]], Hd2 as [->|[->|[]]]; try lia;
      destruct Hc1 as [->|[->|[->|[->|[->|[->|[->|[->|[]]]]]]]]];
      destruct Hc2 as [->|[->|[->|[->|[->|[->|[->|[->|[]]]]]]]]];
      try lia; vm_compute; reflexivity.
Qed.

Lemma line_route_bounded (a b : nat) :
  a ∈ line_route -> b ∈ line_route -> Qle (Qabs (line_dist a b)) 1000.
Proof.
  intros Ha Hb.
  assert (Ha' : a <= 3) by (unfold line_route in Ha; set_unfold; lia).
  assert (Hb' : b <= 3) by (unfold line_route in Hb; set_unfold; lia).
  unfold line_dist. apply Qabs_Qle_condition.
  change 1000%Q with (inject_Z 1000).
  change (- inject_Z 1000)%Q with (inject_Z (-1000)).
  rewrite <- !Zle_Qle. lia.
Qed.

Lemma two_opt_delta_rounded_witness :
  binary64_rounding round64 /\
  symmetric line_dist /\
  1 <= 1 /\ 1 < 2 /\ 2 <= length line_route - 2 /\
  length line_route <= 1000 /\
  (forall a b, a ∈ line_route -> b ∈ line_route ->
     Qle (Qabs (line_dist a b)) 1000) /\
  (exists v, fl_route_distance round64 line_route line_dist v) /\
  (exists v, fl_route_distance round64 (apply_two_opt line_route 1 2)
               line_dist v) /\
  forall v_old v_new,
    fl_route_distance round64 line_route line_dist v_old ->
    fl_route_distance round64 (apply_two_opt line_route 1 2) line_dist v_new ->
    Qle (Qabs (fl_two_opt_delta round64 line_route 1 2 line_dist
               - (v_new - v_old)))
        (1 # 1000000) /\
    Qle (Qabs (fl_two_opt_delta round64 line_route 1 2 line_dist
               - round64 (v_new - v_old)%Q))
        (1 # 1000000).
Proof.
  split; [exact round64_rounding|].
  split; [exact line_dist_symmetric|].
  split; [lia|]. split; [lia|]. split; [simpl; lia|]. split; [simpl; lia|].
  split; [exact line_route_bounded|].
  apply (two_opt_delta_rounded round64 line_route 1 2 line_dist
           round64_rounding line_dist_symmetric);
    [lia | lia | simpl; lia | simpl; lia | exact line_route_bounded].
Defined.

(** C7 as stated does not hold in binary64.  On [far_route] the move
    (1, 2) trades the edges 0-1 and 2-3, of lengths 1/2 and 1/8, for the
    edges 0-2 and 1-3, of length 1/8 each: the delta is -3/8, computed
    exactly.  Both routes keep the edge of length 1e16, beside which the
    short edges are rounded away (doubles around 1e16 are 2 apart): both
    distances are 1e16, in whatever order [np.sum] adds, and their
    difference is 0, not -3/8. *)
Lemma two_opt_delta_far_counterexample :
  symmetric far_dist /\
  Forall (fun d => round64 d = d) [0; 1 # 8; 1 # 2; 10000000000000000]%Q /\
  (1 <= 1 /\ 1 < 2 /\ 2 <= length far_route - 2) /\
  fl_two_opt_delta round64 far_route 1 2 far_dist = (-3 # 8)%Q /\
  fl_route_distance_left round64 far_route far_dist
  = 10000000000000000%Q /\
  fl_route_distance_left round64 (apply_two_opt far_route 1 2) far_dist
  = 10000000000000000%Q /\
  forall v_old v_new,
    fl_route_distance round64 far_route far_dist v_old ->
    fl_route_distance round64 (apply_two_opt far_route 1 2) far_dist v_new ->
    ~ Qle (Qabs (fl_two_opt_delta round64 far_route 1 2 far_dist
                 - (v_new - v_old)))
          (1 # 1000000).
Proof.
  split; [exact far_dist_symmetric|].
  split; [repeat constructor|].
  split; [simpl; lia|].
  split; [vm_compute; reflexivity|].
  split; [vm_compute; reflexivity|].
  split; [vm_compute; reflexivity|].
  intros v_old v_new Hold Hnew.
  apply np_sum_far in Hold;
    [|repeat constructor; set_solver | vm_compute; discriminate
     | vm_compute; discriminate].
  apply np_sum_far in Hnew;
    [|repeat constructor; set_solver | vm_compute; discriminate
     | vm_compute; discriminate].
  rewrite Hold, Hnew. vm_compute. intros H. by apply H.
Qed.


(** ** The relocate pass *)

Lemma elem_of_relocate_moves (routes : list (list nat))
    (instance : VRPInstance) (D : distmat) (g : Q) (ra ia rb jb : nat) :
  (g, (ra, ia, rb, jb)) ∈ relocate_moves routes instance D ->
  ra < length routes /\ 1 <= ia < length (routes !!! ra) - 1 /\
  rb < length routes /\ 1 <= jb < length (routes !!! rb) /\
  (ra = rb -> 3 < length (routes !!! ra) /\ jb <> ia /\ jb <> ia + 1) /\
  (ra <> rb ->
   (route_demand (routes !!! rb) (all_nodes instance)
    + demand (node_at (all_nodes instance) ((routes !!! ra) !!! ia))
    <= vehicle_capacity instance)%Z).
Proof.
  unfold relocate_moves.
  intros H. apply list_elem_of_bind in H as (ra' & H & Hra).
  apply list_elem_of_bind in H as (ia' & H & Hia).
  apply list_elem_of_bind in H as (rb' & H & Hrb).
  apply elem_of_range in Hra, Hia, Hrb.
  destruct ((ra' =? rb') && (length (routes !!! ra') <=? 3)) eqn:E1;
    [by apply elem_of_nil in H|].
  destruct (negb (ra' =? rb')
            && (vehicle_capacity instance
                <? route_demand (routes !!! rb') (all_nodes instance)
                   + demand (node_at (all_nodes instance)
                                     ((routes !!! ra') !!! ia')))%Z) eqn:E2;
    [by apply elem_of_nil in H|].
  apply list_elem_of_bind in H as (jb' & H & Hjb).
  apply elem_of_range in Hjb.
  destruct ((ra' =? rb') && ((jb' =? ia') || (jb' =? ia' + 1))) eqn:E3;
    [by apply elem_of_nil in H|].
  apply list_elem_of_singleton in H. injection H as -> <- <- <- <-.
  repeat split; try lia.
  - destruct (Nat.eqb_spec ra rb) as [_|]; [|done].
    simpl in E1. apply Nat.leb_gt in E1. lia.
  - destruct (Nat.eqb_spec ra rb) as [_|]; [|done].
    simpl in E3. apply orb_false_iff in E3 as [E3 _].
    by apply Nat.eqb_neq in E3.
  - destruct (Nat.eqb_spec ra rb) as [_|]; [|done].
    simpl in E3. apply orb_false_iff in E3 as [_ E3].
    by apply Nat.eqb_neq in E3.
  - intros Hne. destruct (Nat.eqb_spec ra rb) as [|_]; [done|].
    simpl in E2. apply Z.ltb_ge in E2. exact E2.
Qed.

Lemma relocate_search_in (routes : list (list nat)) (instance : VRPInstance)
    (D : distmat) (g : Q) (mv : move) :
  relocate_search routes instance D = (g, Some mv) ->
  (g, mv) ∈ relocate_moves routes instance D.
Proof.
  unfold relocate_search.
  apply (foldl_invariant
           (fun st : Q * option move =>
              st = (g, Some mv) ->
              (g, mv) ∈ relocate_moves routes instance D)); [|done].
  intros st [g' mv'] Hin IH. destruct (Qltb _ _); [|exact IH].
  simpl. intros [= -> ->]. exact Hin.
Qed.

Lemma routes_of_insert (h : store) (rs : list loc) (i : nat) (l : loc)
    (v : list nat) :
  NoDup rs -> rs !! i = Some l -> l < length h ->
  routes_of (<[l := v]> h) rs = <[i := v]> (routes_of h rs).
Proof.
  intros Hnd Hi Hl. unfold routes_of. apply list_eq. intros j.
  destruct (decide (j = i)) as [->|Hne].
  - rewrite list_lookup_insert_eq
      by (rewrite length_map; by eapply lookup_lt_Some).
    rewrite list_lookup_fmap, Hi. simpl. unfold deref.
    by rewrite list_lookup_insert_eq.
  - rewrite list_lookup_insert_ne by done.
    rewrite !list_lookup_fmap.
    destruct (rs !! j) as [l'|] eqn:Ej; [|done]. simpl. f_equal.
    unfold deref. rewrite list_lookup_insert_ne; [done|].
    intros ->. apply Hne. eapply NoDup_lookup; eauto.
Qed.

Lemma routes_of_lookup_total (h : store) (rs : list loc) (i : nat) :
  i < length rs -> routes_of h rs !!! i = deref h (rs !!! i).
Proof.
  intros Hi. unfold routes_of.
  destruct (lookup_lt_is_Some_2 rs i Hi) as [l Hl].
  rewrite (list_lookup_total_correct _ _ _ Hl).
  apply list_lookup_total_correct.
  by rewrite list_lookup_fmap, Hl.
Qed.

Lemma allocated_lookup (h : store) (rs : list loc) (i : nat) (l : loc) :
  allocated h rs -> rs !! i = Some l -> l < length h.
Proof. intros Hall Hi. eapply (Forall_lookup_1 _ _ _ _ Hall Hi). Qed.

Lemma relocate_keep_locs (rs : list loc) (routes : list (list nat)) :
  length routes = length rs ->
  map (fun lr : loc * list nat => if 2 <? length lr.2 then lr.1 else lr.1)
      (zip rs routes) = rs.
Proof.
  intros Hlen.
  rewrite (map_ext _ fst) by (intros [l r]; simpl; by destruct (2 <? _)).
  apply fst_zip. lia.
Qed.

(** On a solution whose routes are distinct cells, relocate changes the
    cells of the solution only, and the routes become
    [relocate_routes]. *)
Lemma relocate_best_improvement_spec (rs : list loc) (instance : VRPInstance)
    (D : distmat) (h : store) (rs' : list loc) (b : bool) (h' : store) :
  NoDup rs -> allocated h rs ->
  relocate_best_improvement rs instance D h = (rs', b, h') ->
  rs' = rs /\ length h' = length h /\
  routes_of h' rs = relocate_routes (routes_of h rs) instance D /\
  (forall l, l ∉ rs -> h' !! l = h !! l).
Proof.
  intros Hnd Hall Hrun.
  unfold relocate_best_improvement, bind at 1, read_all at 1 in Hrun.
  unfold relocate_routes.
  destruct (relocate_search (routes_of h rs) instance D) as [g [mv|]] eqn:Es.
  2:{ injection Hrun as <- <- <-. by repeat split. }
  destruct mv as [[[ra ia] rb] jb].
  destruct (Qltb relocate_eps g).
  2:{ injection Hrun as <- <- <-. by repeat split. }
  apply relocate_search_in, elem_of_relocate_moves in Es
    as (Hra & Hia & Hrb & Hjb & _).
  rewrite routes_of_length in Hra, Hrb.
  destruct (lookup_lt_is_Some_2 rs ra Hra) as [la Hla].
  destruct (lookup_lt_is_Some_2 rs rb Hrb) as [lb Hlb].
  pose proof (allocated_lookup h rs ra la Hall Hla) as Hla_h.
  pose proof (allocated_lookup h rs rb lb Hall Hlb) as Hlb_h.
  unfold bind, read, update, read_all, ret in Hrun.
  rewrite (list_lookup_total_correct _ _ _ Hla) in Hrun.
  rewrite (list_lookup_total_correct _ _ _ Hlb) in Hrun.
  injection Hrun as <- <- <-.
  set (h1 := <[la := delete ia (deref h la)]> h).
  set (h2 := <[lb := py_insert jb (deref h la !!! ia) (deref h1 lb)]> h1).
  assert (Hlen1 : length h1 = length h) by apply length_insert.
  assert (Hlen2 : length h2 = length h)
    by (unfold h2; by rewrite length_insert).
  split.
  { apply relocate_keep_locs. by rewrite routes_of_length. }
  split; [exact Hlen2|]. split.
  - unfold relocate_apply.
    rewrite !routes_of_lookup_total by (rewrite ?length_insert; done).
    rewrite (list_lookup_total_correct _ _ _ Hla).
    unfold h2. rewrite (routes_of_insert h1 rs rb lb) by (done || lia).
    unfold h1 at 2. rewrite (routes_of_insert h rs ra la) by done.
    f_equal. f_equal.
    rewrite <- (routes_of_insert h rs ra la) by done. fold h1.
    rewrite routes_of_lookup_total by done.
    by rewrite (list_lookup_total_correct _ _ _ Hlb).
  - intros l Hl. unfold h2, h1.
    rewrite !list_lookup_insert_ne; [done|..].
    + intros ->. apply Hl. by eapply list_elem_of_lookup_2.
    + intros ->. apply Hl. by eapply list_elem_of_lookup_2.
Qed.

(** ** Visits and loads under the operators *)

Lemma concat_insert_perm {A} (ls : list (list A)) (i : nat) (x : list A) :
  ls !! i = Some x -> concat ls ≡ₚ x ++ concat (<[i := []]> ls).
Proof.
  revert i. induction ls as [|y ls IH]; intros [|i] Hi; try done.
  - injection Hi as ->. done.
  - simpl. rewrite (IH i Hi).
    rewrite !app_assoc. f_equiv. apply Permutation_app_comm.
Qed.

Lemma concat_replace_perm {A} (ls : list (list A)) (i : nat) (x y : list A) :
  ls !! i = Some x ->
  concat (<[i := y]> ls) ≡ₚ y ++ concat (<[i := []]> ls).
Proof.
  intros Hi.
  rewrite (concat_insert_perm (<[i := y]> ls) i y).
  - by rewrite list_insert_insert_eq.
  - apply list_lookup_insert_eq. by eapply lookup_lt_Some.
Qed.

Lemma py_insert_perm (j c : nat) (l : list nat) : py_insert j c l ≡ₚ c :: l.
Proof.
  unfold py_insert. rewrite <- Permutation_middle.
  by rewrite take_drop.
Qed.

Lemma relocate_apply_perm (routes : list (list nat)) (ra ia rb jb : nat) :
  ra < length routes -> ia < length (routes !!! ra) -> rb < length routes ->
  concat (relocate_apply routes (ra, ia, rb, jb)) ≡ₚ concat routes.
Proof.
  intros Hra Hia Hrb. unfold relocate_apply.
  destruct (lookup_lt_is_Some_2 routes ra Hra) as [rA HrA].
  rewrite (list_lookup_total_correct _ _ _ HrA) in *.
  destruct (lookup_lt_is_Some_2 rA ia Hia) as [c Hc].
  rewrite (list_lookup_total_correct _ _ _ Hc).
  set (routes1 := <[ra := delete ia rA]> routes).
  assert (Hrb1 : rb < length routes1)
    by (unfold routes1; by rewrite length_insert).
  destruct (lookup_lt_is_Some_2 routes1 rb Hrb1) as [rB HrB].
  rewrite (list_lookup_total_correct _ _ _ HrB).
  rewrite (concat_replace_perm routes1 rb rB _ HrB).
  rewrite py_insert_perm. simpl.
  rewrite <- (concat_insert_perm routes1 rb rB HrB).
  unfold routes1. rewrite (concat_replace_perm routes ra rA _ HrA).
  rewrite (concat_insert_perm routes ra rA HrA).
  rewrite (delete_Permutation rA ia c Hc) at 2. done.
Qed.

Lemma relocate_routes_perm (routes : list (list nat)) (instance : VRPInstance)
    (D : distmat) :
  concat (relocate_routes routes instance D) ≡ₚ concat routes.
Proof.
  unfold relocate_routes.
  destruct (relocate_search routes instance D) as [g [mv|]] eqn:Es; [|done].
  destruct (Qltb relocate_eps g); [|done].
  destruct mv as [[[ra ia] rb] jb].
  apply relocate_search_in, elem_of_relocate_moves in Es
    as (Hra & Hia & Hrb & Hjb & _).
  apply relocate_apply_perm; lia.
Qed.

Lemma two_opt_routes_perm (D : distmat) (routes : list (list nat)) :
  concat (map (two_opt_route D) routes) ≡ₚ concat routes.
Proof.
  induction routes as [|r routes IH]; [done|].
  simpl. by rewrite IH, two_opt_route_perm.
Qed.

Lemma two_opt_iter_perm (D : distmat) (m : nat) (routes : list (list nat)) :
  concat (Nat.iter m (map (two_opt_route D)) routes) ≡ₚ concat routes.
Proof.
  induction m as [|m IH]; [done|].
  simpl. by rewrite two_opt_routes_perm.
Qed.

Lemma visits_perm (c : nat) (routes routes' : list (list nat)) :
  concat routes' ≡ₚ concat routes -> visits c routes' = visits c routes.
Proof. intros Hp. unfold visits. by rewrite Hp. Qed.

Lemma partition_ok_perm (N : nat) (routes routes' : list (list nat)) :
  concat routes' ≡ₚ concat routes ->
  partition_ok N routes -> partition_ok N routes'.
Proof.
  intros Hp Hok c Hc. rewrite (visits_perm c routes routes' Hp). by apply Hok.
Qed.

(** *** Loads *)

Lemma route_demand_cons (c : nat) (r : list nat) (nodes : list Node) :
  route_demand (c :: r) nodes = (load_of nodes c + route_demand r nodes)%Z.
Proof.
  unfold route_demand, load_of. rewrite filter_cons.
  destruct (decide (c <> 0)), (decide (c = 0)); simpl; try done; lia.
Qed.

Lemma route_demand_app (r1 r2 : list nat) (nodes : list Node) :
  route_demand (r1 ++ r2) nodes
  = (route_demand r1 nodes + route_demand r2 nodes)%Z.
Proof.
  induction r1 as [|c r1 IH]; [done|].
  simpl. rewrite !route_demand_cons, IH. lia.
Qed.

Lemma route_demand_perm (r r' : list nat) (nodes : list Node) :
  r ≡ₚ r' -> route_demand r nodes = route_demand r' nodes.
Proof.
  induction 1 as [|c r r' _ IH|c d r|r r' r'' _ IH1 _ IH2].
  - done.
  - by rewrite !route_demand_cons, IH.
  - rewrite !route_demand_cons. lia.
  - by rewrite IH1.
Qed.

Lemma load_of_nonneg (instance : VRPInstance) (c : nat) :
  demands_nonneg instance -> (0 <= load_of (all_nodes instance) c)%Z.
Proof.
  intros Hnn. unfold load_of. destruct (decide (c = 0)); [done|].
  destruct c as [|c]; [done|].
  unfold node_at, all_nodes. simpl.
  destruct (customers instance !! c) as [nd|] eqn:E; simpl; [|done].
  eapply (Forall_lookup_1 _ _ _ _ Hnn E).
Qed.

Lemma two_opt_routes_capacity (instance : VRPInstance) (D : distmat)
    (routes : list (list nat)) :
  capacity_ok instance routes ->
  capacity_ok instance (map (two_opt_route D) routes).
Proof.
  unfold capacity_ok. intros Hok. apply Forall_fmap.
  eapply Forall_impl; [exact Hok|]. intros r Hr. simpl.
  by rewrite (route_demand_perm _ _ _ (two_opt_route_perm D r)).
Qed.

Lemma two_opt_iter_capacity (instance : VRPInstance) (D : distmat) (m : nat)
    (routes : list (list nat)) :
  capacity_ok instance routes ->
  capacity_ok instance (Nat.iter m (map (two_opt_route D)) routes).
Proof.
  intros Hok. induction m as [|m IH]; [done|].
  simpl. by apply two_opt_routes_capacity.
Qed.

Lemma relocate_routes_capacity (instance : VRPInstance) (D : distmat)
    (routes : list (list nat)) :
  demands_nonneg instance ->
  capacity_ok instance routes ->
  capacity_ok instance (relocate_routes routes instance D).
Proof.
  intros Hnn Hok. unfold relocate_routes.
  destruct (relocate_search routes instance D) as [g [mv|]] eqn:Es; [|done].
  destruct (Qltb relocate_eps g); [|done].
  destruct mv as [[[ra ia] rb] jb].
  apply relocate_search_in, elem_of_relocate_moves in Es
    as (Hra & Hia & Hrb & Hjb & Hsame & Hcap).
  unfold relocate_apply, capacity_ok in *.
  set (nodes := all_nodes instance) in *.
  destruct (lookup_lt_is_Some_2 routes ra Hra) as [rA HrA].
  rewrite (list_lookup_total_correct _ _ _ HrA) in *.
  destruct (lookup_lt_is_Some_2 rA ia) as [c Hc]; [lia|].
  rewrite (list_lookup_total_correct _ _ _ Hc) in *.
  pose proof (Forall_lookup_1 _ _ _ _ Hok HrA) as HloadA. simpl in HloadA.
  pose proof (route_demand_perm _ _ nodes (delete_Permutation rA ia c Hc))
    as HdelA.
  rewrite route_demand_cons in HdelA.
  pose proof (load_of_nonneg instance c Hnn) as Hc0. fold nodes in Hc0.
  assert (Hok1 : Forall (fun r => (route_demand r nodes
                                   <= vehicle_capacity instance)%Z)
                        (<[ra := delete ia rA]> routes)).
  { apply Forall_insert; [done|]. lia. }
  apply Forall_insert; [done|].
  rewrite (route_demand_perm _ _ nodes (py_insert_perm jb c _)).
  rewrite route_demand_cons.
  destruct (decide (ra = rb)) as [<-|Hne].
  - rewrite list_lookup_total_insert_eq by done. lia.
  - rewrite list_lookup_total_insert_ne by done.
    specialize (Hcap Hne).
    destruct (lookup_lt_is_Some_2 routes rb Hrb) as [rB HrB].
    rewrite (list_lookup_total_correct _ _ _ HrB) in *.
    pose proof (Forall_lookup_1 _ _ _ _ Hok HrB) as HloadB. simpl in HloadB.
    unfold load_of. destruct (decide (c = 0)); lia.
Qed.

(** *** What [partition_ok] says, route by route *)

Lemma visits_cons (c : nat) (r : list nat) (routes : list (list nat)) :
  visits c (r :: routes)
  = length (filter (fun i => i = c) r) + visits c routes.
Proof. unfold visits. simpl. by rewrite filter_app, length_app. Qed.

Lemma filter_eq_nil_not_in (c : nat) (r : list nat) :
  length (filter (fun i => i = c) r) = 0 -> c ∉ r.
Proof.
  intros Hlen Hin.
  assert (Hc : c ∈ filter (fun i => i = c) r)
    by (by apply list_elem_of_filter).
  destruct (filter _ r); [by apply elem_of_nil in Hc | done].
Qed.

Lemma visits_zero_not_in (c : nat) (routes : list (list nat)) :
  visits c routes = 0 ->
  forall j r, routes !! j = Some r -> c ∉ r.
Proof.
  induction routes as [|r0 routes IH]; intros Hv j r Hj; [done|].
  rewrite visits_cons in Hv. destruct j as [|j]; simpl in Hj.
  - injection Hj as <-. apply filter_eq_nil_not_in. lia.
  - eapply IH; [lia | done].
Qed.

(** A customer visited once by a solution is visited by exactly one of
    its routes, once. *)
Lemma visits_one_route (c : nat) (routes : list (list nat)) :
  visits c routes = 1 ->
  exists i r,
    routes !! i = Some r /\ length (filter (fun k => k = c) r) = 1 /\
    forall j r', routes !! j = Some r' -> j <> i -> c ∉ r'.
Proof.
  induction routes as [|r0 routes IH]; intros Hv; [done|].
  rewrite visits_cons in Hv.
  destruct (length (filter (fun k => k = c) r0)) as [|[|n]] eqn:E0.
  - destruct IH as (i & r & Hi & Hone & Hrest); [lia|].
    exists (S i), r. split; [done|]. split; [done|].
    intros [|j] r' Hj Hne; simpl in Hj.
    + injection Hj as <-. by apply filter_eq_nil_not_in.
    + eapply Hrest; [done | lia].
  - exists 0, r0. split; [done|]. split; [done|].
    intros [|j] r' Hj Hne; [done|]. simpl in Hj.
    eapply visits_zero_not_in; [|done]. lia.
  - lia.
Qed.

Lemma partition_ok_one_route (N : nat) (routes : list (list nat)) :
  partition_ok N routes ->
  forall c, 1 <= c <= N ->
    exists i r,
      routes !! i = Some r /\ length (filter (fun k => k = c) r) = 1 /\
      forall j r', routes !! j = Some r' -> j <> i -> c ∉ r'.
Proof. intros Hok c Hc. apply visits_one_route. by apply Hok. Qed.

(** ** Simulated annealing *)

Lemma prefix_from_lookup (h h2 : store) :
  length h <= length h2 ->
  (forall l, l < length h -> h2 !! l = h !! l) ->
  exists ext, h2 = h ++ ext.
Proof.
  intros Hlen Hsame. exists (drop (length h) h2).
  rewrite <- (take_drop (length h) h2) at 1. f_equal.
  apply list_eq. intros l.
  destruct (decide (l < length h)) as [Hl|Hl].
  - rewrite lookup_take_lt by done. by apply Hsame.
  - rewrite lookup_take_ge by lia. symmetry. apply lookup_ge_None. lia.
Qed.

Lemma iter_kept (P : list (list nat) -> Prop) (f : list (list nat) -> list (list nat))
    (m : nat) (routes : list (list nat)) :
  (forall r, P r -> P (f r)) -> P routes -> P (Nat.iter m f routes).
Proof.
  intros Hf Hr. induction m as [|m IH]; [done|]. simpl. by apply Hf.
Qed.

Section AnnealingProofs.

Variable clock : nat -> Q.
Variable accept : nat -> Q -> Q -> bool.
Variable P : list (list nat) -> Prop.
Variable instance : VRPInstance.
Variable D : distmat.
Hypothesis P_kept : kept_by_operators P instance D.

(** The proposal of one turn: a copy of [cur], changed by one operator. *)
Lemma sa_proposal (iters : nat) (cur : list loc) (h : store)
    (tmp cand : list loc) (b : bool) (h1 h2 : store) :
  allocated h cur -> P (routes_of h cur) ->
  copy_routes cur h = (tmp, h1) ->
  (if iters mod 2 =? 0 then improve_two_opt_intra tmp D 1
   else relocate_best_improvement tmp instance D) h1 = (cand, b, h2) ->
  (exists ext, h2 = h ++ ext) /\ allocated h2 cand /\ P (routes_of h2 cand).
Proof.
  intros Hcur HP Hcopy Hop.
  rewrite (copy_routes_spec cur h Hcur) in Hcopy.
  injection Hcopy as <- <-.
  pose proof (allocated_seq h (routes_of h cur)) as Htmp.
  pose proof (routes_of_seq h (routes_of h cur)) as Hval.
  rewrite routes_of_length in Htmp, Hval.
  destruct P_kept as [HP2 HPr].
  destruct (iters mod 2 =? 0).
  - apply improve_two_opt_intra_spec in Hop
      as (m & ext & -> & Hcand & Hroutes); [|done].
    split; [|split; [done|]].
    + exists (routes_of h cur ++ ext). by rewrite app_assoc.
    + rewrite Hroutes, Hval. by apply iter_kept.
  - apply relocate_best_improvement_spec in Hop
      as (-> & Hlen & Hroutes & Hframe); [|apply NoDup_seq|done].
    split; [|split].
    + apply prefix_from_lookup.
      * rewrite Hlen, length_app. lia.
      * intros l Hl. rewrite Hframe.
        -- by apply lookup_app_l.
        -- rewrite elem_of_seq. lia.
    + unfold allocated in *. by rewrite Hlen.
    + rewrite Hroutes, Hval. by apply HPr.
Qed.

Lemma sa_iteration_inv (alpha c0 : Q) (h0 h h' : store) (st st' : sa_state) :
  sa_inv P instance D c0 h0 h st ->
  sa_iteration accept instance D alpha st h = (st', h') ->
  sa_inv P instance D c0 h0 h' st' /\ sa_iters st' = S (sa_iters st).
Proof.
  intros [[ext0 ->] Hba Hca Hbc Hble HbP HcP Hbf] Hrun.
  unfold sa_iteration, bind, read_all, ret in Hrun.
  destruct (copy_routes (sa_cur st) (h0 ++ ext0)) as [tmp h1] eqn:Ecopy.
  destruct ((if S (sa_iters st) mod 2 =? 0
             then improve_two_opt_intra tmp D 1
             else relocate_best_improvement tmp instance D) h1)
    as [[cand b] h2] eqn:Eop.
  destruct (sa_proposal _ _ _ _ _ _ _ _ Hca HcP Ecopy Eop)
    as ([ext2 ->] & Hcand & HcandP).
  cbn [fst snd] in Hrun.
  set (h2 := (h0 ++ ext0) ++ ext2) in *.
  assert (Hpre2 : exists ext, h2 = h0 ++ ext).
  { exists (ext0 ++ ext2). unfold h2. by rewrite app_assoc. }
  assert (Hba2 : allocated h2 (sa_best st)) by (by apply allocated_app_l).
  assert (Hca2 : allocated h2 (sa_cur st)) by (by apply allocated_app_l).
  assert (Hbr2 : routes_of h2 (sa_best st) = routes_of (h0 ++ ext0) (sa_best st))
    by (by apply routes_of_app_l).
  assert (Hcr2 : routes_of h2 (sa_cur st) = routes_of (h0 ++ ext0) (sa_cur st))
    by (by apply routes_of_app_l).
  destruct (Qle_bool _ 0 || accept _ _ _).
  - destruct (Qltb (total_cost (routes_of h2 cand) instance D)
                   (sa_best_cost st)) eqn:Ebetter.
    + rewrite (copy_routes_spec cand h2 Hcand) in Hrun.
      injection Hrun as <- <-. split; [|done].
      pose proof (allocated_seq h2 (routes_of h2 cand)) as Hnew.
      pose proof (routes_of_seq h2 (routes_of h2 cand)) as Hval.
      rewrite routes_of_length in Hnew, Hval.
      apply Qltb_lt in Ebetter.
      constructor; simpl.
      * destruct Hpre2 as [e ->]. eexists. by rewrite <- app_assoc.
      * done.
      * by apply allocated_app_l.
      * by rewrite Hval.
      * lra.
      * by rewrite Hval.
      * by rewrite routes_of_app_l.
      * apply Forall_forall. intros l Hl. apply elem_of_seq in Hl.
        destruct Hpre2 as [e He]. rewrite He, length_app in Hl. lia.
    + injection Hrun as <- <-. split; [|done].
      constructor; simpl; try done; by rewrite ?Hbr2.
  - injection Hrun as <- <-. split; [|done].
    constructor; simpl; try done; by rewrite ?Hbr2, ?Hcr2.
Qed.

Lemma sa_loop_inv (alpha c0 t_end : Q) (h0 : store) (fuel : nat) :
  forall (st : sa_state) (h : store) (best : list loc) (h' : store),
    sa_inv P instance D c0 h0 h st ->
    sa_loop clock accept fuel t_end instance D alpha st h = (Some best, h') ->
    exists st', sa_inv P instance D c0 h0 h' st' /\ best = sa_best st'.
Proof.
  induction fuel as [|fuel IH]; intros st h best h' Hinv Hrun; simpl in Hrun.
  - destruct (Qltb _ t_end); [discriminate|].
    injection Hrun as <- <-. by exists st.
  - destruct (Qltb _ t_end).
    + unfold bind at 1 in Hrun.
      destruct (sa_iteration accept instance D alpha st h) as [st1 h1] eqn:E.
      apply (sa_iteration_inv alpha c0 h0) in E as [Hinv1 _]; [|done].
      by eapply IH.
    + injection Hrun as <- <-. by exists st.
Qed.

(** Once a clock reading reaches the deadline the loop has ended: [n]
    turns of fuel suffice when the deadline is reached by the [n]-th
    reading from now. *)
Lemma sa_loop_ends (alpha t_end : Q) (n : nat) :
  forall (st : sa_state) (h : store),
    (t_end <= clock (S (sa_iters st + n)))%Q ->
    exists best h',
      sa_loop clock accept n t_end instance D alpha st h = (Some best, h').
Proof.
  induction n as [|n IH]; intros st h Hend; simpl.
  - rewrite Nat.add_0_r in Hend. apply Qltb_ge in Hend. rewrite Hend.
    by eexists _, _.
  - destruct (Qltb _ t_end); [|by eexists _, _].
    unfold bind at 1.
    destruct (sa_iteration accept instance D alpha st h) as [st1 h1] eqn:E.
    apply IH.
    assert (Hit : sa_iters st1 = S (sa_iters st)).
    { unfold sa_iteration, bind in E.
      repeat match type of E with
             | context [let (_, _) := ?m in _] => destruct m
             | context [if ?c then _ else _] => destruct c
             end; unfold ret in E; by injection E as <- <-. }
    rewrite Hit. by replace (S (sa_iters st) + n) with (sa_iters st + S n) by lia.
Qed.

(** The solution returned by annealing: newly allocated cells, no dearer
    than the solution passed in, and with every property the operators
    keep. *)
Lemma simulated_annealing_inv (fuel : nat) (rs : list loc)
    (time_budget_s T0 alpha : Q) (h : store) (best : list loc) (h' : store) :
  allocated h rs -> P (routes_of h rs) ->
  simulated_annealing clock accept fuel rs instance D time_budget_s T0 alpha h
  = (Some best, h') ->
  (exists ext, h' = h ++ ext) /\ allocated h' best /\
  Forall (fun l => length h <= l) best /\
  P (routes_of h' best) /\
  (total_cost (routes_of h' best) instance D
   <= total_cost (routes_of h rs) instance D)%Q.
Proof.
  intros Hrs HP Hrun. unfold simulated_annealing in Hrun.
  unfold bind at 1 in Hrun. rewrite (copy_routes_spec rs h Hrs) in Hrun.
  unfold bind at 1, read_all at 1 in Hrun.
  unfold bind at 1 in Hrun.
  set (h1 := h ++ routes_of h rs) in *.
  assert (Hrs1 : allocated h1 rs) by (by apply allocated_app_l).
  rewrite (copy_routes_spec rs h1 Hrs1) in Hrun.
  pose proof (allocated_seq h (routes_of h rs)) as Hb.
  pose proof (routes_of_seq h (routes_of h rs)) as Hbv.
  rewrite routes_of_length in Hb, Hbv. fold h1 in Hb, Hbv.
  pose proof (allocated_seq h1 (routes_of h1 rs)) as Hc.
  pose proof (routes_of_seq h1 (routes_of h1 rs)) as Hcv.
  rewrite routes_of_length in Hc, Hcv.
  assert (Hrv : routes_of h1 rs = routes_of h rs) by (by apply routes_of_app_l).
  apply (sa_loop_inv alpha (total_cost (routes_of h rs) instance D) _ h)
    in Hrun as (st' & [Hpre Hba _ Hbc Hble HbP _ Hbf] & ->).
  - rewrite <- Hbc. by repeat split.
  - constructor; simpl.
    + exists (routes_of h rs ++ routes_of h1 rs). unfold h1.
      by rewrite app_assoc.
    + by apply allocated_app_l.
    + done.
    + by rewrite routes_of_app_l.
    + rewrite Hbv. apply Qle_refl.
    + rewrite routes_of_app_l by done. by rewrite Hbv.
    + by rewrite Hcv, Hrv.
    + apply Forall_forall. intros l Hl. apply elem_of_seq in Hl. lia.
Qed.

End AnnealingProofs.

Lemma kept_trivially (instance : VRPInstance) (D : distmat) :
  kept_by_operators (fun _ => True) instance D.
Proof. by split. Qed.

(** C6.  For every input solution, instance, distance matrix and positive
    time budget, the solution returned by [simulated_annealing] costs at
    most what the input solution costs; and the call does return once a
    clock reading has reached the deadline (with [n] turns of fuel when
    the reading after [n] turns has). *)
Theorem simulated_annealing_no_worse (clock : nat -> Q)
    (accept : nat -> Q -> Q -> bool) (rs : list loc) (instance : VRPInstance)
    (D : distmat) (time_budget_s T0 alpha : Q) (h : store) :
  allocated h rs ->
  (0 < time_budget_s)%Q ->
  (forall fuel best h',
     simulated_annealing clock accept fuel rs instance D time_budget_s T0 alpha h
     = (Some best, h') ->
     Qle (total_cost (routes_of h' best) instance D)
         (total_cost (routes_of h rs) instance D)) /\
  (forall n,
     Qle (clock 0 + time_budget_s) (clock (S n)) ->
     exists best h',
       simulated_annealing clock accept n rs instance D time_budget_s T0 alpha h
       = (Some best, h')).
Proof.
  intros Hrs _. split.
  - intros fuel best h' Hrun.
    eapply (simulated_annealing_inv clock accept (fun _ => True)) in Hrun
      as (_ & _ & _ & _ & Hle); eauto using kept_trivially.
  - intros n Hend. unfold simulated_annealing, bind, read_all.
    destruct (copy_routes rs h) as [best h1].
    destruct (copy_routes rs h1) as [cur h2].
    by apply sa_loop_ends.
Qed.

Lemma simulated_annealing_no_worse_witness :
  allocated rect_store [0] /\ (0 < 3)%Q /\
  (forall fuel best h',
     simulated_annealing tick_clock never_accept fuel [0] rect_instance
       rect_dist 3 1 (995 # 1000) rect_store = (Some best, h') ->
     Qle (total_cost (routes_of h' best) rect_instance rect_dist)
         (total_cost (routes_of rect_store [0]) rect_instance rect_dist)) /\
  (forall n,
     Qle (tick_clock 0 + 3) (tick_clock (S n)) ->
     exists best h',
       simulated_annealing tick_clock never_accept n [0] rect_instance
         rect_dist 3 1 (995 # 1000) rect_store = (Some best, h')).
Proof.
  assert (H1 : allocated rect_store [0]).
  { repeat constructor. }
  assert (H2 : (0 < 3)%Q) by reflexivity.
  split; [exact H1|]. split; [exact H2|].
  exact (simulated_annealing_no_worse tick_clock never_accept [0]
           rect_instance rect_dist 3 1 (995 # 1000) rect_store H1 H2).
Defined.

(** C10.  With a time budget of zero or less (and a clock that does not
    run backwards between its first two readings) [simulated_annealing]
    performs no turn of its loop, whatever the fuel, even none: it makes
    its two copies of the input and returns the first.  The returned
    routes are equal to the input routes one by one, lie in cells that the
    input does not use, and cost the same; the input cells are
    untouched. *)
Theorem simulated_annealing_zero_budget (clock : nat -> Q)
    (accept : nat -> Q -> Q -> bool) (fuel : nat) (rs : list loc)
    (instance : VRPInstance) (D : distmat) (time_budget_s T0 alpha : Q)
    (h : store) :
  allocated h rs ->
  (time_budget_s <= 0)%Q ->
  Qle (clock 0) (clock 1) ->
  exists best h',
    simulated_annealing clock accept fuel rs instance D time_budget_s T0 alpha h
    = (Some best, h') /\
    h' = h ++ routes_of h rs ++ routes_of h rs /\
    routes_of h' best = routes_of h rs /\
    (forall l, l ∈ best -> l ∉ rs) /\ NoDup best /\
    routes_of h' rs = routes_of h rs /\
    total_cost (routes_of h' best) instance D
    = total_cost (routes_of h rs) instance D.
Proof.
  intros Hrs Hbudget Hclock.
  unfold simulated_annealing, bind, read_all.
  rewrite (copy_routes_spec rs h Hrs).
  set (h1 := h ++ routes_of h rs).
  assert (Hrs1 : allocated h1 rs) by (by apply allocated_app_l).
  rewrite (copy_routes_spec rs h1 Hrs1).
  assert (Hrv : routes_of h1 rs = routes_of h rs) by (by apply routes_of_app_l).
  assert (Hstop : Qltb (clock 1) (clock 0 + time_budget_s) = false).
  { apply Qltb_ge. lra. }
  assert (Hloop : forall st hh,
             sa_iters st = 0 ->
             sa_loop clock accept fuel (clock 0 + time_budget_s) instance D
                     alpha st hh = (Some (sa_best st), hh)).
  { intros st hh Hit. destruct fuel; simpl; by rewrite Hit, Hstop. }
  rewrite Hloop by done. simpl sa_best.
  pose proof (allocated_seq h (routes_of h rs)) as Hb.
  pose proof (routes_of_seq h (routes_of h rs)) as Hbv.
  rewrite routes_of_length in Hb, Hbv. fold h1 in Hb, Hbv.
  assert (Hbest : routes_of (h1 ++ routes_of h1 rs) (seq (length h) (length rs))
                  = routes_of h rs).
  { rewrite routes_of_app_l by done. exact Hbv. }
  eexists _, _. split; [reflexivity|].
  split; [rewrite Hrv; unfold h1; by rewrite <- app_assoc|].
  split; [exact Hbest|].
  split.
  { intros l Hl Hin. apply elem_of_seq in Hl.
    pose proof (proj1 (Forall_forall _ _) Hrs l Hin) as Hlt.
    simpl in Hlt. lia. }
  split; [apply NoDup_seq|].
  split; [|by rewrite Hbest].
  rewrite routes_of_app_l by done. exact Hrv.
Qed.

Lemma simulated_annealing_zero_budget_witness :
  allocated rect_store [0] /\ (0 <= 0)%Q /\ Qle (tick_clock 0) (tick_clock 1) /\
  exists best h',
    simulated_annealing tick_clock never_accept 0 [0] rect_instance rect_dist
      0 1 (995 # 1000) rect_store = (Some best, h') /\
    h' = rect_store ++ routes_of rect_store [0] ++ routes_of rect_store [0] /\
    routes_of h' best = routes_of rect_store [0] /\
    (forall l, l ∈ best -> l ∉ [0]) /\ NoDup best /\
    routes_of h' [0] = routes_of rect_store [0] /\
    total_cost (routes_of h' best) rect_instance rect_dist
    = total_cost (routes_of rect_store [0]) rect_instance rect_dist.
Proof.
  assert (H1 : allocated rect_store [0]).
  { repeat constructor. }
  assert (H2 : (0 <= 0)%Q) by discriminate.
  assert (H3 : Qle (tick_clock 0) (tick_clock 1)) by discriminate.
  split; [exact H1|]. split; [exact H2|]. split; [exact H3|].
  exact (simulated_annealing_zero_budget tick_clock never_accept 0 [0]
           rect_instance rect_dist 0 1 (995 # 1000) rect_store H1 H2 H3).
Defined.

(** ** Clarke-Wright *)

Lemma insert_by_perm {A} (before : A -> A -> bool) (a : A) (l : list A) :
  insert_by before a l ≡ₚ a :: l.
Proof.
  induction l as [|b l IH]; [done|].
  simpl. destruct (before a b); [done|].
  rewrite IH. apply perm_swap.
Qed.

Lemma stable_sort_perm {A} (before : A -> A -> bool) (l : list A) :
  stable_sort before l ≡ₚ l.
Proof.
  induction l as [|a l IH]; [done|].
  simpl. by rewrite insert_by_perm, IH.
Qed.

Lemma elem_of_savings_list (N : nat) (D : distmat) (p : saving) :
  p ∈ savings_list N D -> 1 <= p.1.2 <= N /\ 1 <= p.2 <= N.
Proof.
  unfold savings_list. intros H.
  apply list_elem_of_bind in H as (i & H & Hi).
  apply list_elem_of_bind in H as (j & H & Hj).
  apply elem_of_seq in Hi, Hj.
  destruct (i <? j); [|by apply elem_of_nil in H].
  apply list_elem_of_singleton in H. subst p. simpl. lia.
Qed.

Lemma elem_of_sort_savings (N : nat) (D : distmat) (p : saving) :
  p ∈ sort_savings (savings_list N D) -> 1 <= p.1.2 <= N /\ 1 <= p.2 <= N.
Proof.
  unfold sort_savings. rewrite stable_sort_perm. apply elem_of_savings_list.
Qed.

(** *** What one turn of the merge loop does *)

Lemma feasible_merge_true (instance : VRPInstance) (st : cw_state)
    (ri_idx rj_idx i j : nat) :
  feasible_merge instance st ri_idx rj_idx i j = Some true ->
  exists ri rj ei ej,
    cw_routes st !! ri_idx = Some ri /\ cw_routes st !! rj_idx = Some rj /\
    cw_ends st !! ri_idx = Some ei /\ cw_ends st !! rj_idx = Some ej /\
    ri <> [0; 0] /\ rj <> [0; 0] /\
    (route_demand ri (all_nodes instance) + route_demand rj (all_nodes instance)
     <= vehicle_capacity instance)%Z.
Proof.
  unfold feasible_merge. intros H.
  destruct (negb _ || negb _); [done|].
  destruct (cw_routes st !! ri_idx) as [ri|]; [|done].
  destruct (cw_routes st !! rj_idx) as [rj|]; [|done]. simpl in H.
  destruct (bool_decide (ri = [0; 0])) eqn:Ei; [done|].
  destruct (bool_decide (rj = [0; 0])) eqn:Ej; [done|]. simpl in H.
  destruct (cw_ends st !! ri_idx) as [ei|]; [|done].
  destruct (cw_ends st !! rj_idx) as [ej|]; [|done]. simpl in H.
  destruct (negb _ || negb _); [done|].
  destruct (vehicle_capacity instance <? _)%Z eqn:Ecap; [done|].
  apply Z.ltb_ge in Ecap.
  apply bool_decide_eq_false in Ei, Ej.
  by exists ri, rj, ei, ej.
Qed.

Lemma feasible_merge_total (instance : VRPInstance) (st : cw_state)
    (ri_idx rj_idx i j : nat) :
  (forall k, k < length (cw_routes st) -> is_Some (cw_ends st !! k)) ->
  is_Some (feasible_merge instance st ri_idx rj_idx i j).
Proof.
  intros Hends. unfold feasible_merge.
  destruct (Nat.ltb_spec ri_idx (length (cw_routes st))) as [Hi|Hi];
    [|by eexists].
  destruct (Nat.ltb_spec rj_idx (length (cw_routes st))) as [Hj|Hj];
    [|by eexists].
  simpl.
  destruct (lookup_lt_is_Some_2 _ _ Hi) as [ri ->].
  destruct (lookup_lt_is_Some_2 _ _ Hj) as [rj ->]. simpl.
  destruct (bool_decide (ri = [0; 0]) || bool_decide (rj = [0; 0]));
    [by eexists|].
  destruct (Hends _ Hi) as [ei ->]. destruct (Hends _ Hj) as [ej ->]. simpl.
  destruct (negb _ || negb _); [by eexists|].
  destruct (vehicle_capacity instance <? _)%Z; by eexists.
Qed.

Lemma foldl_insert_is_Some (ri_idx : nat) (new_route : list nat)
    (m : gmap nat nat) (c : nat) :
  is_Some (m !! c) ->
  is_Some (foldl (fun m c => if decide (c = 0) then m else <[c := ri_idx]> m)
                 m new_route !! c).
Proof.
  revert m. induction new_route as [|d l IH]; intros m Hm; [done|].
  simpl. apply IH. destruct (decide (d = 0)); [done|].
  rewrite lookup_insert. destruct (decide (d = c)); [by eexists | done].
Qed.

(** A turn either leaves the bookkeeping alone or merges two distinct
    live routes whose loads fit together. *)
Lemma cw_merge_step_inv (instance : VRPInstance) (st st' : cw_state)
    (p : saving) :
  cw_merge_step instance st p = Some st' ->
  st' = st \/
  exists ri_idx rj_idx ri rj ri' rj',
    ri_idx <> rj_idx /\
    cw_routes st !! ri_idx = Some ri /\ cw_routes st !! rj_idx = Some rj /\
    ri <> [0; 0] /\ rj <> [0; 0] /\
    (ri' = ri \/ ri' = reverse ri) /\ (rj' = rj \/ rj' = reverse rj) /\
    (route_demand ri (all_nodes instance) + route_demand rj (all_nodes instance)
     <= vehicle_capacity instance)%Z /\
    cw_routes st'
    = <[rj_idx := [0; 0]]> (<[ri_idx := but_last ri' ++ tail rj']> (cw_routes st)) /\
    (forall c, is_Some (cw_route_of st !! c) -> is_Some (cw_route_of st' !! c)) /\
    (forall k, is_Some (cw_ends st !! k) -> is_Some (cw_ends st' !! k)).
Proof.
  unfold cw_merge_step. intros H.
  destruct (cw_route_of st !! p.1.2) as [ri_idx|]; [|done].
  destruct (cw_route_of st !! p.2) as [rj_idx|]; [|done]. simpl in H.
  destruct (Nat.eqb_spec ri_idx rj_idx) as [|Hne]; [left; congruence|].
  destruct (feasible_merge instance st ri_idx rj_idx p.1.2 p.2)
    as [[|]|] eqn:Ef; simpl in H; [|left; congruence|done].
  apply feasible_merge_true in Ef
    as (ri & rj & ei & ej & Hri & Hrj & Hei & Hej & Hli & Hlj & Hcap).
  rewrite Hri, Hrj, Hei, Hej in H. simpl in H. injection H as <-.
  right.
  exists ri_idx, rj_idx, ri, rj,
    (if ei.1 =? p.1.2 then reverse ri else ri),
    (if ej.2 =? p.2 then reverse rj else rj).
  simpl. repeat split; try done.
  - destruct (ei.1 =? p.1.2); auto.
  - destruct (ej.2 =? p.2); auto.
  - intros c Hc. by apply foldl_insert_is_Some.
  - intros k Hk. rewrite !lookup_insert.
    destruct (decide (rj_idx = k)); [by eexists|].
    destruct (decide (ri_idx = k)); [by eexists | done].
Qed.

Lemma cw_merge_step_total (instance : VRPInstance) (N : nat) (st : cw_state)
    (p : saving) :
  cw_inv N st -> 1 <= p.1.2 <= N -> 1 <= p.2 <= N ->
  is_Some (cw_merge_step instance st p).
Proof.
  intros [Hlen _ _ Hro Hends] Hi Hj. unfold cw_merge_step.
  destruct (Hro _ Hi) as [ri_idx ->]. destruct (Hro _ Hj) as [rj_idx ->].
  simpl. destruct (ri_idx =? rj_idx); [by eexists|].
  destruct (feasible_merge_total instance st ri_idx rj_idx p.1.2 p.2)
    as [ok Hok].
  { intros k Hk. apply Hends. lia. }
  rewrite Hok. simpl. destruct ok; [|by eexists].
  apply feasible_merge_true in Hok
    as (ri & rj & ei & ej & -> & -> & -> & -> & _).
  simpl. by eexists.
Qed.

(** *** Customers of merged routes *)

Lemma custs_app (r1 r2 : list nat) : custs (r1 ++ r2) = custs r1 ++ custs r2.
Proof. unfold custs. apply filter_app. Qed.

Lemma custs_reverse (r : list nat) : custs (reverse r) ≡ₚ custs r.
Proof. unfold custs. by rewrite reverse_Permutation. Qed.

Lemma depot_ended_reverse (r : list nat) :
  depot_ended r -> depot_ended (reverse r).
Proof.
  intros [mid ->]. exists (reverse mid).
  by rewrite reverse_cons, reverse_app.
Qed.

Lemma but_last_snoc {A} (l : list A) (a : A) : but_last (l ++ [a]) = l.
Proof.
  unfold but_last. rewrite length_app. simpl.
  replace (length l + 1 - 1) with (length l) by lia.
  by rewrite take_app_length.
Qed.

Lemma merge_depot_ended (ri rj : list nat) :
  depot_ended ri -> depot_ended rj -> depot_ended (but_last ri ++ tail rj).
Proof.
  intros [mi ->] [mj ->]. exists (mi ++ mj).
  rewrite app_comm_cons, but_last_snoc. simpl. by rewrite <- app_assoc.
Qed.

Lemma merge_custs (ri rj : list nat) :
  depot_ended ri -> depot_ended rj ->
  custs (but_last ri ++ tail rj) = custs ri ++ custs rj.
Proof.
  intros [mi ->] [mj ->].
  rewrite app_comm_cons, but_last_snoc. simpl tail.
  change (0 :: mi ++ [0]) with ([0] ++ mi ++ [0]).
  change (0 :: mj ++ [0]) with ([0] ++ mj ++ [0]).
  change (0 :: mi) with ([0] ++ mi).
  rewrite !custs_app.
  change (custs [0]) with (@nil nat). simpl.
  by rewrite !app_nil_r.
Qed.

Lemma route_demand_custs (r r' : list nat) (nodes : list Node) :
  custs r ≡ₚ custs r' -> route_demand r nodes = route_demand r' nodes.
Proof.
  unfold route_demand. fold (custs r) (custs r'). intros Hp.
  induction Hp as [|c l l' _ IH|c d l|l l' l'' _ IH1 _ IH2]; simpl.
  - done.
  - by rewrite IH.
  - lia.
  - by rewrite IH1.
Qed.

Lemma route_demand_custs_app (r r1 r2 : list nat) (nodes : list Node) :
  custs r ≡ₚ custs r1 ++ custs r2 ->
  route_demand r nodes = (route_demand r1 nodes + route_demand r2 nodes)%Z.
Proof.
  intros Hp. rewrite <- route_demand_app.
  apply route_demand_custs. by rewrite custs_app.
Qed.

Lemma concat_merge_perm {A} (M : list (list A)) (i j : nat) (a b X : list A) :
  i <> j -> M !! i = Some a -> M !! j = Some b -> X ≡ₚ a ++ b ->
  concat (<[j := []]> (<[i := X]> M)) ≡ₚ concat M.
Proof.
  intros Hne Hi Hj HX.
  rewrite list_insert_insert_ne by done.
  assert (Hi' : <[j := []]> M !! i = Some a)
    by (by rewrite list_lookup_insert_ne).
  rewrite (concat_replace_perm _ i a X Hi').
  rewrite (concat_insert_perm M j b Hj).
  rewrite (concat_insert_perm (<[j := []]> M) i a Hi').
  rewrite HX. rewrite <- !app_assoc.
  rewrite (app_assoc b a), (app_assoc a b). f_equiv.
  apply Permutation_app_comm.
Qed.

(** The merged route of a turn, against the two routes it replaces. *)
Lemma merged_custs (ri rj ri' rj' : list nat) :
  depot_ended ri -> depot_ended rj ->
  ri' = ri \/ ri' = reverse ri -> rj' = rj \/ rj' = reverse rj ->
  depot_ended (but_last ri' ++ tail rj') /\
  custs (but_last ri' ++ tail rj') ≡ₚ custs ri ++ custs rj.
Proof.
  intros Hi Hj Hi' Hj'.
  assert (depot_ended ri' /\ custs ri' ≡ₚ custs ri) as [Hs1 Hc1].
  { destruct Hi' as [->| ->]; [done|].
    split; [by apply depot_ended_reverse | apply custs_reverse]. }
  assert (depot_ended rj' /\ custs rj' ≡ₚ custs rj) as [Hs2 Hc2].
  { destruct Hj' as [->| ->]; [done|].
    split; [by apply depot_ended_reverse | apply custs_reverse]. }
  split; [by apply merge_depot_ended|].
  by rewrite merge_custs, Hc1, Hc2.
Qed.

Lemma cw_merge_step_keeps_inv (instance : VRPInstance) (N : nat)
    (st st' : cw_state) (p : saving) :
  cw_inv N st -> cw_merge_step instance st p = Some st' -> cw_inv N st'.
Proof.
  intros Hinv Hstep.
  apply cw_merge_step_inv in Hstep as [->|Hm]; [done|].
  destruct Hm as (ri_idx & rj_idx & ri & rj & ri' & rj' & Hne & Hri & Hrj
                  & _ & _ & Hi' & Hj' & _ & Hroutes & Hro & Hen).
  destruct Hinv as [Hlen Hshape Hcust Hrodom Hendom].
  pose proof (Forall_lookup_1 _ _ _ _ Hshape Hri) as Hsi.
  pose proof (Forall_lookup_1 _ _ _ _ Hshape Hrj) as Hsj.
  destruct (merged_custs ri rj ri' rj' Hsi Hsj Hi' Hj') as [Hsn Hcn].
  constructor.
  - by rewrite Hroutes, !length_insert.
  - rewrite Hroutes. apply Forall_insert; [apply Forall_insert; [done|]|].
    + done.
    + by exists [].
  - rewrite Hroutes, <- Hcust.
    rewrite !list_fmap_insert.
    change (custs [0; 0]) with (@nil nat).
    apply (concat_merge_perm _ ri_idx rj_idx (custs ri) (custs rj));
      [done| | |done].
    + by rewrite list_lookup_fmap, Hri.
    + by rewrite list_lookup_fmap, Hrj.
  - intros c Hc. by apply Hro, Hrodom.
  - intros k Hk. by apply Hen, Hendom.
Qed.

Lemma cw_merge_loop_keeps_inv (instance : VRPInstance) (N : nat)
    (s_list : list saving) :
  forall st st',
    cw_inv N st -> cw_merge_loop instance st s_list = Some st' -> cw_inv N st'.
Proof.
  induction s_list as [|p l IH]; intros st st' Hinv Hrun; simpl in Hrun.
  - by injection Hrun as <-.
  - destruct (cw_merge_step instance st p) as [st1|] eqn:E; [|done].
    simpl in Hrun. eapply IH; [|done]. by eapply cw_merge_step_keeps_inv.
Qed.

Lemma cw_merge_loop_total (instance : VRPInstance) (N : nat)
    (s_list : list saving) :
  Forall (fun p : saving => 1 <= p.1.2 <= N /\ 1 <= p.2 <= N) s_list ->
  forall st, cw_inv N st -> is_Some (cw_merge_loop instance st s_list).
Proof.
  induction 1 as [|p l [Hi Hj] _ IH]; intros st Hinv; simpl.
  - by eexists.
  - destruct (cw_merge_step_total instance N st p Hinv Hi Hj) as [st1 E].
    rewrite E. simpl. apply IH. by eapply cw_merge_step_keeps_inv.
Qed.

(** *** The initial routes *)

Lemma singles_custs (l : list nat) :
  Forall (fun i => i <> 0) l ->
  concat (map custs (map (fun i => [0; i; 0]) l)) = l.
Proof.
  induction 1 as [|i l Hi _ IH]; [done|].
  simpl. rewrite IH.
  destruct i as [|i]; [done|]. reflexivity.
Qed.

Lemma cw_init_inv (N : nat) : cw_inv N (cw_init N).
Proof.
  constructor; simpl.
  - by rewrite length_map, length_seq.
  - apply Forall_fmap, Forall_forall. intros i _. by exists [i].
  - rewrite singles_custs; [done|].
    apply Forall_forall. intros i Hi. apply elem_of_seq in Hi. lia.
  - intros c Hc.
    destruct (list_to_map (map (fun cust => (cust, cust - 1)) (seq 1 N))
                !! c) as [v|] eqn:E; [by eexists|].
    apply not_elem_of_list_to_map_2 in E. exfalso. apply E.
    apply list_elem_of_fmap. exists (c, c - 1). split; [done|].
    apply list_elem_of_fmap. exists c. split; [done|].
    apply elem_of_seq. lia.
  - intros ri Hri.
    match goal with
    | |- is_Some (?m !! ri) => destruct (m !! ri) as [v|] eqn:E
    end; [by eexists|].
    apply not_elem_of_list_to_map_2 in E. exfalso. apply E.
    apply list_elem_of_fmap. eexists (ri, _). split; [done|].
    apply list_elem_of_fmap. exists ri. split; [done|].
    apply elem_of_range. lia.
Qed.

(** The merge loop never fails: no key or index is ever missing. *)
Lemma cw_merged_total (instance : VRPInstance) (D : distmat) :
  exists st,
    cw_merge_loop instance (cw_init (length (customers instance)))
      (sort_savings (savings_list (length (customers instance)) D)) = Some st /\
    cw_inv (length (customers instance)) st.
Proof.
  set (N := length (customers instance)).
  destruct (cw_merge_loop_total instance N (sort_savings (savings_list N D)))
    with (st := cw_init N) as [st Hst].
  - apply Forall_forall. intros p Hp. by eapply elem_of_sort_savings.
  - apply cw_init_inv.
  - exists st. split; [done|].
    eapply cw_merge_loop_keeps_inv; [apply cw_init_inv | done].
Qed.

(** *** Loads during the merge loop *)

Lemma node_at_customer (instance : VRPInstance) (c : nat) :
  1 <= c <= length (customers instance) ->
  node_at (all_nodes instance) c ∈ customers instance.
Proof.
  intros Hc. destruct c as [|c]; [lia|].
  unfold node_at, all_nodes. simpl.
  destruct (lookup_lt_is_Some_2 (customers instance) c) as [nd Hnd]; [lia|].
  rewrite Hnd. simpl. by eapply list_elem_of_lookup_2.
Qed.

Lemma route_demand_single (nodes : list Node) (c : nat) :
  c <> 0 -> route_demand [0; c; 0] nodes = demand (node_at nodes c).
Proof.
  intros Hc. destruct c as [|c]; [done|].
  unfold route_demand. simpl. lia.
Qed.

Lemma cw_init_loads (instance : VRPInstance) :
  demands_fit instance ->
  cw_loads_ok instance (cw_routes (cw_init (length (customers instance)))).
Proof.
  intros Hfit. unfold cw_loads_ok. simpl.
  apply Forall_fmap, Forall_forall. intros i Hi. apply elem_of_seq in Hi.
  right. simpl. rewrite route_demand_single by lia.
  eapply (proj1 (Forall_forall _ _) Hfit). apply node_at_customer. lia.
Qed.

Lemma cw_merge_step_loads (instance : VRPInstance) (N : nat)
    (st st' : cw_state) (p : saving) :
  cw_inv N st -> cw_loads_ok instance (cw_routes st) ->
  cw_merge_step instance st p = Some st' ->
  cw_loads_ok instance (cw_routes st').
Proof.
  intros Hinv Hok Hstep.
  apply cw_merge_step_inv in Hstep as [->|Hm]; [done|].
  destruct Hm as (ri_idx & rj_idx & ri & rj & ri' & rj' & Hne & Hri & Hrj
                  & _ & _ & Hi' & Hj' & Hcap & -> & _).
  destruct Hinv as [_ Hshape _ _ _].
  pose proof (Forall_lookup_1 _ _ _ _ Hshape Hri) as Hsi.
  pose proof (Forall_lookup_1 _ _ _ _ Hshape Hrj) as Hsj.
  destruct (merged_custs ri rj ri' rj' Hsi Hsj Hi' Hj') as [_ Hcn].
  apply Forall_insert; [apply Forall_insert; [done|]|by left].
  right. by rewrite (route_demand_custs_app _ ri rj _ Hcn).
Qed.

Lemma cw_merge_loop_loads (instance : VRPInstance) (N : nat)
    (s_list : list saving) :
  forall st st',
    cw_inv N st -> cw_loads_ok instance (cw_routes st) ->
    cw_merge_loop instance st s_list = Some st' ->
    cw_loads_ok instance (cw_routes st').
Proof.
  induction s_list as [|p l IH]; intros st st' Hinv Hok Hrun; simpl in Hrun.
  - by injection Hrun as <-.
  - destruct (cw_merge_step instance st p) as [st1|] eqn:E; [|done].
    simpl in Hrun. eapply IH; [| |done].
    + by eapply cw_merge_step_keeps_inv.
    + by eapply cw_merge_step_loads.
Qed.

(** *** Pruning *)

Lemma py_prefix_take {A} (k : Z) (l : list A) :
  exists m, py_prefix k l = take m l.
Proof. unfold py_prefix. destruct (k <? 0)%Z; by eexists. Qed.

Lemma cw_prune_cases (instance : VRPInstance) (routes : list (list nat)) :
  (Z.of_nat (length (cw_alive routes)) <= num_vehicles instance)%Z /\
  cw_prune instance routes = cw_alive routes \/
  exists sorted m,
    sorted ≡ₚ cw_alive routes /\ cw_prune instance routes = take m sorted.
Proof.
  unfold cw_prune. fold (cw_alive routes).
  destruct (Z.ltb_spec (num_vehicles instance)
                       (Z.of_nat (length (cw_alive routes)))) as [Hlt|Hge].
  - right.
    destruct (py_prefix_take (num_vehicles instance)
                (stable_sort
                   (fun a b => (- route_demand a (all_nodes instance)
                                <=? - route_demand b (all_nodes instance))%Z)
                   (cw_alive routes))) as [m Hm].
    eexists _, m. split; [apply stable_sort_perm | exact Hm].
  - by left.
Qed.

Lemma elem_of_cw_prune (instance : VRPInstance) (routes : list (list nat))
    (r : list nat) :
  r ∈ cw_prune instance routes -> r ∈ routes /\ r <> [0; 0].
Proof.
  intros Hr.
  assert (Halive : r ∈ cw_alive routes).
  { destruct (cw_prune_cases instance routes)
      as [[_ E]|(sorted & m & Hp & E)]; rewrite E in Hr; [done|].
    rewrite <- Hp. by eapply subseteq_take. }
  apply list_elem_of_filter in Halive. tauto.
Qed.

Lemma cw_prune_capacity (instance : VRPInstance) (routes : list (list nat)) :
  cw_loads_ok instance routes -> capacity_ok instance (cw_prune instance routes).
Proof.
  intros Hok. apply Forall_forall. intros r Hr.
  apply elem_of_cw_prune in Hr as [Hin Hlive].
  destruct (proj1 (Forall_forall _ _) Hok r Hin) as [?|?]; done.
Qed.

(** *** Visits *)

Lemma concat_perm {A} (l l' : list (list A)) :
  l ≡ₚ l' -> concat l ≡ₚ concat l'.
Proof.
  induction 1 as [|a l l' _ IH|a b l|l l' l'' _ IH1 _ IH2]; simpl.
  - done.
  - by rewrite IH.
  - rewrite !app_assoc. f_equiv. apply Permutation_app_comm.
  - by rewrite IH1.
Qed.

Lemma filter_eq_custs (c : nat) (r : list nat) :
  c <> 0 -> filter (fun i => i = c) (custs r) = filter (fun i => i = c) r.
Proof.
  intros Hc. unfold custs. induction r as [|a r IH]; [done|].
  rewrite !filter_cons.
  destruct (decide (a <> 0)) as [Ha|Ha].
  - rewrite filter_cons, IH. done.
  - rewrite IH. destruct (decide (a = c)); [lia | done].
Qed.

Lemma visits_custs (c : nat) (routes : list (list nat)) :
  c <> 0 ->
  visits c routes
  = length (filter (fun i => i = c) (concat (map custs routes))).
Proof.
  intros Hc. unfold visits. induction routes as [|r routes IH]; [done|].
  simpl. rewrite !filter_app, !length_app, IH.
  by rewrite filter_eq_custs.
Qed.

Lemma filter_eq_seq (c a n : nat) :
  length (filter (fun i => i = c) (seq a n))
  = if decide (a <= c < a + n) then 1 else 0.
Proof.
  revert a. induction n as [|n IH]; intros a; simpl.
  - destruct (decide _); [lia | done].
  - rewrite filter_cons. specialize (IH (S a)).
    destruct (decide (a = c)), (decide (S a <= c < S a + n)),
             (decide (a <= c < a + S n)); simpl; rewrite ?IH; lia.
Qed.

Lemma cw_alive_custs (routes : list (list nat)) :
  concat (map custs (cw_alive routes)) = concat (map custs routes).
Proof.
  unfold cw_alive. induction routes as [|r routes IH]; [done|].
  rewrite filter_cons. destruct (decide (r <> [0; 0])) as [Hr|Hr]; simpl.
  - by rewrite IH.
  - apply dec_stable in Hr. subst r. by rewrite IH.
Qed.

Lemma cw_alive_partition (N : nat) (st : cw_state) :
  cw_inv N st -> partition_ok N (cw_alive (cw_routes st)).
Proof.
  intros Hinv c Hc. rewrite visits_custs by lia.
  rewrite cw_alive_custs, (cw_inv_customers N st Hinv), filter_eq_seq.
  destruct (decide _); [done | lia].
Qed.

Lemma visits_take (c m : nat) (routes : list (list nat)) :
  visits c (take m routes) <= visits c routes.
Proof.
  unfold visits. rewrite <- (take_drop m routes) at 2.
  rewrite concat_app, filter_app, length_app. lia.
Qed.

Lemma cw_prune_at_most_once (instance : VRPInstance) (N : nat)
    (st : cw_state) (c : nat) :
  cw_inv N st -> 1 <= c <= N ->
  visits c (cw_prune instance (cw_routes st)) <= 1.
Proof.
  intros Hinv Hc.
  pose proof (cw_alive_partition N st Hinv c Hc) as Hone.
  destruct (cw_prune_cases instance (cw_routes st))
    as [[_ E]|(sorted & m & Hp & E)]; rewrite E; [lia|].
  etransitivity; [apply visits_take|].
  rewrite (visits_perm c (cw_alive (cw_routes st)) sorted); [lia|].
  by apply concat_perm.
Qed.

(** *** A customer that fits in no vehicle *)

Lemma route_demand_nonneg (instance : VRPInstance) (r : list nat) :
  demands_nonneg instance -> (0 <= route_demand r (all_nodes instance))%Z.
Proof.
  intros Hnn. induction r as [|c r IH]; [done|].
  rewrite route_demand_cons.
  pose proof (load_of_nonneg instance c Hnn). lia.
Qed.

Lemma elem_of_insert_inv {A} (l : list A) (i : nat) (x y : A) :
  x ∈ <[i := y]> l -> x = y \/ x ∈ l.
Proof.
  intros Hx. apply list_elem_of_lookup in Hx as [k Hk].
  destruct (decide (i = k)) as [->|Hne].
  - destruct (decide (k < length l)) as [Hlt|Hge].
    + rewrite list_lookup_insert_eq in Hk by done. left. congruence.
    + rewrite list_insert_ge in Hk by lia. right.
      by eapply list_elem_of_lookup_2.
  - rewrite list_lookup_insert_ne in Hk by done. right.
    by eapply list_elem_of_lookup_2.
Qed.

Lemma elem_of_tail {A} (l : list A) (x : A) : x ∈ tail l -> x ∈ l.
Proof. destruct l; [done|]. simpl. by right. Qed.

Lemma elem_of_merged (ri rj ri' rj' : list nat) (c : nat) :
  ri' = ri \/ ri' = reverse ri -> rj' = rj \/ rj' = reverse rj ->
  c ∈ but_last ri' ++ tail rj' -> c ∈ ri \/ c ∈ rj.
Proof.
  intros Hi Hj Hc. apply elem_of_app in Hc as [Hc|Hc].
  - left. apply subseteq_take in Hc.
    destruct Hi as [->| ->]; [done | by apply elem_of_reverse].
  - right. apply elem_of_tail in Hc.
    destruct Hj as [->| ->]; [done | by apply elem_of_reverse].
Qed.

Lemma cw_merge_step_single (instance : VRPInstance) (st st' : cw_state)
    (p : saving) (c : nat) :
  demands_nonneg instance -> c <> 0 ->
  (vehicle_capacity instance < demand (node_at (all_nodes instance) c))%Z ->
  stays_single c (cw_routes st) ->
  cw_merge_step instance st p = Some st' ->
  stays_single c (cw_routes st').
Proof.
  intros Hnn Hc Hheavy Hsingle Hstep.
  apply cw_merge_step_inv in Hstep as [->|Hm]; [done|].
  destruct Hm as (ri_idx & rj_idx & ri & rj & ri' & rj' & Hne & Hri & Hrj
                  & _ & _ & Hi' & Hj' & Hcap & -> & _).
  pose proof (route_demand_nonneg instance ri Hnn) as Hi0.
  pose proof (route_demand_nonneg instance rj Hnn) as Hj0.
  assert (Hnot_i : c ∉ ri).
  { intros Hin. rewrite (Hsingle ri) in Hcap; [|by eapply list_elem_of_lookup_2|done].
    rewrite route_demand_single in Hcap by done. lia. }
  assert (Hnot_j : c ∉ rj).
  { intros Hin. rewrite (Hsingle rj) in Hcap; [|by eapply list_elem_of_lookup_2|done].
    rewrite (route_demand_single _ c) in Hcap by done. lia. }
  intros r Hr Hcr.
  apply elem_of_insert_inv in Hr as [->|Hr].
  { apply list_elem_of_In in Hcr. simpl in Hcr. lia. }
  apply elem_of_insert_inv in Hr as [->|Hr].
  { destruct (elem_of_merged ri rj ri' rj' c Hi' Hj' Hcr); done. }
  by apply Hsingle.
Qed.

Lemma cw_merge_loop_single (instance : VRPInstance) (c : nat)
    (s_list : list saving) :
  demands_nonneg instance -> c <> 0 ->
  (vehicle_capacity instance < demand (node_at (all_nodes instance) c))%Z ->
  forall st st',
    stays_single c (cw_routes st) ->
    cw_merge_loop instance st s_list = Some st' ->
    stays_single c (cw_routes st').
Proof.
  intros Hnn Hc Hheavy.
  induction s_list as [|p l IH]; intros st st' Hs Hrun; simpl in Hrun.
  - by injection Hrun as <-.
  - destruct (cw_merge_step instance st p) as [st1|] eqn:E; [|done].
    simpl in Hrun. eapply IH; [|done]. by eapply cw_merge_step_single.
Qed.

Lemma cw_init_single (N c : nat) :
  c <> 0 -> stays_single c (cw_routes (cw_init N)).
Proof.
  intros Hc r Hr Hcr. simpl in Hr.
  apply list_elem_of_fmap in Hr as (i & -> & _).
  apply list_elem_of_In in Hcr. simpl in Hcr.
  destruct Hcr as [?|[<-|[?|[]]]]; done || lia.
Qed.

(** C2 (as amended).  Construction has no infeasibility check: for every
    instance with a customer [c] whose demand exceeds the capacity,
    [clarke_wright] returns a solution, never an error; and when no
    demand is negative, every returned route that visits [c] is its own
    route [0, c, 0] (the customer is routed alone, unless its route is
    among those dropped by the vehicle limit). *)
Theorem clarke_wright_routes_unfit_customer (instance : VRPInstance)
    (D : distmat) (c : nat) :
  1 <= c <= length (customers instance) ->
  (vehicle_capacity instance < demand (node_at (all_nodes instance) c))%Z ->
  exists routes,
    clarke_wright instance D = Some routes /\
    (demands_nonneg instance -> stays_single c routes).
Proof.
  intros Hc Hheavy.
  destruct (cw_merged_total instance D) as (st & Hloop & Hinv).
  exists (cw_prune instance (cw_routes st)). split.
  - unfold clarke_wright. by rewrite Hloop.
  - intros Hnn r Hr Hcr. apply elem_of_cw_prune in Hr as [Hr _].
    eapply (cw_merge_loop_single instance c); eauto; [lia|].
    apply cw_init_single. lia.
Qed.

Lemma clarke_wright_routes_unfit_customer_witness :
  1 <= 1 <= length (customers heavy_instance) /\
  (vehicle_capacity heavy_instance
   < demand (node_at (all_nodes heavy_instance) 1))%Z /\
  exists routes,
    clarke_wright heavy_instance heavy_dist = Some routes /\
    (demands_nonneg heavy_instance -> stays_single 1 routes).
Proof.
  assert (H1 : 1 <= 1 <= length (customers heavy_instance)) by (simpl; lia).
  assert (H2 : (vehicle_capacity heavy_instance
                < demand (node_at (all_nodes heavy_instance) 1))%Z)
    by reflexivity.
  split; [exact H1|]. split; [exact H2|].
  exact (clarke_wright_routes_unfit_customer heavy_instance heavy_dist 1 H1 H2).
Defined.

(** C2 as stated does not hold: the instance has a customer of demand
    5 with capacity 3, and construction returns the solution [[0, 1, 0]]
    instead of an error. *)
Lemma clarke_wright_unfit_counterexample :
  (vehicle_capacity heavy_instance
   < demand (node_at (all_nodes heavy_instance) 1))%Z /\
  clarke_wright heavy_instance heavy_dist = Some [[0; 1; 0]] /\
  clarke_wright heavy_instance heavy_dist <> None.
Proof.
  split; [reflexivity|]. split; [vm_compute; reflexivity|].
  vm_compute. discriminate.
Qed.

(** ** The partition and capacity invariants *)

Lemma partition_kept (N : nat) (instance : VRPInstance) (D : distmat) :
  kept_by_operators (partition_ok N) instance D.
Proof.
  split; intros routes Hok.
  - eapply partition_ok_perm; [apply two_opt_routes_perm | done].
  - eapply partition_ok_perm; [apply relocate_routes_perm | done].
Qed.

Lemma capacity_kept (instance : VRPInstance) (D : distmat) :
  demands_nonneg instance -> kept_by_operators (capacity_ok instance) instance D.
Proof.
  intros Hnn. split; intros routes Hok.
  - by apply two_opt_routes_capacity.
  - by apply relocate_routes_capacity.
Qed.

(** C3 (as amended).  Construction returns a solution that visits every
    customer index at most once, and exactly once (in one route, at one
    position) when the routes alive after the merge loop do not outnumber
    the vehicles; a 2-opt pass, a relocate pass on routes that are
    distinct cells, and annealing return a solution in which every
    customer index is visited exactly once whenever that holds for their
    input. *)
Theorem partition_invariant (instance : VRPInstance) (D : distmat) :
  let N := length (customers instance) in
  (forall routes,
     clarke_wright instance D = Some routes ->
     (forall c, 1 <= c <= N -> visits c routes <= 1) /\
     (forall merged,
        cw_merged instance D = Some merged ->
        (Z.of_nat (length (cw_alive merged)) <= num_vehicles instance)%Z ->
        partition_ok N routes)) /\
  (forall rs max_passes h rs' b h',
     allocated h rs ->
     improve_two_opt_intra rs D max_passes h = (rs', b, h') ->
     partition_ok N (routes_of h rs) -> partition_ok N (routes_of h' rs')) /\
  (forall rs h rs' b h',
     NoDup rs -> allocated h rs ->
     relocate_best_improvement rs instance D h = (rs', b, h') ->
     partition_ok N (routes_of h rs) -> partition_ok N (routes_of h' rs')) /\
  (forall clock accept fuel rs time_budget_s T0 alpha h best h',
     allocated h rs ->
     simulated_annealing clock accept fuel rs instance D time_budget_s T0 alpha h
     = (Some best, h') ->
     partition_ok N (routes_of h rs) -> partition_ok N (routes_of h' best)).
Proof.
  intros N. split; [|split; [|split]].
  - intros routes Hrun.
    destruct (cw_merged_total instance D) as (st & Hloop & Hinv).
    unfold clarke_wright in Hrun. rewrite Hloop in Hrun. simpl in Hrun.
    injection Hrun as <-. split.
    + intros c Hc. by apply (cw_prune_at_most_once instance N).
    + intros merged Hm Hfleet.
      unfold cw_merged in Hm. rewrite Hloop in Hm. simpl in Hm.
      injection Hm as <-.
      assert (cw_prune instance (cw_routes st) = cw_alive (cw_routes st))
        as ->; [|by apply cw_alive_partition].
      unfold cw_prune. fold (cw_alive (cw_routes st)).
      destruct (Z.ltb_spec (num_vehicles instance)
                  (Z.of_nat (length (cw_alive (cw_routes st))))); [lia|done].
  - intros rs max_passes h rs' b h' Hall Hrun Hok.
    apply improve_two_opt_intra_spec in Hrun
      as (m & ext & -> & _ & ->); [|done].
    eapply partition_ok_perm; [apply two_opt_iter_perm | done].
  - intros rs h rs' b h' Hnd Hall Hrun Hok.
    apply relocate_best_improvement_spec in Hrun
      as (-> & _ & -> & _); [|done..].
    eapply partition_ok_perm; [apply relocate_routes_perm | done].
  - intros clock accept fuel rs budget T0 alpha h best h' Hall Hrun Hok.
    eapply (simulated_annealing_inv clock accept (partition_ok N)) in Hrun
      as (_ & _ & _ & HP & _); eauto using partition_kept.
Qed.

(** C4 (as amended).  For every instance in which every single customer
    demand is at most the capacity: every route of the solution returned
    by construction has a load of at most the capacity; a 2-opt pass
    keeps that; and when no demand is negative, a relocate pass on routes
    that are distinct cells and annealing keep it too. *)
Theorem capacity_invariant (instance : VRPInstance) (D : distmat) :
  demands_fit instance ->
  (forall routes,
     clarke_wright instance D = Some routes -> capacity_ok instance routes) /\
  (forall rs max_passes h rs' b h',
     allocated h rs ->
     improve_two_opt_intra rs D max_passes h = (rs', b, h') ->
     capacity_ok instance (routes_of h rs) ->
     capacity_ok instance (routes_of h' rs')) /\
  (demands_nonneg instance ->
   forall rs h rs' b h',
     NoDup rs -> allocated h rs ->
     relocate_best_improvement rs instance D h = (rs', b, h') ->
     capacity_ok instance (routes_of h rs) ->
     capacity_ok instance (routes_of h' rs')) /\
  (demands_nonneg instance ->
   forall clock accept fuel rs time_budget_s T0 alpha h best h',
     allocated h rs ->
     simulated_annealing clock accept fuel rs instance D time_budget_s T0 alpha h
     = (Some best, h') ->
     capacity_ok instance (routes_of h rs) ->
     capacity_ok instance (routes_of h' best)).
Proof.
  intros Hfit. repeat split.
  - intros routes Hrun.
    destruct (cw_merged_total instance D) as (st & Hloop & Hinv).
    unfold clarke_wright in Hrun. rewrite Hloop in Hrun. simpl in Hrun.
    injection Hrun as <-. apply cw_prune_capacity.
    eapply cw_merge_loop_loads; [apply cw_init_inv | | exact Hloop].
    by apply cw_init_loads.
  - intros rs max_passes h rs' b h' Hall Hrun Hok.
    apply improve_two_opt_intra_spec in Hrun
      as (m & ext & -> & _ & ->); [|done].
    by apply two_opt_iter_capacity.
  - intros Hnn rs h rs' b h' Hnd Hall Hrun Hok.
    apply relocate_best_improvement_spec in Hrun
      as (-> & _ & -> & _); [|done..].
    by apply relocate_routes_capacity.
  - intros Hnn clock accept fuel rs budget T0 alpha h best h' Hall Hrun Hok.
    eapply (simulated_annealing_inv clock accept (capacity_ok instance))
      in Hrun as (_ & _ & _ & HP & _); eauto using capacity_kept.
Qed.

Lemma partition_invariant_witness :
  partition_ok 4 [[0; 2; 1; 4; 3; 0]] /\
  partition_ok 4 (routes_of [[0; 1; 3; 4; 2; 0]; [0; 4; 3; 1; 2; 0]] [1]) /\
  partition_ok 4 (routes_of [[0; 3; 4; 2; 1; 0]] [0]) /\
  partition_ok 4
    (routes_of [[0; 1; 3; 4; 2; 0]; [0; 1; 3; 4; 2; 0]; [0; 1; 3; 4; 2; 0];
                [0; 3; 4; 2; 1; 0]; [0; 3; 4; 2; 1; 0]; [0; 3; 4; 2; 1; 0];
                [0; 4; 3; 2; 1; 0]; [0; 4; 3; 2; 1; 0]] [7]).
Proof.
  destruct (partition_invariant rect_instance rect_dist)
    as (Hcw & Hopt & Hrel & Hsa).
  assert (Hin : partition_ok 4 (routes_of rect_store [0])).
  { intros c Hc.
    assert (c = 1 \/ c = 2 \/ c = 3 \/ c = 4) as [->|[->|[->| ->]]] by lia;
      reflexivity. }
  assert (Halloc : allocated rect_store [0]).
  { repeat constructor. }
  split.
  { refine (proj2 (Hcw [[0; 2; 1; 4; 3; 0]] _)
                  [[0; 2; 1; 4; 3; 0]; [0; 0]; [0; 0]; [0; 0]] _ _).
    - vm_compute. reflexivity.
    - vm_compute. reflexivity.
    - vm_compute. discriminate. }
  split.
  { refine (Hopt [0] 1 rect_store [1] true _ Halloc _ Hin).
    vm_compute. reflexivity. }
  split.
  { refine (Hrel [0] rect_store [0] true _ _ Halloc _ Hin).
    - apply NoDup_cons. split; [apply not_elem_of_nil | apply NoDup_nil_2].
    - vm_compute. reflexivity. }
  refine (Hsa tick_clock never_accept 2 [0] 3%Q 1%Q (995 # 1000)%Q rect_store
              [7] _ Halloc _ Hin).
  vm_compute. reflexivity.
Defined.

(** C3 as stated does not hold: two customers of demand 1, capacity 1
    and one vehicle.  The savings pair cannot be merged, the two routes
    outnumber the fleet, and construction returns the first route only:
    customer 2 is in no route. *)
Lemma partition_dropped_customer_counterexample :
  demands_fit short_fleet_instance /\
  clarke_wright short_fleet_instance pair_dist = Some [[0; 1; 0]] /\
  visits 2 [[0; 1; 0]] = 0 /\
  ~ partition_ok (length (customers short_fleet_instance)) [[0; 1; 0]].
Proof.
  split; [repeat constructor; by vm_compute|].
  split; [vm_compute; reflexivity|].
  split; [reflexivity|].
  intros Hok. specialize (Hok 2). simpl in Hok.
  assert (H0 : visits 2 [[0; 1; 0]] = 1) by (apply Hok; lia).
  vm_compute in H0. discriminate.
Qed.

Lemma capacity_invariant_witness :
  demands_fit rect_instance /\
  capacity_ok rect_instance [[0; 2; 1; 4; 3; 0]] /\
  capacity_ok rect_instance
    (routes_of [[0; 1; 3; 4; 2; 0]; [0; 4; 3; 1; 2; 0]] [1]) /\
  capacity_ok rect_instance (routes_of [[0; 3; 4; 2; 1; 0]] [0]) /\
  capacity_ok rect_instance
    (routes_of [[0; 1; 3; 4; 2; 0]; [0; 1; 3; 4; 2; 0]; [0; 1; 3; 4; 2; 0];
                [0; 3; 4; 2; 1; 0]; [0; 3; 4; 2; 1; 0]; [0; 3; 4; 2; 1; 0];
                [0; 4; 3; 2; 1; 0]; [0; 4; 3; 2; 1; 0]] [7]).
Proof.
  assert (Hfit : demands_fit rect_instance).
  { repeat constructor; by vm_compute. }
  assert (Hnn : demands_nonneg rect_instance).
  { repeat constructor; by vm_compute. }
  destruct (capacity_invariant rect_instance rect_dist Hfit)
    as (Hcw & Hopt & Hrel & Hsa).
  assert (Hin : capacity_ok rect_instance (routes_of rect_store [0])).
  { repeat constructor; by vm_compute. }
  assert (Halloc : allocated rect_store [0]).
  { repeat constructor. }
  split; [exact Hfit|]. split.
  { refine (Hcw [[0; 2; 1; 4; 3; 0]] _). vm_compute. reflexivity. }
  split.
  { refine (Hopt [0] 1 rect_store [1] true _ Halloc _ Hin).
    vm_compute. reflexivity. }
  split.
  { refine (Hrel Hnn [0] rect_store [0] true _ _ Halloc _ Hin).
    - apply NoDup_cons. split; [apply not_elem_of_nil | apply NoDup_nil_2].
    - vm_compute. reflexivity. }
  refine (Hsa Hnn tick_clock never_accept 2 [0] 3%Q 1%Q (995 # 1000)%Q
              rect_store [7] _ Halloc _ Hin).
  vm_compute. reflexivity.
Defined.

(** C4 as stated does not hold: every demand is at most the capacity
    5, construction returns routes of loads 5 and 5, and one relocate pass
    moves customer 5 (demand -2) out of the second route, whose load
    becomes 7. *)
Lemma capacity_negative_demand_counterexample :
  demands_fit credit_instance /\
  clarke_wright credit_instance credit_dist = Some credit_store /\
  capacity_ok credit_instance credit_store /\
  relocate_search credit_store credit_instance credit_dist
  = (10%Q, Some (1, 3, 0, 1)) /\
  relocate_best_improvement [0; 1] credit_instance credit_dist credit_store
  = ([0; 1], true, [[0; 5; 2; 0]; [0; 4; 3; 1; 0]]) /\
  route_demand [0; 4; 3; 1; 0] (all_nodes credit_instance) = 7%Z /\
  ~ capacity_ok credit_instance
      (routes_of [[0; 5; 2; 0]; [0; 4; 3; 1; 0]] [0; 1]).
Proof.
  split; [repeat constructor; by vm_compute|].
  split; [vm_compute; reflexivity|].
  split; [repeat constructor; by vm_compute|].
  split; [vm_compute; reflexivity|].
  split; [vm_compute; reflexivity|].
  split; [reflexivity|].
  intros Hok. apply Forall_cons in Hok as [_ Hok].
  apply Forall_cons in Hok as [Hload _].
  vm_compute in Hload. by apply Hload.
Qed.

(** ** The fairness term *)

Lemma Qsum_map_perm {A} (f : A -> Q) (l l' : list A) :
  l ≡ₚ l' -> (Qsum (map f l) == Qsum (map f l'))%Q.
Proof.
  induction 1 as [|a l l' _ IH|a b l|l l' l'' _ IH1 _ IH2];
    unfold Qsum in *; simpl.
  - reflexivity.
  - rewrite IH. reflexivity.
  - lra.
  - rewrite IH1. exact IH2.
Qed.




Lemma foldl_concat {A B} (f : A -> B -> A) (ls : list (list B)) :
  forall a, foldl (fun a l => foldl f a l) a ls = foldl f a (concat ls).
Proof.
  induction ls as [|l ls IH]; intros a; [done|].
  simpl. by rewrite IH, foldl_app.
Qed.

(** The dictionary after the loops, key by key. *)
Lemma counts_fold_lookup (nodes : list Node) (k : nat) (z : Z) (l : list nat) :
  forall m0 : gmap Z nat,
    foldl (fun counts i =>
             if decide (i = 0) then counts
             else count_visit counts (zone_id nodes k i)) m0 l !! z
    = let n := length (filter (fun i => i <> 0 /\ zone_id nodes k i = z) l) in
      match m0 !! z with
      | Some v => Some (v + n)
      | None => if decide (n = 0) then None else Some n
      end.
Proof.
  induction l as [|a l IH]; intros m0; cbv zeta.
  - simpl. destruct (m0 !! z); [f_equal; lia | done].
  - simpl foldl. rewrite IH. cbv zeta. rewrite filter_cons.
    destruct (decide (a = 0)) as [->|Ha].
    + destruct (decide (0 <> 0 /\ _)) as [[? _]|_]; [done|]. done.
    + unfold count_visit. rewrite lookup_insert.
      destruct (decide (zone_id nodes k a = z)) as [Hz|Hz].
      * subst z.
        destruct (decide (a <> 0 /\ _)) as [_|Hn]; [|tauto].
        simpl length.
        destruct (m0 !! zone_id nodes k a) as [v|]; simpl; [f_equal; lia|].
        repeat case_decide; try lia; done.
      * destruct (decide (a <> 0 /\ _)) as [[_ ?]|_]; [done|]. done.
Qed.

Lemma zone_counts_lookup (routes : list (list nat)) (nodes : list Node)
    (k : nat) (z : Z) :
  zone_counts routes nodes k !! z
  = if decide (cell_visits routes nodes k z = 0) then None
    else Some (cell_visits routes nodes k z).
Proof.
  unfold zone_counts. rewrite foldl_concat.
  rewrite counts_fold_lookup. cbv zeta. by rewrite lookup_empty.
Qed.

Lemma zone_id_range (nodes : list Node) (k : nat) (i : nat) :
  0 < k -> (0 <= zone_id nodes k i < Z.of_nat (k * k))%Z.
Proof.
  intros Hk. unfold zone_id. cbv zeta.
  set (xz := Z.min (Z.max _ 0) _). set (yz := Z.min (Z.max _ 0) _).
  assert (0 <= xz <= Z.of_nat k - 1)%Z by (unfold xz; lia).
  assert (0 <= yz <= Z.of_nat k - 1)%Z by (unfold yz; lia).
  nia.
Qed.

Lemma elem_of_grid_cells (k : nat) (z : Z) :
  z ∈ grid_cells k <-> (0 <= z < Z.of_nat (k * k))%Z.
Proof.
  unfold grid_cells. rewrite list_elem_of_fmap. split.
  - intros (n & -> & Hn). apply elem_of_seq in Hn. lia.
  - intros Hz. exists (Z.to_nat z). split; [lia|]. apply elem_of_seq. lia.
Qed.


Lemma cell_visits_in_grid (routes : list (list nat)) (nodes : list Node)
    (k : nat) (z : Z) :
  0 < k -> 0 < cell_visits routes nodes k z -> z ∈ grid_cells k.
Proof.
  intros Hk Hpos. unfold cell_visits in Hpos.
  destruct (filter _ (concat routes)) as [|i l] eqn:E; [simpl in Hpos; lia|].
  assert (Hi : i ∈ filter (fun i => i <> 0 /\ zone_id nodes k i = z)
                          (concat routes)) by (rewrite E; left).
  apply list_elem_of_filter in Hi as [[_ <-] _].
  apply elem_of_grid_cells. by apply zone_id_range.
Qed.






(** *** The zones of the code are the cells of the grid *)
















Lemma spread_grid_visits :
  map (fun cell => (cell, grid_visits spread_routes (all_nodes spread_instance)
                                      4 cell))
      (filter (fun cell => 0 < grid_visits spread_routes
                                 (all_nodes spread_instance) 4 cell)
              (grid 4))
  = [((0, 0), 2); ((1, 2), 1); ((3, 3), 2)].
Proof. vm_compute. reflexivity. Qed.

Lemma spread_fairness :
  Qeq (fairness_grid_visited spread_routes (all_nodes spread_instance) 4)
      (2 # 9) /\
  Qeq (fairness_grid_all spread_routes (all_nodes spread_instance) 4)
      (119 # 256).
Proof. split; vm_compute; reflexivity. Qed.



(** ** The local-search turn and the travel distance *)

(** *** The 2-opt pass *)

Lemma two_opt_search_best (r : list nat) (D : distmat) :
  ((two_opt_search r D).1 <= 0)%Q /\
  forall m, (two_opt_search r D).2 = Some m ->
            (two_opt_search r D).1 = two_opt_delta r m.1 m.2 D /\
            ((two_opt_search r D).1 < 0)%Q.
Proof.
  unfold two_opt_search.
  apply (foldl_invariant
           (fun st : Q * option (nat * nat) =>
              (st.1 <= 0)%Q /\
              forall m, st.2 = Some m ->
                        st.1 = two_opt_delta r m.1 m.2 D /\ (st.1 < 0)%Q)).
  - intros st m' _ [Hle IH].
    destruct (Qltb (two_opt_delta r m'.1 m'.2 D) st.1) eqn:E; [|by split].
    apply Qltb_lt in E. simpl. split; [lra|].
    intros m [= <-]. split; [done | lra].
  - simpl. split; [lra | done].
Qed.

Lemma two_opt_route_distance (D : distmat) (r : list nat) :
  symmetric D ->
  (route_distance (two_opt_route D r) D <= route_distance r D)%Q.
Proof.
  intros Hsym. unfold two_opt_route.
  destruct (two_opt_search r D).2 as [[i k]|] eqn:E; [|lra].
  destruct (two_opt_search_best r D) as [_ Hbest].
  destruct (Hbest _ E) as [Hdelta Hneg]. simpl in Hdelta.
  apply two_opt_search_in, elem_of_two_opt_moves in E.
  pose proof (two_opt_delta_exact r i k D Hsym) as Hexact.
  rewrite <- Hdelta in Hexact.
  assert (Hx : ((two_opt_search r D).1
                == route_distance (apply_two_opt r i k) D - route_distance r D)%Q)
    by (apply Hexact; lia).
  lra.
Qed.

Lemma two_opt_routes_distance (D : distmat) (routes : list (list nat)) :
  symmetric D ->
  (total_distance (map (two_opt_route D) routes) D <= total_distance routes D)%Q.
Proof.
  intros Hsym. unfold total_distance, Qsum.
  induction routes as [|r routes IH]; simpl; [lra|].
  pose proof (two_opt_route_distance D r Hsym). lra.
Qed.

Lemma two_opt_iter_distance (D : distmat) (m : nat) (routes : list (list nat)) :
  symmetric D ->
  (total_distance (Nat.iter m (map (two_opt_route D)) routes) D
   <= total_distance routes D)%Q.
Proof.
  intros Hsym. induction m as [|m IH]; simpl; [lra|].
  pose proof (two_opt_routes_distance D
                (Nat.iter m (map (two_opt_route D)) routes) Hsym).
  lra.
Qed.

(** *** Deleting and inserting a route entry *)

Lemma route_cut (r : list nat) (j : nat) :
  1 <= j -> j < length r ->
  r = take (j - 1) r ++ r !!! (j - 1) :: r !!! j :: drop (j + 1) r.
Proof.
  intros Hj Hlen. destruct j as [|j]; [lia|]. simpl. rewrite Nat.sub_0_r.
  assert (Hp : r !! j = Some (r !!! j))
    by (apply list_lookup_lookup_total_lt; lia).
  assert (Hn : r !! S j = Some (r !!! S j))
    by (by apply list_lookup_lookup_total_lt).
  rewrite <- (take_drop_middle r j _ Hp) at 1. do 2 f_equal.
  rewrite (drop_S _ _ _ Hn). do 2 f_equal. lia.
Qed.

Lemma py_insert_app (l1 l2 : list nat) (c : nat) :
  py_insert (length l1) c (l1 ++ l2) = l1 ++ c :: l2.
Proof. unfold py_insert. by rewrite take_app_length, drop_app_length. Qed.

Lemma path_len_insert (D : distmat) (r : list nat) (j c : nat) :
  1 <= j -> j < length r ->
  (path_len D (py_insert j c r)
   == path_len D r
      + (D (r !!! (j - 1)%nat) c + D c (r !!! j)
         - D (r !!! (j - 1)%nat) (r !!! j)))%Q.
Proof.
  intros Hj Hlen.
  pose proof (route_cut r j Hj Hlen) as Hcut.
  set (p := r !!! (j - 1)) in *. set (n := r !!! j) in *.
  set (pre := take (j - 1) r) in *. set (post := drop (j + 1) r) in *.
  assert (Hins : py_insert j c r = pre ++ p :: c :: n :: post).
  { assert (Hpre : j = length (pre ++ [p])).
    { rewrite length_app. unfold pre. rewrite length_take. simpl. lia. }
    rewrite Hcut, Hpre.
    change (pre ++ p :: n :: post) with (pre ++ [p] ++ n :: post).
    rewrite app_assoc, py_insert_app. by rewrite <- app_assoc. }
  rewrite Hins, Hcut.
  pose proof (path_len_split D pre p (c :: n :: post)) as E1.
  pose proof (path_len_split D pre p (n :: post)) as E2.
  simpl in E1, E2. simpl. lra.
Qed.

Lemma path_len_delete (D : distmat) (r : list nat) (i : nat) :
  1 <= i -> i + 1 < length r ->
  (path_len D (delete i r)
   == path_len D r
      - (D (r !!! (i - 1)%nat) (r !!! i) + D (r !!! i) (r !!! (i + 1)%nat)
         - D (r !!! (i - 1)%nat) (r !!! (i + 1)%nat)))%Q.
Proof.
  intros Hi Hlen.
  assert (Hc : r !! i = Some (r !!! i))
    by (apply list_lookup_lookup_total_lt; lia).
  pose proof (delete_take_drop r i) as Hdel.
  assert (Hre : r = py_insert i (r !!! i) (delete i r)).
  { rewrite Hdel.
    assert (Hlt : i = length (take i r)) by (rewrite length_take; lia).
    rewrite Hlt at 1. rewrite py_insert_app.
    by rewrite (take_drop_middle r i _ Hc). }
  pose proof (path_len_insert D (delete i r) i (r !!! i)) as Hins.
  rewrite <- Hre in Hins.
  assert (Hp : delete i r !!! (i - 1) = r !!! (i - 1)).
  { by rewrite list_lookup_total_delete_lt by lia. }
  assert (Hn : delete i r !!! i = r !!! (i + 1)).
  { rewrite list_lookup_total_delete_ge by lia. f_equal. lia. }
  rewrite Hp, Hn in Hins.
  assert (Hlen' : i < length (delete i r)).
  { rewrite length_delete by (by eexists). lia. }
  specialize (Hins Hi Hlen'). lra.
Qed.

Lemma Qsum_insert {A} (f : A -> Q) `{Inhabited A} (l : list A) (i : nat)
    (x : A) :
  i < length l ->
  (Qsum (map f (<[i := x]> l)) == Qsum (map f l) - f (l !!! i) + f x)%Q.
Proof.
  revert i. induction l as [|a l IH]; intros i Hi; [simpl in Hi; lia|].
  destruct i as [|i]; unfold Qsum in *; simpl.
  - lra.
  - rewrite IH by (simpl in Hi; lia).
    change ((a :: l) !!! S i) with (l !!! i). lra.
Qed.

(** *** The relocate pass *)

Lemma relocate_moves_gain (routes : list (list nat)) (instance : VRPInstance)
    (D : distmat) (g : Q) (mv : move) :
  (g, mv) ∈ relocate_moves routes instance D -> g = relocate_gain routes D mv.
Proof.
  unfold relocate_moves.
  intros H. apply list_elem_of_bind in H as (ra & H & _).
  apply list_elem_of_bind in H as (ia & H & _).
  apply list_elem_of_bind in H as (rb & H & _).
  destruct ((ra =? rb) && _); [by apply elem_of_nil in H|].
  destruct (negb (ra =? rb) && _); [by apply elem_of_nil in H|].
  apply list_elem_of_bind in H as (jb & H & _).
  destruct ((ra =? rb) && _); [by apply elem_of_nil in H|].
  apply list_elem_of_singleton in H. by injection H as -> ->.
Qed.

(** A move to another route, or to an earlier position of the same
    route, changes the travel distance by its evaluated gain. *)
Lemma relocate_apply_distance (routes : list (list nat)) (D : distmat)
    (ra ia rb jb : nat) :
  ra < length routes -> 1 <= ia < length (routes !!! ra) - 1 ->
  rb < length routes -> 1 <= jb < length (routes !!! rb) ->
  ra <> rb \/ jb < ia ->
  (total_distance (relocate_apply routes (ra, ia, rb, jb)) D
   == total_distance routes D - relocate_gain routes D (ra, ia, rb, jb))%Q.
Proof.
  intros Hra Hia Hrb Hjb Hreg.
  unfold relocate_apply, relocate_gain, total_distance.
  set (rA := routes !!! ra) in *. set (rB := routes !!! rb) in *.
  set (c := rA !!! ia).
  set (routes1 := <[ra := delete ia rA]> routes).
  assert (Hlen1 : length routes1 = length routes) by apply length_insert.
  rewrite (Qsum_insert (fun r => route_distance r D) routes1 rb) by lia.
  unfold routes1 at 1.
  rewrite (Qsum_insert (fun r => route_distance r D) routes ra) by done.
  fold rA. rewrite !route_distance_path.
  pose proof (path_len_delete D rA ia) as Hdel. fold c in Hdel.
  assert (HB1 : let rB1 := routes1 !!! rb in
                1 <= jb < length rB1 /\
                rB1 !!! (jb - 1) = rB !!! (jb - 1) /\ rB1 !!! jb = rB !!! jb /\
                (path_len D rB1
                 == if decide (ra = rb) then path_len D (delete ia rA)
                    else path_len D rB)%Q).
  { cbv zeta. unfold routes1. destruct (decide (ra = rb)) as [Heq|Hne].
    - destruct Hreg as [?|Hlt]; [done|]. subst rb.
      rewrite list_lookup_total_insert_eq by done. fold rA in rB. subst rB.
      rewrite !list_lookup_total_delete_lt by lia.
      rewrite length_delete
        by (apply lookup_lt_is_Some_2; lia).
      repeat split; try lia; try reflexivity.
    - rewrite list_lookup_total_insert_ne by done. fold rB.
      repeat split; try lia; try reflexivity. }
  cbv zeta in HB1. destruct HB1 as (Hjb1 & Hp & Hn & Hlen).
  pose proof (path_len_insert D (routes1 !!! rb) jb c) as Hins.
  rewrite Hp, Hn in Hins.
  specialize (Hdel ltac:(lia) ltac:(lia)).
  specialize (Hins ltac:(lia) ltac:(lia)).
  destruct (decide (ra = rb)) as [Heq|Hne].
  - subst rb. fold rA in rB. subst rB. lra.
  - lra.
Qed.

Lemma relocate_routes_distance (routes : list (list nat))
    (instance : VRPInstance) (D : distmat) :
  relocate_move_regular routes instance D ->
  (total_distance (relocate_routes routes instance D) D
   <= total_distance routes D)%Q.
Proof.
  unfold relocate_move_regular, relocate_routes.
  destruct (relocate_search routes instance D) as [g [mv|]] eqn:Es; [|lra].
  destruct mv as [[[ra ia] rb] jb]. intros Hreg.
  destruct (Qltb relocate_eps g) eqn:Eg; [|lra].
  apply Qltb_lt in Eg. unfold relocate_eps in Eg.
  apply relocate_search_in in Es.
  pose proof (relocate_moves_gain _ _ _ _ _ Es) as Hg.
  apply elem_of_relocate_moves in Es as (Hra & Hia & Hrb & Hjb & _).
  rewrite (relocate_apply_distance routes D ra ia rb jb) by (done || tauto).
  rewrite <- Hg.
  assert (0 < g)%Q by (eapply Qlt_trans; [|exact Eg]; reflexivity).
  lra.
Qed.

(** *** The cost without lateness *)

Lemma cell_visits_perm (routes routes' : list (list nat)) (nodes : list Node)
    (k : nat) (z : Z) :
  concat routes' ≡ₚ concat routes ->
  cell_visits routes' nodes k z = cell_visits routes nodes k z.
Proof. intros Hp. unfold cell_visits. by rewrite Hp. Qed.

Lemma fairness_penalty_perm (routes routes' : list (list nat))
    (nodes : list Node) (k : nat) :
  concat routes' ≡ₚ concat routes ->
  fairness_penalty routes' nodes k = fairness_penalty routes nodes k.
Proof.
  intros Hp. unfold fairness_penalty.
  assert (zone_counts routes' nodes k = zone_counts routes nodes k) as ->;
    [|done].
  apply map_eq. intros z. rewrite !zone_counts_lookup.
  by rewrite (cell_visits_perm routes routes' nodes k z Hp).
Qed.

Lemma total_cost_no_lateness (routes : list (list nat))
    (instance : VRPInstance) (D : distmat) :
  (lambda_tw instance <= 0)%Q ->
  (total_cost routes instance D
   == total_distance routes D
      + mu_fair instance
        * (if Qltb 0 (mu_fair instance)
           then fairness_penalty routes (all_nodes instance) 4 else 0))%Q.
Proof.
  intros Hl. unfold total_cost, total_distance. cbv zeta.
  apply Qltb_ge in Hl. rewrite Hl. lra.
Qed.

Lemma total_cost_le (routes routes' : list (list nat))
    (instance : VRPInstance) (D : distmat) :
  (lambda_tw instance <= 0)%Q ->
  concat routes' ≡ₚ concat routes ->
  (total_distance routes' D <= total_distance routes D)%Q ->
  (total_cost routes' instance D <= total_cost routes instance D)%Q.
Proof.
  intros Hl Hp Hd.
  rewrite !total_cost_no_lateness by done.
  rewrite (fairness_penalty_perm routes routes' _ 4 Hp). lra.
Qed.

(** *** Distinct cells after a 2-opt pass *)

Lemma two_opt_sweep_locs (rs : list loc) (D : distmat) :
  forall (h : store) (rs' : list loc) (c : bool) (h' : store),
    allocated h rs -> NoDup rs ->
    two_opt_sweep rs D h = (rs', c, h') ->
    NoDup rs' /\ forall x, x ∈ rs' -> x ∈ rs \/ length h <= x.
Proof.
  induction rs as [|l rs IH]; intros h rs' c h' Hall Hnd Hrun.
  - injection Hrun as <- <- <-. split; [done|]. by left.
  - apply Forall_cons in Hall as [Hl Hall].
    apply NoDup_cons in Hnd as [Hnotin Hnd].
    simpl in Hrun. unfold bind at 1, read at 1 in Hrun.
    destruct (two_opt_search (deref h l) D).2 as [[i k]|].
    + unfold bind at 1, alloc at 1 in Hrun. unfold bind at 1 in Hrun.
      destruct (two_opt_sweep rs D _) as [[rs1 c1] h1] eqn:Es.
      apply IH in Es as [Hnd1 Hin1]; [|by apply allocated_app_l|done].
      injection Hrun as <- <- <-. rewrite length_app in Hin1. simpl in Hin1.
      split.
      * apply NoDup_cons. split; [|done]. intros Hx.
        destruct (Hin1 _ Hx) as [Hold|Hnew]; [|lia].
        pose proof (proj1 (Forall_forall _ _) Hall _ Hold). simpl in *. lia.
      * intros x Hx. apply elem_of_cons in Hx as [->|Hx]; [right; lia|].
        destruct (Hin1 _ Hx) as [?|?]; [left; by right | right; lia].
    + unfold bind at 1 in Hrun.
      destruct (two_opt_sweep rs D h) as [[rs1 c1] h1] eqn:Es.
      apply IH in Es as [Hnd1 Hin1]; [|done..].
      injection Hrun as <- <- <-. split.
      * apply NoDup_cons. split; [|done]. intros Hx.
        destruct (Hin1 _ Hx) as [Hold|Hnew]; [done | lia].
      * intros x Hx. apply elem_of_cons in Hx as [->|Hx]; [left; by left|].
        destruct (Hin1 _ Hx) as [?|?]; [left; by right | by right].
Qed.

Lemma two_opt_passes_NoDup (n : nat) (D : distmat) :
  forall (rs : list loc) (improved : bool) (h : store)
         (rs' : list loc) (c : bool) (h' : store),
    allocated h rs -> NoDup rs ->
    two_opt_passes n rs D improved h = (rs', c, h') -> NoDup rs'.
Proof.
  induction n as [|n IH]; intros rs improved h rs' c h' Hall Hnd Hrun.
  - by injection Hrun as <- <- <-.
  - simpl in Hrun. unfold bind at 1 in Hrun.
    destruct (two_opt_sweep rs D h) as [[rs1 c1] h1] eqn:Es.
    pose proof (two_opt_sweep_locs rs D h rs1 c1 h1 Hall Hnd Es) as [Hnd1 _].
    apply two_opt_sweep_spec in Es as (ext & -> & Ha & _); [|done].
    simpl in Hrun. destruct c1.
    + by eapply IH.
    + by injection Hrun as <- <- <-.
Qed.

(** C5 (as amended).  For every solution whose routes are distinct cells,
    every symmetric distance matrix and every instance whose time-window
    weight is zero, one 2-opt pass followed by one relocate pass returns a
    solution whose total cost is not greater than the input solution's,
    provided the move that the relocate pass applies, if any, goes to
    another route or to an earlier position of its own route.  (A move to
    a later position of the same route is not covered.) *)
Theorem local_search_step_no_dearer (rs : list loc) (instance : VRPInstance)
    (D : distmat) (h : store) (rs' : list loc) (b : bool) (h' : store) :
  symmetric D ->
  (lambda_tw instance <= 0)%Q ->
  NoDup rs -> allocated h rs ->
  (let swept := improve_two_opt_intra rs D 1 h in
   relocate_move_regular (routes_of swept.2 swept.1.1) instance D) ->
  local_search_step rs instance D h = (rs', b, h') ->
  Qle (total_cost (routes_of h' rs') instance D)
      (total_cost (routes_of h rs) instance D).
Proof.
  intros Hsym Hl Hnd Hall Hreg Hrun.
  unfold local_search_step, bind in Hrun.
  destruct (improve_two_opt_intra rs D 1 h) as [[rs1 c1] h1] eqn:E1.
  cbv zeta in Hreg. simpl in Hreg, Hrun.
  destruct (relocate_best_improvement rs1 instance D h1)
    as [[rs2 c2] h2] eqn:E2.
  unfold ret in Hrun. simpl in Hrun. injection Hrun as <- <- <-.
  pose proof (two_opt_passes_NoDup 1 D rs false h rs1 c1 h1 Hall Hnd E1)
    as Hnd1.
  apply improve_two_opt_intra_spec in E1 as (m & ext & -> & Hall1 & Hval1);
    [|done].
  apply relocate_best_improvement_spec in E2 as (-> & _ & Hval2 & _);
    [|done..].
  rewrite Hval2. rewrite Hval1 in Hreg |- *.
  set (swept := Nat.iter m (map (two_opt_route D)) (routes_of h rs)) in *.
  apply Qle_trans with (total_cost swept instance D).
  - apply total_cost_le; [done|apply relocate_routes_perm|].
    by apply relocate_routes_distance.
  - apply total_cost_le; [done|apply two_opt_iter_perm|].
    by apply two_opt_iter_distance.
Qed.

Lemma local_search_step_no_dearer_witness :
  symmetric line_dist /\ (lambda_tw line_instance <= 0)%Q /\
  NoDup [0; 1] /\ allocated line_store [0; 1] /\
  (let swept := improve_two_opt_intra [0; 1] line_dist 1 line_store in
   relocate_move_regular (routes_of swept.2 swept.1.1) line_instance
     line_dist) /\
  Qle (total_cost (routes_of [[0; 0]; [0; 1; 2; 0]] [0; 1]) line_instance
         line_dist)
      (total_cost (routes_of line_store [0; 1]) line_instance line_dist).
Proof.
  assert (H1 : (lambda_tw line_instance <= 0)%Q) by discriminate.
  assert (H2 : NoDup [0; 1]).
  { apply NoDup_cons. split.
    - intros Hin. apply list_elem_of_singleton in Hin. discriminate.
    - apply NoDup_cons. split; [apply not_elem_of_nil | apply NoDup_nil_2]. }
  assert (H3 : allocated line_store [0; 1]).
  { repeat constructor. }
  assert (H4 : let swept := improve_two_opt_intra [0; 1] line_dist 1 line_store in
               relocate_move_regular (routes_of swept.2 swept.1.1)
                 line_instance line_dist).
  { cbv zeta. unfold relocate_move_regular.
    set (s := relocate_search _ _ _).
    vm_compute in s. subst s. cbv iota beta. intros _. left. lia. }
  split; [exact line_dist_symmetric|]. split; [exact H1|].
  split; [exact H2|]. split; [exact H3|]. split; [exact H4|].
  refine (local_search_step_no_dearer [0; 1] line_instance line_dist line_store
            [0; 1] true _ line_dist_symmetric H1 H2 H3 H4 _).
  vm_compute. reflexivity.
Defined.

(** C5 as stated does not hold: with time-window weight 1 the 2-opt pass
    shortens the route from 8 to 6 and makes the vehicle late at customer
    2 by 7; the relocate pass finds no move; the total cost goes from 8
    to 13. *)
Lemma local_search_lateness_counterexample :
  let res := local_search_step [0] rush_instance line_dist rush_store in
  let out := routes_of res.2 res.1.1 in
  symmetric line_dist /\
  out = [[0; 1; 2; 3; 0]] /\
  Qeq (total_cost (routes_of rush_store [0]) rush_instance line_dist) 8 /\
  Qeq (total_cost out rush_instance line_dist) 13 /\
  ~ Qle (total_cost out rush_instance line_dist)
        (total_cost (routes_of rush_store [0]) rush_instance line_dist).
Proof.
  cbv zeta. split; [exact line_dist_symmetric|].
  split; [vm_compute; reflexivity|].
  split; [vm_compute; reflexivity|].
  split; [vm_compute; reflexivity|].
  intros H. vm_compute in H. by apply H.
Qed.
(** * Further properties of the code *)

(** ** Facts about the example instances *)

Lemma NoDup_one : NoDup [0].
Proof. apply NoDup_singleton. Qed.

Lemma NoDup_two : NoDup [0; 1].
Proof.
  apply NoDup_cons. split; [|apply NoDup_singleton].
  intros Hin. apply list_elem_of_singleton in Hin. discriminate.
Qed.

Lemma line_dist_triangle : depot_triangle line_dist.
Proof.
  intros i j. unfold line_dist. rewrite <- inject_Z_plus, <- Zle_Qle. lia.
Qed.

Lemma line_dist_nonneg : nonneg_dist line_dist.
Proof.
  intros a b. unfold line_dist.
  change 0%Q with (inject_Z 0). rewrite <- Zle_Qle. lia.
Qed.

Lemma low_uniform_in_range : uniform_in_range low_uniform.
Proof. intros seed k low high Hlt. unfold low_uniform. split; lra. Qed.

Lemma low_integers_in_range : integers_in_range low_integers.
Proof. intros seed k low high Hlt. unfold low_integers. lia. Qed.

Lemma pair_move_regular :
  relocate_move_regular (routes_of pair_store [0; 1]) pair_instance pair_dist.
Proof.
  unfold relocate_move_regular.
  set (s := relocate_search _ _ _). vm_compute in s. subst s.
  cbv iota beta. intros _. left. lia.
Qed.

Lemma rect_annealing_run :
  simulated_annealing tick_clock never_accept 5 [0] rect_instance rect_dist
    3 1 (995 # 1000) rect_store = (Some [7], rect_annealed_store).
Proof. vm_compute. reflexivity. Qed.

(** ** 2-opt: moves, optima and improvements *)

Lemma apply_two_opt_parts (route : list nat) (i k : nat) :
  i <= k + 1 ->
  exists A B C, route = A ++ B ++ C /\ apply_two_opt route i k = A ++ reverse B ++ C /\
    forall B', length B' = length B -> apply_two_opt (A ++ B' ++ C) i k = A ++ reverse B' ++ C.
Proof.
  intros Hik.
  exists (take i route), (drop i (take (k + 1) route)), (drop (k + 1) route).
  split; [|split; [reflexivity|]].
  - rewrite app_assoc.
    rewrite <- (take_drop (k + 1) route) at 1. f_equal.
    rewrite <- (take_drop i (take (k + 1) route)) at 1. f_equal.
    rewrite take_take. f_equal. lia.
  - intros B' HB'. unfold apply_two_opt.
    set (A := take i route). set (C := drop (k + 1) route).
    rewrite length_drop, length_take in HB'.
    destruct (decide (i <= length route)) as [Hi|Hi].
    + assert (HA : length A = i) by (unfold A; rewrite length_take; lia).
      assert (E1 : take i (A ++ B' ++ C) = A) by (by apply take_app_length').
      assert (E2 : drop i (take (k + 1) (A ++ B' ++ C)) = B').
      { rewrite take_app, HA, drop_app.
        rewrite length_take, HA.
        rewrite (drop_ge (take (k + 1) A)) by (rewrite length_take; lia).
        replace (i - (k + 1) `min` i) with 0 by lia. rewrite drop_0.
        assert (HC : take (k + 1 - i - length B') C = []).
        { destruct (decide (k + 1 <= length route)).
          - replace (k + 1 - i - length B') with 0 by lia. apply take_0.
          - unfold C. rewrite (drop_ge route) by lia. apply take_nil. }
        simpl. rewrite take_app, (take_ge B') by lia. by rewrite HC, app_nil_r. }
      assert (E3 : drop (k + 1) (A ++ B' ++ C) = C).
      { destruct (decide (k + 1 <= length route)) as [Hk|Hk].
        - rewrite app_assoc. apply drop_app_length'.
          rewrite length_app. lia.
        - unfold C. rewrite (drop_ge route) by lia.
          apply drop_ge. rewrite app_nil_r, length_app. lia. }
      by rewrite E1, E2, E3.
    + assert (HA : A = route) by (apply take_ge; lia).
      assert (HC : C = []) by (apply drop_ge; lia).
      destruct B'; [|simpl in HB'; lia].
      rewrite HA, HC. simpl. rewrite !app_nil_r.
      rewrite (take_ge route i) by lia.
      rewrite (drop_ge route (k + 1)) by lia.
      rewrite drop_ge by (rewrite length_take; lia).
      by rewrite app_nil_r.
Qed.

(** X9.  A 2-opt move is its own inverse: made twice at the same two
    positions [i <= k + 1] it gives the route back; made once it keeps
    the length of the route. *)
Theorem apply_two_opt_involutive (route : list nat) (i k : nat) :
  i <= k + 1 ->
  apply_two_opt (apply_two_opt route i k) i k = route /\
  length (apply_two_opt route i k) = length route.
Proof.
  intros Hik.
  destruct (apply_two_opt_parts route i k Hik) as (A & B & C & Hr & Ha & Hgen).
  split.
  - rewrite Ha, Hgen by apply length_reverse.
    by rewrite reverse_involutive.
  - rewrite Ha, Hr. rewrite !length_app, length_reverse. done.
Qed.

Lemma apply_two_opt_involutive_witness :
  1 <= 2 + 1 /\
  apply_two_opt (apply_two_opt line_route 1 2) 1 2 = line_route /\
  length (apply_two_opt line_route 1 2) = length line_route.
Proof.
  assert (H : 1 <= 2 + 1) by lia.
  split; [exact H|]. exact (apply_two_opt_involutive line_route 1 2 H).
Defined.

(** ** The search of the 2-opt pass *)

Lemma two_opt_fold_min (r : list nat) (D : distmat) (l : list (nat * nat)) :
  forall st : Q * option (nat * nat),
    let res := foldl (fun st m =>
                        let delta := two_opt_delta r m.1 m.2 D in
                        if Qltb delta st.1 then (delta, Some m) else st) st l in
    (res.1 <= st.1)%Q /\
    (forall m, m ∈ l -> (res.1 <= two_opt_delta r m.1 m.2 D)%Q) /\
    (res.2 = None -> st.2 = None /\ res.1 = st.1).
Proof.
  induction l as [|m l IH]; intros st; simpl.
  - split; [lra|]. split; [|done]. intros m Hm. by apply elem_of_nil in Hm.
  - destruct (Qltb (two_opt_delta r m.1 m.2 D) st.1) eqn:E.
    + apply Qltb_lt in E.
      destruct (IH (two_opt_delta r m.1 m.2 D, Some m)) as (H1 & H2 & H3).
      simpl in *. split; [lra|]. split.
      * intros m' Hm'. apply elem_of_cons in Hm' as [->|Hm']; [lra|].
        by apply H2.
      * intros HN. by destruct (H3 HN).
    + apply Qltb_ge in E.
      destruct (IH st) as (H1 & H2 & H3). cbv zeta in H1, H2, H3.
      split; [done|]. split; [|done].
      intros m' Hm'. apply elem_of_cons in Hm' as [->|Hm']; [|by apply H2].
      eapply Qle_trans; [exact H1 | exact E].
Qed.

Lemma two_opt_search_least (r : list nat) (D : distmat) (i k : nat) :
  1 <= i -> i < k -> k <= length r - 2 ->
  ((two_opt_search r D).1 <= two_opt_delta r i k D)%Q.
Proof.
  intros Hi Hik Hk.
  destruct (two_opt_fold_min r D (two_opt_moves r) (0%Q, None)) as (_ & H & _).
  apply (H (i, k)). apply elem_of_two_opt_moves. lia.
Qed.

Lemma two_opt_search_none (r : list nat) (D : distmat) (i k : nat) :
  (two_opt_search r D).2 = None ->
  1 <= i -> i < k -> k <= length r - 2 ->
  (0 <= two_opt_delta r i k D)%Q.
Proof.
  intros HN Hi Hik Hk.
  destruct (two_opt_fold_min r D (two_opt_moves r) (0%Q, None)) as (_ & H & H0).
  destruct (H0 HN) as [_ Hz]. simpl in Hz.
  pose proof (H (i, k)) as Hm. simpl in Hm. rewrite Hz in Hm.
  apply Hm. apply elem_of_two_opt_moves. lia.
Qed.

Lemma two_opt_sweep_unchanged (rs : list loc) (D : distmat) :
  forall (h : store) (rs' : list loc) (h' : store),
    two_opt_sweep rs D h = (rs', false, h') ->
    rs' = rs /\ h' = h /\
    forall l, l ∈ rs -> (two_opt_search (deref h l) D).2 = None.
Proof.
  induction rs as [|l rs IH]; intros h rs' h' Hrun.
  - injection Hrun as <- <-. repeat split. intros l Hl.
    by apply elem_of_nil in Hl.
  - simpl in Hrun. unfold bind at 1, read at 1 in Hrun.
    destruct (two_opt_search (deref h l) D).2 as [[i k]|] eqn:E.
    + unfold bind at 1, alloc at 1 in Hrun. unfold bind at 1 in Hrun.
      destruct (two_opt_sweep rs D _) as [[rs1 c1] h1]. by injection Hrun.
    + unfold bind at 1 in Hrun.
      destruct (two_opt_sweep rs D h) as [[rs1 c1] h1] eqn:Es.
      injection Hrun as <- -> <-.
      apply IH in Es as (-> & -> & Hall).
      repeat split. intros l' Hl'.
      apply elem_of_cons in Hl' as [->|Hl']; [done | by apply Hall].
Qed.

Lemma two_opt_passes_flag (n : nat) (D : distmat) :
  forall (rs : list loc) (h : store) (rs' : list loc) (c : bool) (h' : store),
    two_opt_passes n rs D true h = (rs', c, h') -> c = true.
Proof.
  induction n as [|n IH]; intros rs h rs' c h' Hrun.
  - by injection Hrun as <- <- <-.
  - simpl in Hrun. unfold bind at 1 in Hrun.
    destruct (two_opt_sweep rs D h) as [[rs1 c1] h1].
    simpl in Hrun. destruct c1; [by eapply IH|].
    by injection Hrun as <- <- <-.
Qed.

Lemma two_opt_pass_unchanged (rs : list loc) (D : distmat)
    (max_passes : nat) (h : store) (rs' : list loc) (h' : store) :
  improve_two_opt_intra rs D max_passes h = (rs', false, h') ->
  rs' = rs /\ h' = h /\
  (1 <= max_passes ->
   forall r i k,
     r ∈ routes_of h rs -> 1 <= i -> i < k -> k <= length r - 2 ->
     (0 <= two_opt_delta r i k D)%Q).
Proof.
  unfold improve_two_opt_intra. intros Hrun.
  destruct max_passes as [|n].
  - injection Hrun as <- <-. repeat split. lia.
  - simpl in Hrun. unfold bind at 1 in Hrun.
    destruct (two_opt_sweep rs D h) as [[rs1 c1] h1] eqn:Es.
    simpl in Hrun. destruct c1.
    + by apply two_opt_passes_flag in Hrun.
    + injection Hrun as <- <-.
      apply two_opt_sweep_unchanged in Es as (-> & -> & Hall).
      repeat split. intros _ r i k Hr Hi Hik Hk.
      unfold routes_of in Hr. apply list_elem_of_fmap in Hr as (l & -> & Hl).
      apply two_opt_search_none; auto.
Qed.

(** X11.  When the pass reports no improvement nothing was changed, and (a
    pass having run) no route has a 2-opt move of negative delta. *)
Theorem improve_two_opt_intra_local_optimum (rs : list loc) (D : distmat)
    (max_passes : nat) (h : store) (rs' : list loc) (h' : store) :
  improve_two_opt_intra rs D max_passes h = (rs', false, h') ->
  rs' = rs /\ h' = h /\
  (1 <= max_passes ->
   forall r i k,
     r ∈ routes_of h rs -> 1 <= i -> i < k -> k <= length r - 2 ->
     (0 <= two_opt_delta r i k D)%Q).
Proof. apply two_opt_pass_unchanged. Qed.

Lemma improve_two_opt_intra_local_optimum_witness :
  improve_two_opt_intra [0] line_dist 1 sorted_store
  = ([0], false, sorted_store) /\
  [0] = [0] /\ sorted_store = sorted_store /\
  (1 <= 1 ->
   forall r i k,
     r ∈ routes_of sorted_store [0] -> 1 <= i -> i < k -> k <= length r - 2 ->
     Qle 0 (two_opt_delta r i k line_dist)).
Proof.
  assert (H : improve_two_opt_intra [0] line_dist 1 sorted_store
              = ([0], false, sorted_store)) by (vm_compute; reflexivity).
  split; [exact H|].
  exact (improve_two_opt_intra_local_optimum [0] line_dist 1 sorted_store
           [0] sorted_store H).
Defined.

Lemma two_opt_route_shorter (D : distmat) (r : list nat) :
  symmetric D -> (two_opt_search r D).2 <> None ->
  (route_distance (two_opt_route D r) D < route_distance r D)%Q.
Proof.
  intros Hsym Hsome. unfold two_opt_route.
  destruct (two_opt_search r D).2 as [[i k]|] eqn:E; [|done].
  destruct (two_opt_search_best r D) as [_ Hbest].
  destruct (Hbest _ E) as [Hdelta Hneg]. simpl in Hdelta.
  apply two_opt_search_in, elem_of_two_opt_moves in E.
  pose proof (two_opt_delta_exact r i k D Hsym) as Hexact.
  rewrite <- Hdelta in Hexact.
  assert (Hx : ((two_opt_search r D).1
                == route_distance (apply_two_opt r i k) D - route_distance r D)%Q)
    by (apply Hexact; lia).
  lra.
Qed.

Lemma two_opt_routes_shorter (D : distmat) (routes : list (list nat)) :
  symmetric D ->
  (exists r, r ∈ routes /\ (two_opt_search r D).2 <> None) ->
  (total_distance (map (two_opt_route D) routes) D < total_distance routes D)%Q.
Proof.
  intros Hsym (r & Hr & Hsome). unfold total_distance.
  induction routes as [|r' routes IH]; [by apply elem_of_nil in Hr|].
  unfold Qsum. simpl.
  apply elem_of_cons in Hr as [<-|Hr].
  - pose proof (two_opt_route_shorter D r Hsym Hsome).
    pose proof (two_opt_routes_distance D routes Hsym) as Hle.
    unfold total_distance, Qsum in Hle. lra.
  - pose proof (two_opt_route_distance D r' Hsym).
    specialize (IH Hr). unfold Qsum in IH. lra.
Qed.

Lemma two_opt_sweep_changed (rs : list loc) (D : distmat) :
  forall (h : store) (rs' : list loc) (h' : store),
    two_opt_sweep rs D h = (rs', true, h') ->
    exists l, l ∈ rs /\ (two_opt_search (deref h l) D).2 <> None.
Proof.
  induction rs as [|l rs IH]; intros h rs' h' Hrun.
  - by injection Hrun.
  - simpl in Hrun. unfold bind at 1, read at 1 in Hrun.
    destruct (two_opt_search (deref h l) D).2 as [[i k]|] eqn:E.
    + exists l. split; [by left|]. by rewrite E.
    + unfold bind at 1 in Hrun.
      destruct (two_opt_sweep rs D h) as [[rs1 c1] h1] eqn:Es.
      injection Hrun as <- -> <-.
      apply IH in Es as (l' & Hl' & Hs). exists l'. split; [by right | done].
Qed.

(** X12.  On a symmetric matrix, a pass that reports an improvement has
    made the solution strictly shorter. *)
Theorem improve_two_opt_intra_shorter (rs : list loc) (D : distmat)
    (max_passes : nat) (h : store) (rs' : list loc) (h' : store) :
  symmetric D -> allocated h rs ->
  improve_two_opt_intra rs D max_passes h = (rs', true, h') ->
  (total_distance (routes_of h' rs') D < total_distance (routes_of h rs) D)%Q.
Proof.
  unfold improve_two_opt_intra. intros Hsym Hall Hrun.
  destruct max_passes as [|n]; [by injection Hrun|].
  simpl in Hrun. unfold bind at 1 in Hrun.
  destruct (two_opt_sweep rs D h) as [[rs1 c1] h1] eqn:Es.
  simpl in Hrun.
  destruct c1; [|by injection Hrun].
  pose proof (two_opt_sweep_changed _ _ _ _ _ Es) as (l & Hl & Hsome).
  apply two_opt_sweep_spec in Es as (ext & -> & Ha & Hr); [|done].
  apply two_opt_passes_spec in Hrun as (m & ext' & -> & Ha' & Hr'); [|done].
  rewrite Hr', Hr.
  pose proof (two_opt_iter_distance D m
                (map (two_opt_route D) (routes_of h rs)) Hsym) as H1.
  assert (H2 : (total_distance (map (two_opt_route D) (routes_of h rs)) D
                < total_distance (routes_of h rs) D)%Q).
  { apply two_opt_routes_shorter; [done|].
    exists (deref h l). split; [|done].
    unfold routes_of. apply list_elem_of_fmap. by exists l. }
  lra.
Qed.

Lemma improve_two_opt_intra_shorter_witness :
  symmetric line_dist /\ allocated rush_store [0] /\
  improve_two_opt_intra [0] line_dist 1 rush_store
  = ([1], true, [[0; 2; 1; 3; 0]; [0; 1; 2; 3; 0]]) /\
  Qlt (total_distance (routes_of [[0; 2; 1; 3; 0]; [0; 1; 2; 3; 0]] [1])
         line_dist)
      (total_distance (routes_of rush_store [0]) line_dist).
Proof.
  assert (H1 : allocated rush_store [0]) by (repeat constructor).
  assert (H2 : improve_two_opt_intra [0] line_dist 1 rush_store
               = ([1], true, [[0; 2; 1; 3; 0]; [0; 1; 2; 3; 0]]))
    by (vm_compute; reflexivity).
  split; [exact line_dist_symmetric|]. split; [exact H1|]. split; [exact H2|].
  exact (improve_two_opt_intra_shorter [0] line_dist 1 rush_store [1] _
           line_dist_symmetric H1 H2).
Defined.

Lemma two_opt_single_pass (rs : list loc) (D : distmat) (h : store)
    (rs' : list loc) (b : bool) (h' : store) :
  allocated h rs ->
  improve_two_opt_intra rs D 1 h = (rs', b, h') ->
  routes_of h' rs' = map (two_opt_route D) (routes_of h rs).
Proof.
  intros Hall Hrun. unfold improve_two_opt_intra in Hrun. simpl in Hrun.
  unfold bind at 1 in Hrun.
  destruct (two_opt_sweep rs D h) as [[rs1 c1] h1] eqn:Es.
  apply two_opt_sweep_spec in Es as (ext & -> & _ & Hr); [|done].
  simpl in Hrun. destruct c1; by injection Hrun as <- <- <-.
Qed.

(** X10.  One 2-opt pass makes, in every route, the move of the most
    negative delta among the pairs [1 <= i < k <= len(route) - 2], and
    leaves alone the routes that have no move of negative delta. *)
Theorem improve_two_opt_intra_best_move (rs : list loc) (D : distmat)
    (h : store) (rs' : list loc) (b : bool) (h' : store) :
  allocated h rs ->
  improve_two_opt_intra rs D 1 h = (rs', b, h') ->
  length (routes_of h' rs') = length (routes_of h rs) /\
  forall j r r',
    routes_of h rs !! j = Some r -> routes_of h' rs' !! j = Some r' ->
    (r' = r /\
     forall i k, 1 <= i -> i < k -> k <= length r - 2 ->
                 Qle 0 (two_opt_delta r i k D)) \/
    (exists i k,
       1 <= i /\ i < k /\ k <= length r - 2 /\
       r' = apply_two_opt r i k /\
       Qlt (two_opt_delta r i k D) 0 /\
       forall i' k', 1 <= i' -> i' < k' -> k' <= length r - 2 ->
                     Qle (two_opt_delta r i k D) (two_opt_delta r i' k' D)).
Proof.
  intros Hall Hrun.
  rewrite (two_opt_single_pass _ _ _ _ _ _ Hall Hrun).
  split; [by rewrite length_map|].
  intros j r r' Hr Hr'. rewrite list_lookup_fmap, Hr in Hr'.
  injection Hr' as <-. unfold two_opt_route.
  destruct (two_opt_search r D).2 as [[i k]|] eqn:E.
  - right. exists i, k.
    destruct (two_opt_search_best r D) as [_ Hbest].
    destruct (Hbest _ E) as [Hdelta Hneg]. simpl in Hdelta.
    apply two_opt_search_in, elem_of_two_opt_moves in E.
    split; [lia|]. split; [lia|]. split; [lia|]. split; [done|].
    rewrite <- Hdelta. split; [done|].
    intros i' k'. apply two_opt_search_least.
  - left. split; [done|]. intros i k. by apply two_opt_search_none.
Qed.

Lemma improve_two_opt_intra_best_move_witness :
  allocated rush_store [0] /\
  improve_two_opt_intra [0] line_dist 1 rush_store
  = ([1], true, [[0; 2; 1; 3; 0]; [0; 1; 2; 3; 0]]) /\
  length (routes_of [[0; 2; 1; 3; 0]; [0; 1; 2; 3; 0]] [1])
  = length (routes_of rush_store [0]) /\
  forall j r r',
    routes_of rush_store [0] !! j = Some r ->
    routes_of [[0; 2; 1; 3; 0]; [0; 1; 2; 3; 0]] [1] !! j = Some r' ->
    (r' = r /\
     forall i k, 1 <= i -> i < k -> k <= length r - 2 ->
                 Qle 0 (two_opt_delta r i k line_dist)) \/
    (exists i k,
       1 <= i /\ i < k /\ k <= length r - 2 /\
       r' = apply_two_opt r i k /\
       Qlt (two_opt_delta r i k line_dist) 0 /\
       forall i' k', 1 <= i' -> i' < k' -> k' <= length r - 2 ->
                     Qle (two_opt_delta r i k line_dist)
                         (two_opt_delta r i' k' line_dist)).
Proof.
  assert (H1 : allocated rush_store [0]) by (repeat constructor).
  assert (H2 : improve_two_opt_intra [0] line_dist 1 rush_store
               = ([1], true, [[0; 2; 1; 3; 0]; [0; 1; 2; 3; 0]]))
    by (vm_compute; reflexivity).
  split; [exact H1|]. split; [exact H2|].
  exact (improve_two_opt_intra_best_move [0] line_dist rush_store [1] true _
           H1 H2).
Defined.

(** ** Relocate: optima, gains and the cells it touches *)

Lemma relocate_candidate_in (routes : list (list nat))
    (instance : VRPInstance) (D : distmat) (mv : move) :
  relocate_candidate routes instance mv ->
  (relocate_gain routes D mv, mv) ∈ relocate_moves routes instance D.
Proof.
  destruct mv as [[[ra ia] rb] jb].
  intros (Hra & Hia & Hrb & Hjb & Hsame & Hcap).
  unfold relocate_moves.
  apply list_elem_of_bind. exists ra. split; [|apply elem_of_range; lia].
  apply list_elem_of_bind. exists ia. split; [|apply elem_of_range; lia].
  apply list_elem_of_bind. exists rb. split; [|apply elem_of_range; lia].
  destruct (Nat.eqb_spec ra rb) as [Heq|Hne].
  - destruct (Hsame Heq) as (Hlen & Hj1 & Hj2).
    replace (length (routes !!! ra) <=? 3) with false
      by (symmetry; apply Nat.leb_gt; lia).
    simpl.
    apply list_elem_of_bind. exists jb. split; [|apply elem_of_range; lia].
    replace (jb =? ia) with false by (symmetry; by apply Nat.eqb_neq).
    replace (jb =? ia + 1) with false by (symmetry; by apply Nat.eqb_neq).
    simpl. by apply list_elem_of_singleton.
  - simpl.
    replace (vehicle_capacity instance
             <? route_demand (routes !!! rb) (all_nodes instance)
                + demand (node_at (all_nodes instance) ((routes !!! ra) !!! ia)))%Z
      with false by (symmetry; apply Z.ltb_ge; by apply Hcap).
    apply list_elem_of_bind. exists jb. split; [|apply elem_of_range; lia].
    by apply list_elem_of_singleton.
Qed.

Lemma relocate_moves_candidate (routes : list (list nat))
    (instance : VRPInstance) (D : distmat) (g : Q) (mv : move) :
  (g, mv) ∈ relocate_moves routes instance D ->
  relocate_candidate routes instance mv /\ g = relocate_gain routes D mv.
Proof.
  intros Hin. split; [|by eapply relocate_moves_gain].
  destruct mv as [[[ra ia] rb] jb].
  by apply elem_of_relocate_moves in Hin.
Qed.

Lemma relocate_fold_max (l : list (Q * move)) :
  forall st : Q * option move,
    let res := foldl (fun st gm =>
                        if Qltb st.1 gm.1 then (gm.1, Some gm.2) else st)
                     st l in
    (st.1 <= res.1)%Q /\
    (forall gm, gm ∈ l -> (gm.1 <= res.1)%Q) /\
    (res.2 = None -> st.2 = None /\ res.1 = st.1).
Proof.
  induction l as [|gm l IH]; intros st; simpl.
  - split; [lra|]. split; [|done]. intros m Hm. by apply elem_of_nil in Hm.
  - destruct (Qltb st.1 gm.1) eqn:E.
    + apply Qltb_lt in E.
      destruct (IH (gm.1, Some gm.2)) as (H1 & H2 & H3).
      cbv zeta in H1, H2, H3. simpl in H1, H3.
      split; [lra|]. split.
      * intros m' Hm'. apply elem_of_cons in Hm' as [->|Hm']; [done|].
        by apply H2.
      * intros HN. by destruct (H3 HN).
    + apply Qltb_ge in E.
      destruct (IH st) as (H1 & H2 & H3). cbv zeta in H1, H2, H3.
      split; [done|]. split; [|done].
      intros m' Hm'. apply elem_of_cons in Hm' as [->|Hm']; [|by apply H2].
      eapply Qle_trans; [exact E | exact H1].
Qed.

Lemma relocate_search_greatest (routes : list (list nat))
    (instance : VRPInstance) (D : distmat) (mv : move) :
  relocate_candidate routes instance mv ->
  (relocate_gain routes D mv <= (relocate_search routes instance D).1)%Q.
Proof.
  intros Hc.
  destruct (relocate_fold_max (relocate_moves routes instance D) (0%Q, None))
    as (_ & H & _).
  apply (H (relocate_gain routes D mv, mv)).
  by apply relocate_candidate_in.
Qed.

Lemma relocate_search_zero (routes : list (list nat))
    (instance : VRPInstance) (D : distmat) :
  (relocate_search routes instance D).2 = None ->
  (relocate_search routes instance D).1 = 0%Q.
Proof.
  intros HN.
  destruct (relocate_fold_max (relocate_moves routes instance D) (0%Q, None))
    as (_ & _ & H).
  by destruct (H HN).
Qed.

Lemma relocate_pass_unchanged (rs : list loc) (instance : VRPInstance)
    (D : distmat) (h : store) (rs' : list loc) (h' : store) :
  relocate_best_improvement rs instance D h = (rs', false, h') ->
  rs' = rs /\ h' = h /\
  forall mv,
    relocate_candidate (routes_of h rs) instance mv ->
    (relocate_gain (routes_of h rs) D mv <= relocate_eps)%Q.
Proof.
  intros Hrun.
  unfold relocate_best_improvement, bind at 1, read_all at 1 in Hrun.
  pose proof (relocate_search_greatest (routes_of h rs) instance D) as Hmax.
  pose proof (relocate_search_zero (routes_of h rs) instance D) as Hzero.
  destruct (relocate_search (routes_of h rs) instance D) as [g [mv|]] eqn:Es.
  - destruct mv as [[[ra ia] rb] jb].
    destruct (Qltb relocate_eps g) eqn:Eg.
    + unfold bind, read, update, read_all, ret in Hrun. by injection Hrun.
    + injection Hrun as <- <-. repeat split.
      intros mv Hc. apply Qltb_ge in Eg. specialize (Hmax mv Hc). simpl in Hmax.
      lra.
  - injection Hrun as <- <-. repeat split.
    intros mv Hc. specialize (Hmax mv Hc). simpl in Hmax, Hzero.
    rewrite (Hzero eq_refl) in Hmax. unfold relocate_eps.
    eapply Qle_trans; [exact Hmax|]. done.
Qed.

(** X15.  When relocate reports no move nothing was changed, and no move
    that its loops evaluate gains more than the threshold. *)
Theorem relocate_best_improvement_local_optimum (rs : list loc)
    (instance : VRPInstance) (D : distmat) (h : store) (rs' : list loc)
    (h' : store) :
  relocate_best_improvement rs instance D h = (rs', false, h') ->
  rs' = rs /\ h' = h /\
  forall mv,
    relocate_candidate (routes_of h rs) instance mv ->
    (relocate_gain (routes_of h rs) D mv <= relocate_eps)%Q.
Proof. apply relocate_pass_unchanged. Qed.

Lemma relocate_best_improvement_local_optimum_witness :
  relocate_best_improvement [0] rush_instance line_dist sorted_store
  = ([0], false, sorted_store) /\
  [0] = [0] /\ sorted_store = sorted_store /\
  forall mv,
    relocate_candidate (routes_of sorted_store [0]) rush_instance mv ->
    Qle (relocate_gain (routes_of sorted_store [0]) line_dist mv)
        relocate_eps.
Proof.
  assert (H : relocate_best_improvement [0] rush_instance line_dist sorted_store
              = ([0], false, sorted_store)) by (vm_compute; reflexivity).
  split; [exact H|].
  exact (relocate_best_improvement_local_optimum [0] rush_instance line_dist
           sorted_store [0] sorted_store H).
Defined.

Lemma relocate_search_candidate (routes : list (list nat))
    (instance : VRPInstance) (D : distmat) (g : Q) (mv : move) :
  relocate_search routes instance D = (g, Some mv) ->
  relocate_candidate routes instance mv /\ g = relocate_gain routes D mv /\
  forall mv', relocate_candidate routes instance mv' ->
              (relocate_gain routes D mv' <= g)%Q.
Proof.
  intros Es.
  pose proof (relocate_search_greatest routes instance D) as Hmax.
  rewrite Es in Hmax. simpl in Hmax.
  apply relocate_search_in, relocate_moves_candidate in Es as [Hc Hg].
  by repeat split.
Qed.

(** X16.  A move to another route, or to an earlier place of its own
    route, shortens the solution by exactly its gain, which is the
    greatest gain of all evaluated moves and exceeds the threshold. *)
Theorem relocate_best_improvement_gain (rs : list loc)
    (instance : VRPInstance) (D : distmat) (h : store) (rs' : list loc)
    (h' : store) :
  NoDup rs -> allocated h rs ->
  relocate_move_regular (routes_of h rs) instance D ->
  relocate_best_improvement rs instance D h = (rs', true, h') ->
  exists mv,
    relocate_candidate (routes_of h rs) instance mv /\
    (relocate_eps < relocate_gain (routes_of h rs) D mv)%Q /\
    (forall mv', relocate_candidate (routes_of h rs) instance mv' ->
                 (relocate_gain (routes_of h rs) D mv'
                  <= relocate_gain (routes_of h rs) D mv)%Q) /\
    (total_distance (routes_of h' rs') D
     == total_distance (routes_of h rs) D
        - relocate_gain (routes_of h rs) D mv)%Q.
Proof.
  intros Hnd Hall Hreg Hrun.
  pose proof (relocate_best_improvement_spec _ _ _ _ _ _ _ Hnd Hall Hrun)
    as (-> & _ & Hroutes & _).
  rewrite Hroutes. clear Hroutes.
  unfold relocate_best_improvement, bind at 1, read_all at 1 in Hrun.
  unfold relocate_move_regular in Hreg. unfold relocate_routes.
  destruct (relocate_search (routes_of h rs) instance D) as [g [mv|]] eqn:Es;
    [|by injection Hrun].
  destruct mv as [[[ra ia] rb] jb].
  destruct (Qltb relocate_eps g) eqn:Eg; [|by injection Hrun].
  specialize (Hreg eq_refl). apply Qltb_lt in Eg.
  apply relocate_search_candidate in Es as (Hc & -> & Hmax).
  exists (ra, ia, rb, jb). split; [done|]. split; [done|]. split; [done|].
  destruct Hc as (Hra & Hia & Hrb & Hjb & _).
  by apply relocate_apply_distance.
Qed.

Lemma relocate_best_improvement_gain_witness :
  NoDup [0; 1] /\ allocated pair_store [0; 1] /\
  relocate_move_regular (routes_of pair_store [0; 1]) pair_instance pair_dist /\
  relocate_best_improvement [0; 1] pair_instance pair_dist pair_store
  = ([0; 1], true, [[0; 0]; [0; 1; 2; 0]]) /\
  exists mv,
    relocate_candidate (routes_of pair_store [0; 1]) pair_instance mv /\
    Qlt relocate_eps (relocate_gain (routes_of pair_store [0; 1]) pair_dist mv) /\
    (forall mv',
       relocate_candidate (routes_of pair_store [0; 1]) pair_instance mv' ->
       Qle (relocate_gain (routes_of pair_store [0; 1]) pair_dist mv')
           (relocate_gain (routes_of pair_store [0; 1]) pair_dist mv)) /\
    Qeq (total_distance (routes_of [[0; 0]; [0; 1; 2; 0]] [0; 1]) pair_dist)
        (Qminus (total_distance (routes_of pair_store [0; 1]) pair_dist)
                (relocate_gain (routes_of pair_store [0; 1]) pair_dist mv)).
Proof.
  assert (H1 : NoDup [0; 1]) by exact NoDup_two.
  assert (H2 : allocated pair_store [0; 1]) by (repeat constructor).
  assert (H3 : relocate_best_improvement [0; 1] pair_instance pair_dist
                 pair_store = ([0; 1], true, [[0; 0]; [0; 1; 2; 0]]))
    by (vm_compute; reflexivity).
  split; [exact H1|]. split; [exact H2|].
  split; [exact pair_move_regular|]. split; [exact H3|].
  exact (relocate_best_improvement_gain [0; 1] pair_instance pair_dist
           pair_store [0; 1] _ H1 H2 pair_move_regular H3).
Defined.

(** X17.  Relocate hands back the very list of route objects it was given,
    none removed, added or put elsewhere; it allocates nothing and
    changes at most two route objects, both of the solution. *)
Theorem relocate_best_improvement_frame (rs : list loc)
    (instance : VRPInstance) (D : distmat) (h : store) :
  let res := relocate_best_improvement rs instance D h in
  res.1.1 = rs /\ length res.2 = length h /\
  exists la lb,
    (res.1.2 = true -> la ∈ rs /\ lb ∈ rs) /\
    forall l, l <> la -> l <> lb -> res.2 !! l = h !! l.
Proof.
  cbv zeta.
  destruct (relocate_best_improvement rs instance D h) as [[rs' b] h'] eqn:Hrun.
  cbn [fst snd].
  unfold relocate_best_improvement, bind at 1, read_all at 1 in Hrun.
  destruct (relocate_search (routes_of h rs) instance D) as [g [mv|]] eqn:Es.
  2:{ injection Hrun as <- <- <-. split; [done|]. split; [done|].
      exists 0, 0. by split. }
  destruct mv as [[[ra ia] rb] jb].
  destruct (Qltb relocate_eps g).
  2:{ injection Hrun as <- <- <-. split; [done|]. split; [done|].
      exists 0, 0. by split. }
  apply relocate_search_in, elem_of_relocate_moves in Es
    as (Hra & Hia & Hrb & Hjb & _).
  rewrite routes_of_length in Hra, Hrb.
  unfold bind, read, update, read_all, ret in Hrun.
  injection Hrun as <- <- <-.
  split; [apply relocate_keep_locs; by rewrite routes_of_length|].
  split; [by rewrite !length_insert|].
  exists (rs !!! ra), (rs !!! rb). split.
  - intros _. split; apply list_elem_of_lookup_total_2; lia.
  - intros l Hla Hlb. by rewrite !list_lookup_insert_ne.
Qed.

Lemma insert_after_delete (r : list nat) (ia jb c : nat) :
  ia < jb -> ia < length r ->
  py_insert jb c (delete ia r)
  = take ia r ++ drop (S ia) (take (S jb) r) ++ c :: drop (S jb) r.
Proof.
  intros Hlt Hia. unfold py_insert. rewrite delete_take_drop.
  assert (HA : length (take ia r) = ia) by (rewrite length_take; lia).
  rewrite take_app, drop_app, HA.
  rewrite (take_ge (take ia r)) by lia.
  rewrite (drop_ge (take ia r)) by lia.
  rewrite <- app_assoc. f_equal. simpl. f_equal.
  - rewrite take_drop_commute. do 2 f_equal. lia.
  - f_equal. rewrite drop_drop. f_equal. lia.
Qed.

(** X18.  A move to a later place of the customer's own route is carried
    out one place further on than it was evaluated: the customer is put
    behind the entry at position [jb], not in front of it. *)
Theorem relocate_later_place_shifted (rs : list loc)
    (instance : VRPInstance) (D : distmat) (h : store) (g : Q)
    (ra ia jb : nat) :
  NoDup rs -> allocated h rs ->
  relocate_search (routes_of h rs) instance D = (g, Some (ra, ia, ra, jb)) ->
  (relocate_eps < g)%Q -> ia < jb ->
  let res := relocate_best_improvement rs instance D h in
  let r := routes_of h rs !!! ra in
  let r' := routes_of res.2 res.1.1 !!! ra in
  res.1.2 = true /\
  r' = take ia r ++ drop (S ia) (take (S jb) r) ++ r !!! ia :: drop (S jb) r /\
  (jb = length r - 1 -> last r' = Some (r !!! ia)).
Proof.
  intros Hnd Hall Es Hg Hlt. cbv zeta.
  destruct (relocate_best_improvement rs instance D h) as [[rs' b] h'] eqn:Hrun.
  cbn [fst snd].
  pose proof (relocate_best_improvement_spec _ _ _ _ _ _ _ Hnd Hall Hrun)
    as (-> & _ & Hroutes & _).
  rewrite Hroutes. unfold relocate_routes. rewrite Es.
  apply Qltb_lt in Hg. rewrite Hg.
  pose proof Es as Hin.
  apply relocate_search_in, elem_of_relocate_moves in Hin
    as (Hra & Hia & _ & Hjb & _).
  assert (Hb : b = true).
  { unfold relocate_best_improvement, bind at 1, read_all at 1 in Hrun.
    rewrite Es, Hg in Hrun.
    unfold bind, read, update, read_all, ret in Hrun. by injection Hrun. }
  split; [done|].
  assert (Hr' : relocate_apply (routes_of h rs) (ra, ia, ra, jb) !!! ra
                = take ia (routes_of h rs !!! ra)
                  ++ drop (S ia) (take (S jb) (routes_of h rs !!! ra))
                  ++ (routes_of h rs !!! ra) !!! ia
                     :: drop (S jb) (routes_of h rs !!! ra)).
  { unfold relocate_apply.
    rewrite list_lookup_total_insert_eq by (by rewrite length_insert).
    rewrite list_lookup_total_insert_eq by done.
    apply insert_after_delete; lia. }
  split; [exact Hr'|].
  intros Hlast. rewrite Hr'.
  rewrite (drop_ge _ (S jb)) by lia.
  rewrite app_assoc. apply last_snoc.
Qed.

Lemma relocate_later_place_shifted_witness :
  NoDup [0] /\ allocated rect_swept_store [0] /\
  relocate_search (routes_of rect_swept_store [0]) rect_instance rect_dist
  = (2%Q, Some (0, 1, 0, 3)) /\
  (relocate_eps < 2)%Q /\ 1 < 3 /\
  let res := relocate_best_improvement [0] rect_instance rect_dist
               rect_swept_store in
  let r := routes_of rect_swept_store [0] !!! 0 in
  let r' := routes_of res.2 res.1.1 !!! 0 in
  res.1.2 = true /\
  r' = take 1 r ++ drop 2 (take 4 r) ++ r !!! 1 :: drop 4 r /\
  (3 = length r - 1 -> last r' = Some (r !!! 1)).
Proof.
  assert (H1 : NoDup [0]) by exact NoDup_one.
  assert (H2 : allocated rect_swept_store [0]) by (repeat constructor).
  assert (H3 : relocate_search (routes_of rect_swept_store [0]) rect_instance
                 rect_dist = (2%Q, Some (0, 1, 0, 3)))
    by (vm_compute; reflexivity).
  assert (H4 : (relocate_eps < 2)%Q) by reflexivity.
  assert (H5 : 1 < 3) by lia.
  split; [exact H1|]. split; [exact H2|]. split; [exact H3|].
  split; [exact H4|]. split; [exact H5|].
  exact (relocate_later_place_shifted [0] rect_instance rect_dist
           rect_swept_store 2 0 1 3 H1 H2 H3 H4 H5).
Defined.

(** ** The form of the routes and the route objects *)

Lemma apply_two_opt_inner (mid : list nat) (i k : nat) :
  1 <= i -> i <= k -> k <= length mid ->
  exists mid', apply_two_opt (0 :: mid ++ [0]) i k = 0 :: mid' ++ [0] /\
               mid' ≡ₚ mid.
Proof.
  intros Hi Hik Hk.
  exists (apply_two_opt mid (i - 1) (k - 1)).
  split; [|apply apply_two_opt_perm; lia].
  unfold apply_two_opt.
  destruct i as [|i]; [lia|]. simpl. rewrite Nat.sub_0_r.
  replace (k + 1) with (S k) by lia. simpl.
  destruct k as [|k]; [lia|]. simpl. rewrite Nat.sub_0_r.
  replace (k + 1) with (S k) by lia.
  f_equal.
  rewrite (take_app_le mid [0] i) by lia.
  rewrite (take_app_le mid [0] (S k)) by lia.
  rewrite (drop_app_le mid [0] (S k)) by lia.
  by rewrite <- !app_assoc.
Qed.

Lemma two_opt_route_proper (D : distmat) (r : list nat) :
  proper_route r -> proper_route (two_opt_route D r).
Proof.
  intros (mid & -> & Hmid). unfold two_opt_route.
  destruct (two_opt_search _ D).2 as [[i k]|] eqn:E; [|by exists mid].
  apply two_opt_search_in, elem_of_two_opt_moves in E.
  rewrite length_cons, length_app in E. simpl in E.
  destruct (apply_two_opt_inner mid i k) as (mid' & -> & Hp); [lia..|].
  exists mid'. split; [done|]. by rewrite Hp.
Qed.

(** X14.  A 2-opt pass keeps every route in the form depot, customers,
    depot. *)
Theorem improve_two_opt_intra_proper (rs : list loc) (D : distmat)
    (max_passes : nat) (h : store) :
  allocated h rs ->
  Forall proper_route (routes_of h rs) ->
  let res := improve_two_opt_intra rs D max_passes h in
  Forall proper_route (routes_of res.2 res.1.1) /\
  length res.1.1 = length rs.
Proof.
  intros Hall Hp. cbv zeta.
  destruct (improve_two_opt_intra rs D max_passes h) as [[rs' c] h'] eqn:Hrun.
  cbn [fst snd].
  apply improve_two_opt_intra_spec in Hrun as (m & ext & -> & Ha & Hr); [|done].
  split.
  - rewrite Hr. clear Hr. induction m as [|m IH]; [done|].
    simpl. apply Forall_fmap. eapply Forall_impl; [exact IH|].
    intros r. apply two_opt_route_proper.
  - apply (f_equal length) in Hr. rewrite routes_of_length in Hr.
    rewrite Hr. clear. induction m as [|m IH]; simpl.
    + apply routes_of_length.
    + by rewrite length_map.
Qed.

Lemma improve_two_opt_intra_proper_witness :
  allocated rush_store [0] /\
  Forall proper_route (routes_of rush_store [0]) /\
  let res := improve_two_opt_intra [0] line_dist 1 rush_store in
  Forall proper_route (routes_of res.2 res.1.1) /\
  length res.1.1 = length [0].
Proof.
  assert (H1 : allocated rush_store [0]) by (repeat constructor).
  assert (H2 : Forall proper_route (routes_of rush_store [0])).
  { repeat constructor. exists [2; 1; 3]. split; [reflexivity|].
    repeat constructor; lia. }
  split; [exact H1|]. split; [exact H2|].
  exact (improve_two_opt_intra_proper [0] line_dist 1 rush_store H1 H2).
Defined.

Lemma two_opt_sweep_cells (rs : list loc) (D : distmat) :
  forall (h : store) (rs' : list loc) (c : bool) (h' : store),
    two_opt_sweep rs D h = (rs', c, h') ->
    length h <= length h' /\
    forall j l', rs' !! j = Some l' -> rs !! j = Some l' \/ length h <= l'.
Proof.
  induction rs as [|l rs IH]; intros h rs' c h' Hrun.
  - injection Hrun as <- <- <-. split; [done|]. intros j l' Hj.
    by rewrite lookup_nil in Hj.
  - simpl in Hrun. unfold bind at 1, read at 1 in Hrun.
    destruct (two_opt_search (deref h l) D).2 as [[i k]|].
    + unfold bind at 1, alloc at 1 in Hrun. unfold bind at 1 in Hrun.
      destruct (two_opt_sweep rs D _) as [[rs1 c1] h1] eqn:Es.
      apply IH in Es as [Hlen Hcells]. rewrite length_app in Hlen, Hcells.
      simpl in Hlen, Hcells.
      injection Hrun as <- <- <-. split; [lia|].
      intros [|j] l' Hj; simpl in Hj.
      * injection Hj as <-. right. lia.
      * destruct (Hcells j l' Hj); [by left | right; lia].
    + unfold bind at 1 in Hrun.
      destruct (two_opt_sweep rs D h) as [[rs1 c1] h1] eqn:Es.
      apply IH in Es as [Hlen Hcells].
      injection Hrun as <- <- <-. split; [done|].
      intros [|j] l' Hj; simpl in Hj; [by left|]. by apply Hcells.
Qed.

Lemma two_opt_passes_cells (n : nat) (D : distmat) :
  forall (rs : list loc) (improved : bool) (h : store)
         (rs' : list loc) (c : bool) (h' : store),
    two_opt_passes n rs D improved h = (rs', c, h') ->
    length h <= length h' /\
    forall j l', rs' !! j = Some l' -> rs !! j = Some l' \/ length h <= l'.
Proof.
  induction n as [|n IH]; intros rs improved h rs' c h' Hrun.
  - injection Hrun as <- <- <-. split; [done|]. by left.
  - simpl in Hrun. unfold bind at 1 in Hrun.
    destruct (two_opt_sweep rs D h) as [[rs1 c1] h1] eqn:Es.
    apply two_opt_sweep_cells in Es as [Hlen1 Hc1].
    simpl in Hrun. destruct c1.
    + apply IH in Hrun as [Hlen Hc]. split; [lia|].
      intros j l' Hj. destruct (Hc j l' Hj) as [H1|H1]; [|right; lia].
      by apply Hc1.
    + by injection Hrun as <- <- <-.
Qed.

(** X13.  A 2-opt pass changes no existing route object.  A route it
    changes is a new object; a route it leaves alone is the object it
    was. *)
Theorem improve_two_opt_intra_cells (rs : list loc) (D : distmat)
    (max_passes : nat) (h : store) :
  allocated h rs ->
  let res := improve_two_opt_intra rs D max_passes h in
  (exists ext, res.2 = h ++ ext) /\
  forall j l', res.1.1 !! j = Some l' -> rs !! j = Some l' \/ length h <= l'.
Proof.
  intros Hall. cbv zeta.
  destruct (improve_two_opt_intra rs D max_passes h) as [[rs' c] h'] eqn:Hrun.
  cbn [fst snd]. split.
  - apply improve_two_opt_intra_spec in Hrun as (m & ext & -> & _); [|done].
    by exists ext.
  - by apply two_opt_passes_cells in Hrun as [_ H].
Qed.

Lemma improve_two_opt_intra_cells_witness :
  allocated rush_store [0] /\
  let res := improve_two_opt_intra [0] line_dist 1 rush_store in
  (exists ext, res.2 = rush_store ++ ext) /\
  forall j l', res.1.1 !! j = Some l' ->
               [0] !! j = Some l' \/ length rush_store <= l'.
Proof.
  assert (H1 : allocated rush_store [0]) by (repeat constructor).
  split; [exact H1|].
  exact (improve_two_opt_intra_cells [0] line_dist 1 rush_store H1).
Defined.

Lemma delete_proper (r : list nat) (ia : nat) :
  proper_route r -> 1 <= ia < length r - 1 ->
  proper_route (delete ia r) /\ r !!! ia <> 0 /\
  length (delete ia r) = length r - 1.
Proof.
  intros (mid & -> & Hmid) Hia.
  rewrite length_cons, length_app in Hia. simpl in Hia.
  destruct ia as [|ia]; [lia|].
  assert (Hlt : ia < length mid) by lia.
  destruct (lookup_lt_is_Some_2 mid ia Hlt) as [c Hc].
  split; [|split].
  - exists (delete ia mid). split.
    + simpl. f_equal. rewrite !delete_take_drop.
      rewrite (take_app_le mid [0] ia) by lia.
      rewrite (drop_app_le mid [0] (S ia)) by lia.
      by rewrite <- app_assoc.
    + rewrite delete_take_drop. apply Forall_app. split.
      * by apply Forall_take.
      * by apply Forall_drop.
  - change ((0 :: mid ++ [0]) !!! S ia) with ((mid ++ [0]) !!! ia).
    rewrite lookup_total_app_l by done.
    rewrite (list_lookup_total_correct _ _ _ Hc).
    by apply (Forall_lookup_1 _ _ _ _ Hmid Hc).
  - rewrite length_delete by (apply lookup_lt_is_Some_2;
                              rewrite length_cons, length_app; simpl; lia).
    done.
Qed.

Lemma py_insert_proper (r : list nat) (jb c : nat) :
  proper_route r -> c <> 0 -> 1 <= jb < length r ->
  proper_route (py_insert jb c r).
Proof.
  intros (mid & -> & Hmid) Hc Hjb.
  rewrite length_cons, length_app in Hjb. simpl in Hjb.
  destruct jb as [|jb]; [lia|].
  exists (py_insert jb c mid). split.
  - unfold py_insert. simpl. f_equal.
    rewrite (take_app_le mid [0] jb) by lia.
    rewrite (drop_app_le mid [0] jb) by lia.
    by rewrite <- app_assoc.
  - unfold py_insert. apply Forall_app. split; [by apply Forall_take|].
    apply Forall_cons. split; [done | by apply Forall_drop].
Qed.

Lemma relocate_apply_proper (routes : list (list nat)) (ra ia rb jb : nat) :
  ra < length routes -> 1 <= ia < length (routes !!! ra) - 1 ->
  rb < length routes -> 1 <= jb < length (routes !!! rb) ->
  ra <> rb \/ jb < ia ->
  Forall proper_route routes ->
  Forall proper_route (relocate_apply routes (ra, ia, rb, jb)).
Proof.
  intros Hra Hia Hrb Hjb Hreg Hp. unfold relocate_apply.
  assert (HpA : proper_route (routes !!! ra)).
  { eapply Forall_lookup_1; [exact Hp|]. by apply list_lookup_lookup_total_lt. }
  destruct (delete_proper _ ia HpA Hia) as (Hdel & Hc & Hlen).
  assert (Hp1 : Forall proper_route (<[ra := delete ia (routes !!! ra)]> routes))
    by (by apply Forall_insert).
  apply Forall_insert; [done|].
  apply py_insert_proper; [|done|].
  - eapply Forall_lookup_1; [exact Hp1|].
    apply list_lookup_lookup_total_lt. by rewrite length_insert.
  - destruct (decide (ra = rb)) as [<-|Hne].
    + destruct Hreg as [?|Hlt]; [done|].
      rewrite list_lookup_total_insert_eq by done. lia.
    + by rewrite list_lookup_total_insert_ne.
Qed.

(** X19.  Relocate keeps every route in the form depot, customers, depot
    when its move goes to another route or to an earlier place of the
    same route. *)
Theorem relocate_best_improvement_proper (rs : list loc)
    (instance : VRPInstance) (D : distmat) (h : store) :
  NoDup rs -> allocated h rs ->
  relocate_move_regular (routes_of h rs) instance D ->
  Forall proper_route (routes_of h rs) ->
  let res := relocate_best_improvement rs instance D h in
  Forall proper_route (routes_of res.2 res.1.1).
Proof.
  intros Hnd Hall Hreg Hp. cbv zeta.
  destruct (relocate_best_improvement rs instance D h) as [[rs' b] h'] eqn:Hrun.
  cbn [fst snd].
  pose proof (relocate_best_improvement_spec _ _ _ _ _ _ _ Hnd Hall Hrun)
    as (-> & _ & -> & _).
  unfold relocate_move_regular in Hreg. unfold relocate_routes.
  destruct (relocate_search (routes_of h rs) instance D) as [g [mv|]] eqn:Es;
    [|done].
  destruct mv as [[[ra ia] rb] jb].
  destruct (Qltb relocate_eps g) eqn:Eg; [|done].
  specialize (Hreg eq_refl).
  apply relocate_search_in, elem_of_relocate_moves in Es
    as (Hra & Hia & Hrb & Hjb & _).
  by apply relocate_apply_proper.
Qed.

Lemma relocate_best_improvement_proper_witness :
  NoDup [0; 1] /\ allocated pair_store [0; 1] /\
  relocate_move_regular (routes_of pair_store [0; 1]) pair_instance pair_dist /\
  Forall proper_route (routes_of pair_store [0; 1]) /\
  let res := relocate_best_improvement [0; 1] pair_instance pair_dist
               pair_store in
  Forall proper_route (routes_of res.2 res.1.1).
Proof.
  assert (H1 : NoDup [0; 1]) by exact NoDup_two.
  assert (H2 : allocated pair_store [0; 1]) by (repeat constructor).
  assert (H3 : Forall proper_route (routes_of pair_store [0; 1])).
  { repeat constructor.
    - exists [1]. split; [reflexivity|]. repeat constructor; lia.
    - exists [2]. split; [reflexivity|]. repeat constructor; lia. }
  split; [exact H1|]. split; [exact H2|].
  split; [exact pair_move_regular|]. split; [exact H3|].
  exact (relocate_best_improvement_proper [0; 1] pair_instance pair_dist
           pair_store H1 H2 pair_move_regular H3).
Defined.

(** ** Clarke-Wright: the routes it returns *)

Lemma proper_route_reverse (r : list nat) :
  proper_route r -> proper_route (reverse r).
Proof.
  intros (mid & -> & Hmid). exists (reverse mid). split.
  - by rewrite reverse_cons, reverse_app.
  - by apply Forall_reverse.
Qed.

Lemma merge_proper (ri rj : list nat) :
  proper_route ri -> proper_route rj -> proper_route (but_last ri ++ tail rj).
Proof.
  intros (mi & -> & Hmi) (mj & -> & Hmj). exists (mi ++ mj). split.
  - rewrite app_comm_cons, but_last_snoc. simpl. by rewrite <- app_assoc.
  - by apply Forall_app.
Qed.

Lemma cw_merge_step_proper (instance : VRPInstance) (st st' : cw_state)
    (p : saving) :
  Forall proper_route (cw_routes st) ->
  cw_merge_step instance st p = Some st' ->
  Forall proper_route (cw_routes st').
Proof.
  intros Hp Hstep.
  apply cw_merge_step_inv in Hstep as [->|Hm]; [done|].
  destruct Hm as (ri_idx & rj_idx & ri & rj & ri' & rj' & Hne & Hri & Hrj
                  & _ & _ & Hi' & Hj' & _ & -> & _).
  pose proof (Forall_lookup_1 _ _ _ _ Hp Hri) as Hpi.
  pose proof (Forall_lookup_1 _ _ _ _ Hp Hrj) as Hpj.
  apply Forall_insert; [apply Forall_insert; [done|]|].
  - apply merge_proper.
    + destruct Hi' as [->| ->]; [done | by apply proper_route_reverse].
    + destruct Hj' as [->| ->]; [done | by apply proper_route_reverse].
  - by exists [].
Qed.

Lemma cw_merge_loop_proper (instance : VRPInstance) (s_list : list saving) :
  forall st st',
    Forall proper_route (cw_routes st) ->
    cw_merge_loop instance st s_list = Some st' ->
    Forall proper_route (cw_routes st').
Proof.
  induction s_list as [|p l IH]; intros st st' Hp Hrun; simpl in Hrun.
  - by injection Hrun as <-.
  - destruct (cw_merge_step instance st p) as [st1|] eqn:E; [|done].
    simpl in Hrun. eapply IH; [|done]. by eapply cw_merge_step_proper.
Qed.

Lemma cw_init_proper (N : nat) : Forall proper_route (cw_routes (cw_init N)).
Proof.
  simpl. apply Forall_fmap, Forall_forall. intros i Hi.
  apply elem_of_seq in Hi. exists [i]. split; [done|].
  apply Forall_singleton. lia.
Qed.

Lemma cw_inv_customer_range (N : nat) (st : cw_state) (r : list nat) (c : nat) :
  cw_inv N st -> r ∈ cw_routes st -> c ∈ r -> c <> 0 -> 1 <= c <= N.
Proof.
  intros Hinv Hr Hc Hc0.
  assert (Hin : c ∈ concat (map custs (cw_routes st))).
  { apply list_elem_of_In, in_concat. exists (custs r). split.
    - apply list_elem_of_In, list_elem_of_fmap. by exists r.
    - apply list_elem_of_In. unfold custs. by apply list_elem_of_filter. }
  rewrite (cw_inv_customers N st Hinv) in Hin.
  apply elem_of_seq in Hin. lia.
Qed.

Lemma cw_alive_length (routes : list (list nat)) :
  length (cw_alive routes) <= length routes.
Proof. unfold cw_alive. apply length_filter. Qed.

Lemma cw_prune_length (instance : VRPInstance) (routes : list (list nat)) :
  length (cw_prune instance routes) <= length (cw_alive routes).
Proof.
  destruct (cw_prune_cases instance routes)
    as [[_ ->]|(sorted & m & Hp & ->)]; [done|].
  rewrite length_take, Hp. lia.
Qed.

Lemma bind_pairs_map {B} (g : nat * nat -> B) (l1 l2 : list nat) :
  (i ← l1; j ← l2; if i <? j then [g (i, j)] else [])
  = map g (i ← l1; j ← l2; if i <? j then [(i, j)] else []).
Proof.
  induction l1 as [|i l1 IH]; [done|].
  rewrite !bind_cons, map_app, IH. f_equal.
  clear. induction l2 as [|j l2 IH]; [done|].
  rewrite !bind_cons, map_app, IH. f_equal.
  by destruct (i <? j).
Qed.

Lemma savings_list_pairs (N : nat) (D : distmat) :
  savings_list N D
  = map (fun p => (Qminus (Qplus (D 0 p.1) (D 0 p.2)) (D p.1 p.2), p.1, p.2))
        (customer_pairs N).
Proof.
  unfold savings_list, customer_pairs.
  apply (bind_pairs_map
           (fun p => (Qminus (Qplus (D 0 p.1) (D 0 p.2)) (D p.1 p.2),
                      p.1, p.2))).
Qed.

Lemma elem_of_customer_pairs (N : nat) (i j : nat) :
  (i, j) ∈ customer_pairs N <-> 1 <= i /\ i < j /\ j <= N.
Proof.
  unfold customer_pairs. rewrite list_elem_of_bind. split.
  - intros (i' & Hin & Hi'). apply elem_of_seq in Hi'.
    apply list_elem_of_bind in Hin as (j' & Hin & Hj').
    apply elem_of_seq in Hj'.
    destruct (i' <? j') eqn:E; [|by apply elem_of_nil in Hin].
    apply list_elem_of_singleton in Hin. inversion Hin; subst.
    apply Nat.ltb_lt in E. lia.
  - intros (H1 & H2 & H3). exists i. split; [|apply elem_of_seq; lia].
    apply list_elem_of_bind. exists j. split; [|apply elem_of_seq; lia].
    apply Nat.ltb_lt in H2. rewrite H2. by apply list_elem_of_singleton.
Qed.

Lemma nd_saving_Some (rows : list (list Q)) (p : nat * nat) (s : saving) :
  nd_saving rows p = Some s ->
  s = (Qminus (Qplus (dist_of_rows rows 0 p.1) (dist_of_rows rows 0 p.2))
              (dist_of_rows rows p.1 p.2), p.1, p.2).
Proof.
  unfold nd_saving, dist_of_rows, nd_get.
  destruct (rows !! 0 ≫= (.!! p.1)) as [a|]; [|done].
  destruct (rows !! 0 ≫= (.!! p.2)) as [b|]; [|done].
  destruct (rows !! p.1 ≫= (.!! p.2)) as [c|]; [|done].
  simpl. by intros [= <-].
Qed.

Lemma nd_savings_Some (N : nat) (rows : list (list Q)) (l : list saving) :
  mapM (nd_saving rows) (customer_pairs N) = Some l ->
  l = savings_list N (dist_of_rows rows).
Proof.
  rewrite savings_list_pairs. intros H. apply mapM_Some in H.
  induction H as [|p s ps l Hs _ IH]; [done|].
  simpl. by rewrite IH, (nd_saving_Some rows p s Hs).
Qed.

Lemma nd_saving_None (rows : list (list Q)) (p : nat * nat) :
  nd_saving rows p = None <->
  nd_get rows 0 p.1 = None \/ nd_get rows 0 p.2 = None
  \/ nd_get rows p.1 p.2 = None.
Proof.
  unfold nd_saving.
  destruct (nd_get rows 0 p.1), (nd_get rows 0 p.2),
    (nd_get rows p.1 p.2); simpl; split; try done; try tauto;
    intros [?|[?|?]]; done.
Qed.

Lemma nd_get_covered (rows : list (list Q)) (n a b : nat) :
  n <= length rows -> Forall (fun row => n <= length row) rows ->
  a < n -> b < n -> is_Some (nd_get rows a b).
Proof.
  intros Hrows Hcols Ha Hb. unfold nd_get.
  destruct (lookup_lt_is_Some_2 rows a) as [row Hrow]; [lia|].
  rewrite Hrow. simpl. apply lookup_lt_is_Some_2.
  pose proof (Forall_lookup_1 _ _ _ _ Hcols Hrow) as Hlen. simpl in Hlen. lia.
Qed.

Lemma clarke_wright_nd_Some (instance : VRPInstance) (rows : list (list Q))
    (l : list saving) :
  mapM (nd_saving rows) (customer_pairs (length (customers instance)))
  = Some l ->
  clarke_wright_nd instance rows = clarke_wright instance (dist_of_rows rows).
Proof.
  intros Hl. unfold clarke_wright_nd, clarke_wright. cbv zeta.
  rewrite Hl. simpl. by rewrite (nd_savings_Some _ _ _ Hl).
Qed.

Lemma clarke_wright_some_routes (instance : VRPInstance) (D : distmat) :
  exists routes,
    clarke_wright instance D = Some routes /\
    length routes <= length (customers instance) /\
    Forall (fun r => exists mid,
                r = 0 :: mid ++ [0] /\ mid <> [] /\
                Forall (fun c => 1 <= c <= length (customers instance)) mid)
           routes.
Proof.
  destruct (cw_merged_total instance D) as (st & Hst & Hinv).
  pose proof (cw_merge_loop_proper instance _ _ _ (cw_init_proper _) Hst) as Hp.
  unfold clarke_wright. rewrite Hst. simpl.
  eexists. split; [done|]. split.
  - etransitivity; [apply cw_prune_length|].
    etransitivity; [apply cw_alive_length|].
    by rewrite (cw_inv_length _ _ Hinv).
  - apply Forall_forall. intros r Hr.
    apply elem_of_cw_prune in Hr as [Hin Hlive].
    destruct (proj1 (Forall_forall _ _) Hp r Hin) as (mid & -> & Hmid).
    exists mid. split; [done|]. split; [by intros ->|].
    apply Forall_forall. intros c Hc.
    eapply (cw_inv_customer_range _ st (0 :: mid ++ [0])); [done..| |].
    + right. apply elem_of_app. by left.
    + by apply (proj1 (Forall_forall _ _) Hmid).
Qed.

(** X20.  Construction raises no [KeyError], and an [IndexError] only
    where the savings loop reads the matrix outside its shape: the call
    fails exactly when one of [D[0, i]], [D[0, j]], [D[i, j]] is missing
    for some customers [i < j].  Otherwise, and so for every matrix with
    a row and a column for each node, it returns routes, at most one per
    customer, each of the form depot, one or more customers of the
    instance, depot; they are the routes computed from the entries of the
    matrix read as a function. *)
Theorem clarke_wright_returns_routes (instance : VRPInstance)
    (rows : list (list Q)) :
  let N := length (customers instance) in
  (clarke_wright_nd instance rows = None <->
   exists i j, 1 <= i /\ i < j /\ j <= N /\
     (nd_get rows 0 i = None \/ nd_get rows 0 j = None
      \/ nd_get rows i j = None)) /\
  (forall routes, clarke_wright_nd instance rows = Some routes ->
     clarke_wright instance (dist_of_rows rows) = Some routes /\
     length routes <= N /\
     Forall (fun r => exists mid,
                 r = 0 :: mid ++ [0] /\ mid <> [] /\
                 Forall (fun c => 1 <= c <= N) mid)
            routes) /\
  (S N <= length rows -> Forall (fun row => S N <= length row) rows ->
   is_Some (clarke_wright_nd instance rows)).
Proof.
  intros N.
  destruct (clarke_wright_some_routes instance (dist_of_rows rows))
    as (routes0 & Hcw & Hlen & Hform).
  destruct (mapM (nd_saving rows) (customer_pairs N)) as [l|] eqn:Hl.
  - pose proof (clarke_wright_nd_Some instance rows l Hl) as Heq.
    split; [|split].
    + split.
      * intros Hnone. rewrite Heq, Hcw in Hnone. done.
      * intros (i & j & Hi & Hij & Hj & Hmiss). exfalso.
        apply mapM_Some in Hl.
        assert (Hin : (i, j) ∈ customer_pairs N)
          by (apply elem_of_customer_pairs; lia).
        apply list_elem_of_lookup in Hin as [n Hn].
        destruct (Forall2_lookup_l _ _ _ _ _ Hl Hn) as (s & _ & Hs).
        assert (Hnone : nd_saving rows (i, j) = None)
          by (by apply nd_saving_None).
        rewrite Hnone in Hs. done.
    + intros routes Hr. rewrite Heq, Hcw in Hr. injection Hr as <-.
      by rewrite Hcw.
    + intros _ _. rewrite Heq, Hcw. by eexists.
  - assert (Hnd : clarke_wright_nd instance rows = None).
    { unfold clarke_wright_nd. cbv zeta. fold N. by rewrite Hl. }
    split; [|split].
    + split; [intros _|done].
      apply mapM_None in Hl. apply Exists_exists in Hl as ([i j] & Hin & Hp).
      apply elem_of_customer_pairs in Hin.
      apply nd_saving_None in Hp. simpl in Hp.
      exists i, j. repeat split; try lia. done.
    + intros routes Hr. rewrite Hnd in Hr. done.
    + intros Hrows Hcols. exfalso.
      apply mapM_None in Hl. apply Exists_exists in Hl as ([i j] & Hin & Hp).
      apply elem_of_customer_pairs in Hin.
      apply nd_saving_None in Hp. simpl in Hp.
      assert (H0i : is_Some (nd_get rows 0 i))
        by (apply (nd_get_covered rows (S N)); try done; lia).
      assert (H0j : is_Some (nd_get rows 0 j))
        by (apply (nd_get_covered rows (S N)); try done; lia).
      assert (Hij : is_Some (nd_get rows i j))
        by (apply (nd_get_covered rows (S N)); try done; lia).
      destruct H0i as [? E1], H0j as [? E2], Hij as [? E3].
      rewrite E1, E2, E3 in Hp. by destruct Hp as [?|[?|?]].
Qed.

(** Two customers and a matrix of shape (2, 2): the read of [D[0, 2]]
    raises. *)
Example clarke_wright_nd_short_matrix :
  clarke_wright_nd
    (mkInstance (mkNode 0 0 0 0 None None 0)
           [mkNode 1 1 0 1 None None 0; mkNode 2 2 0 1 None None 0]
           10 2 0 0)
    [[0; 1]; [1; 0]]%Q
  = None.
Proof. reflexivity. Qed.

(** *** Sorting *)

Lemma insert_by_sorted {A} (before : A -> A -> bool) (a : A) (l : list A) :
  (forall x y, before x y = false -> before y x = true) ->
  (forall x y z, before x y = true -> before y z = true -> before x z = true) ->
  StronglySorted (fun x y => before x y = true) l ->
  StronglySorted (fun x y => before x y = true) (insert_by before a l).
Proof.
  intros Htot Htrans. induction 1 as [|b l Hs IH Hb]; simpl.
  - constructor; [constructor | done].
  - destruct (before a b) eqn:E.
    + constructor; [by constructor|].
      apply Forall_cons. split; [done|].
      eapply Forall_impl; [exact Hb|]. intros y Hy. by eapply Htrans.
    + constructor; [done|].
      rewrite insert_by_perm. apply Forall_cons. split; [by apply Htot | done].
Qed.

Lemma stable_sort_sorted {A} (before : A -> A -> bool) (l : list A) :
  (forall x y, before x y = false -> before y x = true) ->
  (forall x y z, before x y = true -> before y z = true -> before x z = true) ->
  StronglySorted (fun x y => before x y = true) (stable_sort before l).
Proof.
  intros Htot Htrans. induction l as [|a l IH]; simpl; [constructor|].
  by apply insert_by_sorted.
Qed.

Lemma sorted_app_order {A} (R : A -> A -> Prop) (l1 l2 : list A) :
  StronglySorted R (l1 ++ l2) ->
  forall x y, x ∈ l1 -> y ∈ l2 -> R x y.
Proof.
  induction l1 as [|a l1 IH]; intros Hs x y Hx Hy.
  - by apply elem_of_nil in Hx.
  - simpl in Hs. apply StronglySorted_inv in Hs as [Hs Ha].
    apply elem_of_cons in Hx as [->|Hx]; [|by apply IH].
    apply (proj1 (Forall_forall _ _) Ha). apply elem_of_app. by right.
Qed.

(** X24.  With a fleet of [num_vehicles >= 0] construction returns at most
    that many routes; the live routes it leaves out are no heavier than
    any route it returns, and none is left out when the fleet
    suffices. *)
Theorem clarke_wright_fleet_limit (instance : VRPInstance) (D : distmat)
    (merged routes : list (list nat)) :
  cw_merged instance D = Some merged ->
  clarke_wright instance D = Some routes ->
  (0 <= num_vehicles instance)%Z ->
  (Z.of_nat (length routes) <= num_vehicles instance)%Z /\
  exists dropped,
    routes ++ dropped ≡ₚ cw_alive merged /\
    ((Z.of_nat (length (cw_alive merged)) <= num_vehicles instance)%Z ->
     dropped = []) /\
    forall r d, r ∈ routes -> d ∈ dropped ->
      (route_demand d (all_nodes instance)
       <= route_demand r (all_nodes instance))%Z.
Proof.
  unfold cw_merged, clarke_wright. intros Hm Hc Hnv.
  destruct (cw_merge_loop _ _ _) as [st|]; [|done]. simpl in Hm, Hc.
  injection Hm as <-. injection Hc as <-.
  unfold cw_prune. fold (cw_alive (cw_routes st)).
  set (alive := cw_alive (cw_routes st)).
  set (before := fun a b : list nat =>
                   (- route_demand a (all_nodes instance)
                    <=? - route_demand b (all_nodes instance))%Z).
  destruct (Z.ltb_spec (num_vehicles instance) (Z.of_nat (length alive)))
    as [Hlt|Hge].
  - unfold py_prefix.
    destruct (Z.ltb_spec (num_vehicles instance) 0) as [?|_]; [lia|].
    set (m := Z.to_nat (num_vehicles instance)).
    split; [rewrite length_take; lia|].
    exists (drop m (stable_sort before alive)).
    rewrite take_drop. split; [apply stable_sort_perm|]. split; [lia|].
    intros r d Hr Hd.
    assert (Hs : StronglySorted (fun x y => before x y = true)
                   (take m (stable_sort before alive)
                    ++ drop m (stable_sort before alive))).
    { rewrite take_drop. apply stable_sort_sorted; unfold before.
      - intros x y H. apply Z.leb_gt in H. apply Z.leb_le. lia.
      - intros x y z H1 H2. apply Z.leb_le in H1, H2. apply Z.leb_le. lia. }
    pose proof (sorted_app_order _ _ _ Hs r d Hr Hd) as Hrd.
    unfold before in Hrd. apply Z.leb_le in Hrd. lia.
  - split; [done|]. exists []. rewrite app_nil_r.
    split; [done|]. split; [done|].
    intros r d _ Hd. by apply elem_of_nil in Hd.
Qed.

Lemma clarke_wright_fleet_limit_witness :
  cw_merged short_fleet_instance pair_dist = Some [[0; 1; 0]; [0; 2; 0]] /\
  clarke_wright short_fleet_instance pair_dist = Some [[0; 1; 0]] /\
  (0 <= num_vehicles short_fleet_instance)%Z /\
  Z.le (Z.of_nat (length [[0; 1; 0]])) (num_vehicles short_fleet_instance) /\
  exists dropped,
    [[0; 1; 0]] ++ dropped ≡ₚ cw_alive [[0; 1; 0]; [0; 2; 0]] /\
    (Z.le (Z.of_nat (length (cw_alive [[0; 1; 0]; [0; 2; 0]])))
          (num_vehicles short_fleet_instance) -> dropped = []) /\
    forall r d, r ∈ [[0; 1; 0]] -> d ∈ dropped ->
      (route_demand d (all_nodes short_fleet_instance)
       <= route_demand r (all_nodes short_fleet_instance))%Z.
Proof.
  assert (H1 : cw_merged short_fleet_instance pair_dist
               = Some [[0; 1; 0]; [0; 2; 0]]) by (vm_compute; reflexivity).
  assert (H2 : clarke_wright short_fleet_instance pair_dist
               = Some [[0; 1; 0]]) by (vm_compute; reflexivity).
  assert (H3 : (0 <= num_vehicles short_fleet_instance)%Z) by (simpl; lia).
  split; [exact H1|]. split; [exact H2|]. split; [exact H3|].
  exact (clarke_wright_fleet_limit short_fleet_instance pair_dist _ _
           H1 H2 H3).
Defined.

(** *** The savings list *)

Lemma elem_of_savings_list_iff (N : nat) (D : distmat) (s : Q) (i j : nat) :
  (s, i, j) ∈ savings_list N D <->
  1 <= i /\ i < j /\ j <= N /\ s = pair_saving D i j.
Proof.
  unfold savings_list. rewrite list_elem_of_bind. split.
  - intros (i' & H & Hi). apply list_elem_of_bind in H as (j' & H & Hj).
    apply elem_of_seq in Hi, Hj.
    destruct (Nat.ltb_spec i' j'); [|by apply elem_of_nil in H].
    apply list_elem_of_singleton in H. injection H as -> -> ->.
    repeat split; lia.
  - intros (Hi & Hij & Hj & ->). exists i. split; [|apply elem_of_seq; lia].
    apply list_elem_of_bind. exists j. split; [|apply elem_of_seq; lia].
    destruct (Nat.ltb_spec i j); [|lia]. by apply list_elem_of_singleton.
Qed.

Lemma savings_pairs_NoDup (N : nat) (D : distmat) :
  NoDup (map (fun p : saving => (p.1.2, p.2)) (savings_list N D)).
Proof.
  unfold savings_list.
  assert (Hgen : forall l1 l2 : list nat, NoDup l1 -> NoDup l2 ->
            NoDup (map (fun p : saving => (p.1.2, p.2))
                     (i ← l1; j ← l2;
                      if i <? j
                      then [((Qminus (Qplus (D 0 i) (D 0 j)) (D i j)), i, j)]
                      else []))).
  { intros l1 l2 Hn1 Hn2. induction Hn1 as [|i l1 Hi _ IH]; [constructor|].
    simpl. rewrite map_app. apply NoDup_app. split; [|split; [|exact IH]].
    - clear IH Hi. induction Hn2 as [|j l2 Hj _ IH2]; [constructor|].
      simpl. rewrite map_app. apply NoDup_app. split; [|split; [|exact IH2]].
      + destruct (i <? j); simpl; [apply NoDup_singleton | constructor].
      + intros pr Hpr Hin. apply Hj.
        destruct (i <? j); simpl in Hpr; [|by apply elem_of_nil in Hpr].
        apply list_elem_of_singleton in Hpr. subst pr.
        apply list_elem_of_fmap in Hin as (p & Hp & Hin).
        apply list_elem_of_bind in Hin as (j' & Hin & Hj').
        destruct (i <? j'); [|by apply elem_of_nil in Hin].
        apply list_elem_of_singleton in Hin. subst p. simpl in Hp.
        by injection Hp as ->.
    - intros pr Hpr Hin. apply Hi.
      apply list_elem_of_fmap in Hpr as (p & -> & Hp).
      apply list_elem_of_bind in Hp as (j & Hp & _).
      destruct (i <? j); [|by apply elem_of_nil in Hp].
      apply list_elem_of_singleton in Hp. subst p. simpl in Hin.
      apply list_elem_of_fmap in Hin as (p & Hp & Hin).
      apply list_elem_of_bind in Hin as (i' & Hin & Hi').
      apply list_elem_of_bind in Hin as (j' & Hin & _).
      destruct (i' <? j'); [|by apply elem_of_nil in Hin].
      apply list_elem_of_singleton in Hin. subst p. simpl in Hp.
      by injection Hp as -> _. }
  apply Hgen; apply NoDup_seq.
Qed.

Lemma sorted_weaken {A} (R R' : A -> A -> Prop) (l : list A) :
  (forall a b, R a b -> R' a b) -> StronglySorted R l -> StronglySorted R' l.
Proof.
  intros HR. induction 1 as [|a l _ IH Ha]; constructor; [done|].
  eapply Forall_impl; [exact Ha|]. intros b. apply HR.
Qed.

(** X21.  The merge loop is handed every pair of customers [i < j] exactly
    once, each with its saving [D[0,i] + D[0,j] - D[i,j]], the larger
    savings first. *)
Theorem clarke_wright_savings_order (N : nat) (D : distmat) :
  let s_list := sort_savings (savings_list N D) in
  StronglySorted (fun a b : saving => (b.1.1 <= a.1.1)%Q) s_list /\
  NoDup (map (fun p : saving => (p.1.2, p.2)) s_list) /\
  (forall i j, 1 <= i -> i < j -> j <= N ->
     (pair_saving D i j, i, j) ∈ s_list) /\
  (forall s i j, (s, i, j) ∈ s_list ->
     1 <= i /\ i < j /\ j <= N /\ s = pair_saving D i j).
Proof.
  cbv zeta. unfold sort_savings. split; [|split; [|split]].
  - eapply sorted_weaken;
      [|apply (stable_sort_sorted
                 (fun a b : saving => Qle_bool b.1.1 a.1.1))].
    + intros a b H. by apply Qle_bool_iff.
    + intros a b H. apply Qle_bool_iff.
      apply not_true_iff_false in H. rewrite Qle_bool_iff in H. lra.
    + intros a b c H1 H2. apply Qle_bool_iff in H1, H2. apply Qle_bool_iff.
      lra.
  - rewrite stable_sort_perm. apply savings_pairs_NoDup.
  - intros i j Hi Hij Hj. rewrite stable_sort_perm.
    by apply elem_of_savings_list_iff.
  - intros s i j Hin. rewrite stable_sort_perm in Hin.
    by apply elem_of_savings_list_iff.
Qed.

(** *** The bookkeeping of the route ends *)

Lemma feasible_merge_ends (instance : VRPInstance) (st : cw_state)
    (ri_idx rj_idx i j : nat) :
  feasible_merge instance st ri_idx rj_idx i j = Some true ->
  exists ei ej,
    cw_ends st !! ri_idx = Some ei /\ cw_ends st !! rj_idx = Some ej /\
    (i = ei.1 \/ i = ei.2) /\ (j = ej.1 \/ j = ej.2).
Proof.
  unfold feasible_merge. intros H.
  destruct (negb _ || negb _); [done|].
  destruct (cw_routes st !! ri_idx) as [ri|]; [|done].
  destruct (cw_routes st !! rj_idx) as [rj|]; [|done]. simpl in H.
  destruct (bool_decide (ri = [0; 0]) || bool_decide (rj = [0; 0])); [done|].
  destruct (cw_ends st !! ri_idx) as [ei|]; [|done].
  destruct (cw_ends st !! rj_idx) as [ej|]; [|done]. simpl in H.
  destruct (negb ((i =? ei.1) || (i =? ei.2))
            || negb ((j =? ej.1) || (j =? ej.2))) eqn:E; [done|].
  apply orb_false_iff in E as [E1 E2].
  apply negb_false_iff, orb_true_iff in E1, E2.
  exists ei, ej. repeat split.
  - destruct E1 as [E1|E1]; apply Nat.eqb_eq in E1; auto.
  - destruct E2 as [E2|E2]; apply Nat.eqb_eq in E2; auto.
Qed.

(** What a turn that merges does, in full. *)
Lemma cw_merge_step_detail (instance : VRPInstance) (st st' : cw_state)
    (p : saving) :
  cw_merge_step instance st p = Some st' ->
  st' = st \/
  exists ri_idx rj_idx ri rj ei ej,
    ri_idx <> rj_idx /\
    cw_routes st !! ri_idx = Some ri /\ cw_routes st !! rj_idx = Some rj /\
    cw_ends st !! ri_idx = Some ei /\ cw_ends st !! rj_idx = Some ej /\
    ri <> [0; 0] /\ rj <> [0; 0] /\
    (p.1.2 = ei.1 \/ p.1.2 = ei.2) /\ (p.2 = ej.1 \/ p.2 = ej.2) /\
    let ri' := if ei.1 =? p.1.2 then reverse ri else ri in
    let rj' := if ej.2 =? p.2 then reverse rj else rj in
    let new_route := but_last ri' ++ tail rj' in
    cw_routes st'
    = <[rj_idx := [0; 0]]> (<[ri_idx := new_route]> (cw_routes st)) /\
    cw_ends st'
    = <[rj_idx := (0, 0)]>
        (<[ri_idx := (if 2 <? length new_route then new_route !!! 1 else 0,
                      if 2 <? length new_route
                      then new_route !!! (length new_route - 2) else 0)]>
           (cw_ends st)).
Proof.
  unfold cw_merge_step. intros H.
  destruct (cw_route_of st !! p.1.2) as [ri_idx|]; [|done].
  destruct (cw_route_of st !! p.2) as [rj_idx|]; [|done]. simpl in H.
  destruct (Nat.eqb_spec ri_idx rj_idx) as [|Hne]; [left; congruence|].
  destruct (feasible_merge instance st ri_idx rj_idx p.1.2 p.2)
    as [[|]|] eqn:Ef; simpl in H; [|left; congruence|done].
  pose proof (feasible_merge_ends _ _ _ _ _ _ Ef)
    as (ei' & ej' & Hei' & Hej' & Hi & Hj).
  apply feasible_merge_true in Ef
    as (ri & rj & ei & ej & Hri & Hrj & Hei & Hej & Hli & Hlj & Hcap).
  rewrite Hei in Hei'. rewrite Hej in Hej'.
  injection Hei' as <-. injection Hej' as <-.
  rewrite Hri, Hrj, Hei, Hej in H. simpl in H. injection H as <-.
  right. exists ri_idx, rj_idx, ri, rj, ei, ej. simpl.
  repeat split; done.
Qed.

Lemma head_reverse {A} (l : list A) : head (reverse l) = last l.
Proof.
  induction l as [|a l IH] using rev_ind; [done|].
  by rewrite reverse_snoc, last_snoc.
Qed.

Lemma last_reverse {A} (l : list A) : last (reverse l) = head l.
Proof. by rewrite <- head_reverse, reverse_involutive. Qed.

Lemma lookup_total_inner (mid : list nat) (k : nat) :
  k < length mid -> (0 :: mid ++ [0]) !!! S k = default 0 (mid !! k).
Proof.
  intros Hk. change ((0 :: mid ++ [0]) !!! S k) with ((mid ++ [0]) !!! k).
  rewrite lookup_total_app_l by done.
  destruct (lookup_lt_is_Some_2 mid k Hk) as [c Hc].
  by rewrite Hc, (list_lookup_total_correct _ _ _ Hc).
Qed.

Lemma ends_of_route (mid : list nat) :
  mid <> [] ->
  let r := 0 :: mid ++ [0] in
  (if 2 <? length r then r !!! 1 else 0) = default 0 (head mid) /\
  (if 2 <? length r then r !!! (length r - 2) else 0) = default 0 (last mid).
Proof.
  intros Hne. cbv zeta. rewrite length_cons, length_app. simpl length.
  assert (Hlen : 0 < length mid) by (destruct mid; [done | simpl; lia]).
  replace (2 <? S (length mid + 1)) with true
    by (symmetry; apply Nat.ltb_lt; lia).
  split.
  - rewrite lookup_total_inner by done. by rewrite head_lookup.
  - replace (S (length mid + 1) - 2) with (S (length mid - 1)) by lia.
    rewrite lookup_total_inner by lia.
    rewrite last_lookup. do 2 f_equal. lia.
Qed.

(** The two routes of a merging turn, turned so that [i] comes last in
    the first and [j] first in the second, and the route they make. *)
Lemma merge_oriented (st : cw_state) (ri rj : list nat) (ei ej : nat * nat)
    (ri_idx rj_idx i j : nat) :
  ends_ok st ->
  cw_routes st !! ri_idx = Some ri -> cw_routes st !! rj_idx = Some rj ->
  cw_ends st !! ri_idx = Some ei -> cw_ends st !! rj_idx = Some ej ->
  ri <> [0; 0] -> rj <> [0; 0] ->
  i = ei.1 \/ i = ei.2 -> j = ej.1 \/ j = ej.2 ->
  exists Mi Mj,
    (if ei.1 =? i then reverse ri else ri) = 0 :: (Mi ++ [i]) ++ [0] /\
    (if ej.2 =? j then reverse rj else rj) = 0 :: (j :: Mj) ++ [0].
Proof.
  intros Hends Hri Hrj Hei Hej Hli Hlj Hi Hj.
  destruct (Hends _ _ Hri) as (mi & -> & Hei').
  destruct (Hends _ _ Hrj) as (mj & -> & Hej').
  rewrite Hei in Hei'. rewrite Hej in Hej'.
  injection Hei' as ->. injection Hej' as ->. simpl in *.
  assert (Hmi : mi <> []) by (by intros ->).
  assert (Hmj : mj <> []) by (by intros ->).
  assert (HI : exists Mi, (if default 0 (head mi) =? i then reverse mi else mi)
                          = Mi ++ [i]).
  { destruct (Nat.eqb_spec (default 0 (head mi)) i) as [E|E].
    - destruct mi as [|a mi]; [done|]. simpl in E. subst a.
      exists (reverse mi). by rewrite reverse_cons.
    - destruct Hi as [Hi|Hi]; [congruence|].
      destruct mi as [|a mi] using rev_ind; [done|].
      rewrite last_snoc in Hi. simpl in Hi. subst a. by exists mi. }
  assert (HJ : exists Mj, (if default 0 (last mj) =? j then reverse mj else mj)
                          = j :: Mj).
  { destruct (Nat.eqb_spec (default 0 (last mj)) j) as [E|E].
    - destruct mj as [|a mj] using rev_ind; [done|].
      rewrite last_snoc in E. simpl in E. subst a.
      exists (reverse mj). by rewrite reverse_snoc.
    - destruct Hj as [Hj|Hj]; [|congruence].
      destruct mj as [|a mj]; [done|]. simpl in Hj. subst a. by exists mj. }
  destruct HI as [Mi HI]. destruct HJ as [Mj HJ].
  exists Mi, Mj. split.
  - rewrite <- HI. destruct (default 0 (head mi) =? i); [|done].
    by rewrite reverse_cons, reverse_app.
  - change (0 :: j :: Mj ++ [0]) with (0 :: (j :: Mj) ++ [0]).
    rewrite <- HJ. destruct (default 0 (last mj) =? j); [|done].
    by rewrite reverse_cons, reverse_app.
Qed.

Lemma cw_merge_step_ends (instance : VRPInstance) (st st' : cw_state)
    (p : saving) :
  ends_ok st -> cw_merge_step instance st p = Some st' -> ends_ok st'.
Proof.
  intros Hends Hstep.
  apply cw_merge_step_detail in Hstep as [->|Hm]; [done|].
  destruct Hm as (ri_idx & rj_idx & ri & rj & ei & ej & Hne & Hri & Hrj
                  & Hei & Hej & Hli & Hlj & Hi & Hj & Hroutes & Hen).
  destruct (merge_oriented st ri rj ei ej ri_idx rj_idx p.1.2 p.2)
    as (Mi & Mj & Ei & Ej); [done..|].
  rewrite Ei, Ej in Hroutes, Hen.
  assert (Hnew : but_last (0 :: (Mi ++ [p.1.2]) ++ [0])
                 ++ tail (0 :: (p.2 :: Mj) ++ [0])
                 = 0 :: ((Mi ++ [p.1.2]) ++ p.2 :: Mj) ++ [0]).
  { rewrite app_comm_cons, but_last_snoc. simpl. by rewrite <- !app_assoc. }
  rewrite Hnew in Hroutes, Hen.
  destruct (ends_of_route ((Mi ++ [p.1.2]) ++ p.2 :: Mj)) as [Hf Hl].
  { intros H. apply (f_equal length) in H. rewrite !length_app in H.
    simpl in H. lia. }
  rewrite Hf, Hl in Hen.
  intros k r Hk. rewrite Hroutes in Hk. rewrite Hen.
  destruct (decide (k = rj_idx)) as [->|Hkj].
  - rewrite list_lookup_insert_eq in Hk
      by (rewrite length_insert; by eapply lookup_lt_Some).
    injection Hk as <-. exists []. split; [done|].
    by rewrite lookup_insert_eq.
  - rewrite list_lookup_insert_ne in Hk by done.
    rewrite lookup_insert_ne by done.
    destruct (decide (k = ri_idx)) as [->|Hki].
    + rewrite list_lookup_insert_eq in Hk by (by eapply lookup_lt_Some).
      injection Hk as <-. eexists. split; [done|].
      by rewrite lookup_insert_eq.
    + rewrite list_lookup_insert_ne in Hk by done.
      rewrite lookup_insert_ne by done. by apply Hends.
Qed.

Lemma cw_merge_loop_ends (instance : VRPInstance) (s_list : list saving) :
  forall st st',
    ends_ok st -> cw_merge_loop instance st s_list = Some st' -> ends_ok st'.
Proof.
  induction s_list as [|p l IH]; intros st st' He Hrun; simpl in Hrun.
  - by injection Hrun as <-.
  - destruct (cw_merge_step instance st p) as [st1|] eqn:E; [|done].
    simpl in Hrun. eapply IH; [|done]. by eapply cw_merge_step_ends.
Qed.

Lemma cw_init_ends (N : nat) : ends_ok (cw_init N).
Proof.
  intros k r Hk. simpl in Hk.
  rewrite list_lookup_fmap in Hk.
  destruct (seq 1 N !! k) as [i|] eqn:Ei; [|done].
  injection Hk as <-. exists [i]. split; [done|]. simpl.
  pose proof (lookup_lt_Some _ _ _ Ei) as Hlt. rewrite length_seq in Hlt.
  apply (elem_of_list_to_map_1 (M := gmap nat)).
  - rewrite <- list_fmap_compose.
    replace (map (fst ∘ (fun ri => (ri, (seq 1 N !!! ri, seq 1 N !!! ri))))
                 (range 0 N)) with (range 0 N).
    + apply NoDup_seq.
    + symmetry. apply map_id.
  - apply list_elem_of_fmap. exists k. split.
    + by rewrite (list_lookup_total_correct _ _ _ Ei).
    + apply elem_of_range. lia.
Qed.

(** *** The travel distance of the live routes *)

Lemma live_distance (D : distmat) (routes : list (list nat)) :
  Qeq (total_distance (cw_alive routes) D)
      (Qsum (map (fun r => if decide (r = [0; 0]) then 0%Q
                           else route_distance r D) routes)).
Proof.
  unfold total_distance, cw_alive.
  induction routes as [|r routes IH]; [reflexivity|].
  rewrite filter_cons. unfold Qsum in *. simpl.
  destruct (decide (r <> [0; 0])) as [Hr|Hr];
    destruct (decide (r = [0; 0])) as [Hr'|Hr']; try done; simpl; lra.
Qed.

Lemma merged_distance (D : distmat) (Mi Mj : list nat) (i j : nat) :
  let ri := 0 :: (Mi ++ [i]) ++ [0] in
  let rj := 0 :: (j :: Mj) ++ [0] in
  let new_route := 0 :: ((Mi ++ [i]) ++ j :: Mj) ++ [0] in
  (path_len D new_route
   == path_len D ri + path_len D rj - (D i 0%nat + D 0%nat j - D i j))%Q.
Proof.
  cbv zeta.
  replace (0 :: ((Mi ++ [i]) ++ j :: Mj) ++ [0])
    with ((0 :: Mi) ++ i :: j :: Mj ++ [0])
    by (simpl; by rewrite <- !app_assoc).
  replace (0 :: (Mi ++ [i]) ++ [0]) with ((0 :: Mi) ++ i :: [0])
    by (simpl; by rewrite <- !app_assoc).
  rewrite (path_len_split D (0 :: Mi) i (j :: Mj ++ [0])).
  rewrite (path_len_split D (0 :: Mi) i [0]).
  set (tl := Mj ++ [0]).
  change (path_len D (i :: j :: tl)) with (Qplus (D i j) (path_len D (j :: tl))).
  change (path_len D (0 :: (j :: Mj) ++ [0]))
    with (Qplus (D 0 j) (path_len D (j :: tl))).
  simpl. lra.
Qed.

Lemma oriented_distance (D : distmat) (b : bool) (r : list nat) :
  symmetric D ->
  (path_len D (if b then reverse r else r) == path_len D r)%Q.
Proof. intros Hsym. destruct b; [by apply path_len_reverse | reflexivity]. Qed.

Lemma cw_merge_step_distance (instance : VRPInstance) (D : distmat)
    (st st' : cw_state) (p : saving) :
  symmetric D -> ends_ok st ->
  cw_merge_step instance st p = Some st' ->
  st' = st \/
  let s := pair_saving D p.1.2 p.2 in
  (total_distance (cw_alive (cw_routes st')) D
   == total_distance (cw_alive (cw_routes st)) D - s)%Q.
Proof.
  intros Hsym Hends Hstep.
  apply cw_merge_step_detail in Hstep as [->|Hm]; [by left|]. right.
  destruct Hm as (ri_idx & rj_idx & ri & rj & ei & ej & Hne & Hri & Hrj
                  & Hei & Hej & Hli & Hlj & Hi & Hj & Hroutes & _).
  destruct (merge_oriented st ri rj ei ej ri_idx rj_idx p.1.2 p.2)
    as (Mi & Mj & Ei & Ej); [done..|].
  pose proof (oriented_distance D (ei.1 =? p.1.2) ri Hsym) as Hdi.
  pose proof (oriented_distance D (ej.2 =? p.2) rj Hsym) as Hdj.
  rewrite Ei in Hroutes, Hdi. rewrite Ej in Hroutes, Hdj.
  assert (Hnew : but_last (0 :: (Mi ++ [p.1.2]) ++ [0])
                 ++ tail (0 :: (p.2 :: Mj) ++ [0])
                 = 0 :: ((Mi ++ [p.1.2]) ++ p.2 :: Mj) ++ [0]).
  { rewrite app_comm_cons, but_last_snoc. simpl. by rewrite <- !app_assoc. }
  rewrite Hnew in Hroutes.
  pose proof (live_distance D (cw_routes st')) as H1.
  pose proof (live_distance D (cw_routes st)) as H2.
  rewrite Hroutes in H1.
  set (f := fun r : list nat =>
              if decide (r = [0; 0]) then 0%Q else route_distance r D) in *.
  pose proof (lookup_lt_Some _ _ _ Hri) as Hlti.
  pose proof (lookup_lt_Some _ _ _ Hrj) as Hltj.
  set (new_route := 0 :: ((Mi ++ [p.1.2]) ++ p.2 :: Mj) ++ [0]) in *.
  pose proof (Qsum_insert f (<[ri_idx := new_route]> (cw_routes st)) rj_idx
                [0; 0]) as E1.
  pose proof (Qsum_insert f (cw_routes st) ri_idx new_route Hlti) as E2.
  rewrite list_lookup_total_insert_ne in E1 by done.
  rewrite (list_lookup_total_correct _ _ _ Hri) in E2.
  rewrite (list_lookup_total_correct _ _ _ Hrj) in E1.
  specialize (E1 ltac:(by rewrite length_insert)).
  assert (Fi : f ri = route_distance ri D).
  { unfold f. by destruct (decide (ri = [0; 0])). }
  assert (Fj : f rj = route_distance rj D).
  { unfold f. by destruct (decide (rj = [0; 0])). }
  assert (F0 : f [0; 0] = 0%Q) by reflexivity.
  assert (Fn : f new_route = route_distance new_route D).
  { unfold f. destruct (decide (new_route = [0; 0])) as [Hbad|_]; [|done].
    apply (f_equal length) in Hbad. unfold new_route in Hbad.
    rewrite length_cons, !length_app in Hbad. simpl in Hbad. lia. }
  rewrite Fi, Fn in E2. rewrite Fj, F0 in E1.
  rewrite !route_distance_path in E1, E2.
  pose proof (merged_distance D Mi Mj p.1.2 p.2) as Hm. cbv zeta in Hm.
  fold new_route in Hm.
  pose proof (Hsym p.1.2 0) as Hs0. cbv zeta.
  unfold pair_saving. rewrite Hroutes.
  rewrite (route_distance_path new_route) in E2. lra.
Qed.

(** X22.  On a symmetric matrix, every turn of the merge loop leaves the
    routes alone or shortens the live routes by exactly the saving of
    its pair (which lengthens them when the saving is negative). *)
Theorem clarke_wright_merge_saving (instance : VRPInstance) (D : distmat)
    (pre post : list saving) (p : saving) (st st' : cw_state) :
  symmetric D ->
  let N := length (customers instance) in
  sort_savings (savings_list N D) = pre ++ p :: post ->
  cw_merge_loop instance (cw_init N) pre = Some st ->
  cw_merge_step instance st p = Some st' ->
  st' = st \/
  (total_distance (cw_alive (cw_routes st')) D
   == total_distance (cw_alive (cw_routes st)) D - p.1.1)%Q.
Proof.
  intros Hsym N Hlist Hpre Hstep.
  assert (Hp : p.1.1 = pair_saving D p.1.2 p.2).
  { assert (Hin : p ∈ sort_savings (savings_list N D)).
    { rewrite Hlist. apply elem_of_app. right. by left. }
    unfold sort_savings in Hin. rewrite stable_sort_perm in Hin.
    destruct p as [[s i] j].
    by apply elem_of_savings_list_iff in Hin as (_ & _ & _ & ->). }
  rewrite Hp. eapply cw_merge_step_distance; [done| |done].
  eapply cw_merge_loop_ends; [apply cw_init_ends | done].
Qed.

Lemma clarke_wright_merge_saving_witness :
  symmetric line_dist /\
  sort_savings (savings_list (length (customers line_instance)) line_dist)
  = [] ++ (2%Q, 1, 2) :: [] /\
  cw_merge_loop line_instance (cw_init (length (customers line_instance))) []
  = Some (cw_init 2) /\
  cw_merge_step line_instance (cw_init 2) (2%Q, 1, 2)
  = Some line_merged_state /\
  (line_merged_state = cw_init 2 \/
   Qeq (total_distance (cw_alive (cw_routes line_merged_state)) line_dist)
       (Qminus (total_distance (cw_alive (cw_routes (cw_init 2))) line_dist)
               2)).
Proof.
  assert (H1 : sort_savings
                 (savings_list (length (customers line_instance)) line_dist)
               = [] ++ (2%Q, 1, 2) :: []) by (vm_compute; reflexivity).
  assert (H2 : cw_merge_loop line_instance
                 (cw_init (length (customers line_instance))) []
               = Some (cw_init 2)) by reflexivity.
  assert (H3 : cw_merge_step line_instance (cw_init 2) (2%Q, 1, 2)
               = Some line_merged_state) by (vm_compute; reflexivity).
  split; [exact line_dist_symmetric|]. split; [exact H1|].
  split; [exact H2|]. split; [exact H3|].
  exact (clarke_wright_merge_saving line_instance line_dist [] []
           (2%Q, 1, 2) (cw_init 2) line_merged_state
           line_dist_symmetric H1 H2 H3).
Defined.

(** *** The whole construction against one route per customer *)

Lemma cw_merge_loop_distance (instance : VRPInstance) (D : distmat)
    (s_list : list saving) :
  symmetric D -> depot_triangle D ->
  forall st st',
    ends_ok st -> cw_merge_loop instance st s_list = Some st' ->
    (total_distance (cw_alive (cw_routes st')) D
     <= total_distance (cw_alive (cw_routes st)) D)%Q.
Proof.
  intros Hsym Htri.
  induction s_list as [|p l IH]; intros st st' He Hrun; simpl in Hrun.
  - injection Hrun as <-. lra.
  - destruct (cw_merge_step instance st p) as [st1|] eqn:E; [|done].
    simpl in Hrun.
    pose proof (cw_merge_step_ends _ _ _ _ He E) as He1.
    specialize (IH _ _ He1 Hrun).
    destruct (cw_merge_step_distance _ D _ _ _ Hsym He E) as [->|Hd]; [done|].
    cbv zeta in Hd. unfold pair_saving in Hd.
    pose proof (Htri p.1.2 p.2) as Ht. pose proof (Hsym p.1.2 0) as Hs.
    lra.
Qed.

Lemma cw_init_distance (D : distmat) (N : nat) :
  (total_distance (cw_alive (cw_routes (cw_init N))) D
   == singles_distance D N)%Q.
Proof.
  rewrite live_distance. unfold singles_distance. simpl cw_routes.
  generalize (seq 1 N). intros l.
  induction l as [|c l IH]; [reflexivity|].
  unfold Qsum in *. simpl. rewrite IH.
  destruct (decide ([0; c; 0] = [0; 0])) as [?|_]; [done|].
  unfold route_distance. simpl. lra.
Qed.

Lemma path_len_nonneg (D : distmat) (r : list nat) :
  nonneg_dist D -> (0 <= path_len D r)%Q.
Proof.
  intros Hnn. induction r as [|a [|b r] IH]; [simpl; lra..|].
  change (path_len D (a :: b :: r)) with (D a b + path_len D (b :: r))%Q.
  pose proof (Hnn a b). lra.
Qed.

Lemma total_distance_nonneg (D : distmat) (routes : list (list nat)) :
  nonneg_dist D -> (0 <= total_distance routes D)%Q.
Proof.
  intros Hnn. unfold total_distance, Qsum.
  induction routes as [|r routes IH]; simpl; [lra|].
  rewrite route_distance_path. pose proof (path_len_nonneg D r Hnn). lra.
Qed.

Lemma total_distance_app (D : distmat) (l1 l2 : list (list nat)) :
  (total_distance (l1 ++ l2) D == total_distance l1 D + total_distance l2 D)%Q.
Proof.
  unfold total_distance, Qsum. induction l1 as [|r l1 IH]; simpl; lra.
Qed.

Lemma total_distance_perm (D : distmat) (l1 l2 : list (list nat)) :
  l1 ≡ₚ l2 -> (total_distance l1 D == total_distance l2 D)%Q.
Proof. intros Hp. unfold total_distance. by apply Qsum_map_perm. Qed.

(** X23.  On a symmetric matrix with non-negative entries on which the way
    through the depot is never shorter than the straight way,
    construction returns routes that are together no longer than one
    route per customer. *)
Theorem clarke_wright_no_longer_than_singles (instance : VRPInstance)
    (D : distmat) (routes : list (list nat)) :
  symmetric D -> depot_triangle D -> nonneg_dist D ->
  clarke_wright instance D = Some routes ->
  Qle (total_distance routes D)
      (singles_distance D (length (customers instance))).
Proof.
  intros Hsym Htri Hnn Hrun. unfold clarke_wright in Hrun.
  destruct (cw_merge_loop _ _ _) as [st|] eqn:Hst; [|done].
  simpl in Hrun. injection Hrun as <-.
  pose proof (cw_merge_loop_distance instance D _ Hsym Htri _ _
                (cw_init_ends _) Hst) as Hloop.
  rewrite cw_init_distance in Hloop.
  eapply Qle_trans; [|exact Hloop].
  destruct (cw_prune_cases instance (cw_routes st))
    as [[_ ->]|(sorted & m & Hp & ->)]; [lra|].
  rewrite <- (total_distance_perm D _ _ Hp).
  rewrite <- (take_drop m sorted) at 2.
  rewrite total_distance_app.
  pose proof (total_distance_nonneg D (drop m sorted) Hnn). lra.
Qed.

Lemma clarke_wright_no_longer_than_singles_witness :
  symmetric line_dist /\ depot_triangle line_dist /\ nonneg_dist line_dist /\
  clarke_wright line_instance line_dist = Some [[0; 1; 2; 0]] /\
  Qle (total_distance [[0; 1; 2; 0]] line_dist)
      (singles_distance line_dist (length (customers line_instance))).
Proof.
  assert (H : clarke_wright line_instance line_dist = Some [[0; 1; 2; 0]])
    by (vm_compute; reflexivity).
  split; [exact line_dist_symmetric|]. split; [exact line_dist_triangle|].
  split; [exact line_dist_nonneg|]. split; [exact H|].
  exact (clarke_wright_no_longer_than_singles line_instance line_dist _
           line_dist_symmetric line_dist_triangle line_dist_nonneg H).
Defined.

(** ** Annealing and the solution passed in *)

(** X25.  Annealing works on copies: every route object that exists at the
    call is left as it was, the caller's solution with them, and the
    returned routes are objects made during the call. *)
Theorem simulated_annealing_leaves_input (clock : nat -> Q)
    (accept : nat -> Q -> Q -> bool) (fuel : nat) (rs : list loc)
    (instance : VRPInstance) (D : distmat) (time_budget_s T0 alpha : Q)
    (h : store) (best : list loc) (h' : store) :
  allocated h rs ->
  simulated_annealing clock accept fuel rs instance D time_budget_s T0 alpha h
  = (Some best, h') ->
  (exists ext, h' = h ++ ext) /\
  routes_of h' rs = routes_of h rs /\
  allocated h' best /\
  Forall (fun l => length h <= l) best.
Proof.
  intros Hrs Hrun.
  eapply (simulated_annealing_inv clock accept (fun _ => True)) in Hrun
    as ([ext ->] & Hb & Hfresh & _ & _); eauto using kept_trivially.
  split; [by exists ext|]. split; [by apply routes_of_app_l|]. by split.
Qed.

Lemma simulated_annealing_leaves_input_witness :
  allocated rect_store [0] /\
  simulated_annealing tick_clock never_accept 5 [0] rect_instance rect_dist
    3 1 (995 # 1000) rect_store = (Some [7], rect_annealed_store) /\
  (exists ext, rect_annealed_store = rect_store ++ ext) /\
  routes_of rect_annealed_store [0] = routes_of rect_store [0] /\
  allocated rect_annealed_store [7] /\
  Forall (fun l => length rect_store <= l) [7].
Proof.
  assert (H1 : allocated rect_store [0]) by (repeat constructor).
  split; [exact H1|]. split; [exact rect_annealing_run|].
  exact (simulated_annealing_leaves_input tick_clock never_accept 5 [0]
           rect_instance rect_dist 3 1 (995 # 1000) rect_store [7]
           rect_annealed_store H1 rect_annealing_run).
Defined.

Section AnnealingBest.

Variable clock : nat -> Q.
Variable accept : nat -> Q -> Q -> bool.
Variable instance : VRPInstance.
Variable D : distmat.

Lemma sa_iteration_best (alpha : Q) (st st' : sa_state) (h h' : store) :
  sa_iteration accept instance D alpha st h = (st', h') ->
  (sa_best st' = sa_best st /\ sa_best_cost st' = sa_best_cost st) \/
  (sa_best_cost st' < sa_best_cost st)%Q.
Proof.
  intros Hrun. unfold sa_iteration, bind, read_all, ret in Hrun.
  destruct (copy_routes (sa_cur st) h) as [tmp h1].
  destruct ((if S (sa_iters st) mod 2 =? 0
             then improve_two_opt_intra tmp D 1
             else relocate_best_improvement tmp instance D) h1)
    as [[cand b] h2].
  cbn [fst snd] in Hrun.
  destruct (Qle_bool _ 0 || accept _ _ _).
  - destruct (Qltb (total_cost (routes_of h2 cand) instance D)
                   (sa_best_cost st)) eqn:Ebetter.
    + destruct (copy_routes cand h2) as [best' h3].
      injection Hrun as <- <-. right. simpl. by apply Qltb_lt.
    + injection Hrun as <- <-. by left.
  - injection Hrun as <- <-. by left.
Qed.

Lemma sa_iteration_extends (alpha : Q) (st st' : sa_state) (h h' : store) :
  allocated h (sa_cur st) ->
  sa_iteration accept instance D alpha st h = (st', h') ->
  exists ext, h' = h ++ ext.
Proof.
  intros Hcur Hrun. unfold sa_iteration, bind, read_all, ret in Hrun.
  destruct (copy_routes (sa_cur st) h) as [tmp h1] eqn:Ecopy.
  destruct ((if S (sa_iters st) mod 2 =? 0
             then improve_two_opt_intra tmp D 1
             else relocate_best_improvement tmp instance D) h1)
    as [[cand b] h2] eqn:Eop.
  destruct (sa_proposal (fun _ => True) instance D (kept_trivially instance D)
              _ _ _ _ _ _ _ _ Hcur I Ecopy Eop) as ([ext2 ->] & Hcand & _).
  cbn [fst snd] in Hrun.
  destruct (Qle_bool _ 0 || accept _ _ _).
  - destruct (Qltb _ (sa_best_cost st)).
    + rewrite (copy_routes_spec cand _ Hcand) in Hrun.
      injection Hrun as <- <-. eexists. by rewrite <- app_assoc.
    + injection Hrun as <- <-. by eexists.
  - injection Hrun as <- <-. by eexists.
Qed.

Lemma sa_loop_best (alpha c0 t_end : Q) (routes0 : list (list nat))
    (h0 : store) (fuel : nat) :
  forall (st : sa_state) (h : store) (best : list loc) (h' : store),
    sa_inv (fun _ => True) instance D c0 h0 h st ->
    routes_of h (sa_best st) = routes0 \/ (sa_best_cost st < c0)%Q ->
    sa_loop clock accept fuel t_end instance D alpha st h = (Some best, h') ->
    routes_of h' best = routes0 \/
    (total_cost (routes_of h' best) instance D < c0)%Q.
Proof.
  induction fuel as [|fuel IH]; intros st h best h' Hinv Hst Hrun;
    simpl in Hrun.
  - destruct (Qltb _ t_end); [discriminate|].
    injection Hrun as <- <-. by rewrite <- (inv_best_cost _ _ _ _ _ _ _ Hinv).
  - destruct (Qltb _ t_end).
    + unfold bind at 1 in Hrun.
      destruct (sa_iteration accept instance D alpha st h) as [st1 h1] eqn:E.
      pose proof (sa_iteration_best _ _ _ _ _ E) as Hbest.
      pose proof (sa_iteration_extends _ _ _ _ _
                    (inv_cur_alloc _ _ _ _ _ _ _ Hinv) E) as [ext ->].
      pose proof (sa_iteration_inv accept (fun _ => True) instance D
                    (kept_trivially instance D) alpha c0 h0 h _ st st1 Hinv E)
        as [Hinv1 _].
      eapply IH; [exact Hinv1| |exact Hrun].
      pose proof (inv_best_le _ _ _ _ _ _ _ Hinv) as Hle.
      destruct Hbest as [[Eb Ec]|Hlt]; [|right; lra].
      rewrite Eb, Ec. destruct Hst as [Hst|Hst]; [left|by right].
      rewrite <- Hst. apply routes_of_app_l.
      exact (inv_best_alloc _ _ _ _ _ _ _ Hinv).
    + injection Hrun as <- <-. by rewrite <- (inv_best_cost _ _ _ _ _ _ _ Hinv).
Qed.

End AnnealingBest.

(** X26.  Annealing returns the solution it was given, route for route,
    unless it returns a strictly cheaper one. *)
Theorem simulated_annealing_input_or_cheaper (clock : nat -> Q)
    (accept : nat -> Q -> Q -> bool) (fuel : nat) (rs : list loc)
    (instance : VRPInstance) (D : distmat) (time_budget_s T0 alpha : Q)
    (h : store) (best : list loc) (h' : store) :
  allocated h rs ->
  simulated_annealing clock accept fuel rs instance D time_budget_s T0 alpha h
  = (Some best, h') ->
  routes_of h' best = routes_of h rs \/
  (total_cost (routes_of h' best) instance D
   < total_cost (routes_of h rs) instance D)%Q.
Proof.
  intros Hrs Hrun. unfold simulated_annealing in Hrun.
  unfold bind at 1 in Hrun. rewrite (copy_routes_spec rs h Hrs) in Hrun.
  unfold bind at 1, read_all at 1 in Hrun.
  unfold bind at 1 in Hrun.
  set (h1 := h ++ routes_of h rs) in *.
  assert (Hrs1 : allocated h1 rs) by (by apply allocated_app_l).
  rewrite (copy_routes_spec rs h1 Hrs1) in Hrun.
  pose proof (allocated_seq h (routes_of h rs)) as Hb.
  pose proof (routes_of_seq h (routes_of h rs)) as Hbv.
  rewrite routes_of_length in Hb, Hbv. fold h1 in Hb, Hbv.
  pose proof (allocated_seq h1 (routes_of h1 rs)) as Hc.
  pose proof (routes_of_seq h1 (routes_of h1 rs)) as Hcv.
  rewrite routes_of_length in Hc, Hcv.
  assert (Hrv : routes_of h1 rs = routes_of h rs) by (by apply routes_of_app_l).
  eapply (sa_loop_best clock accept instance D alpha
            (total_cost (routes_of h rs) instance D) _ (routes_of h rs) h);
    [| |exact Hrun].
  - constructor; simpl.
    + exists (routes_of h rs ++ routes_of h1 rs). unfold h1.
      by rewrite app_assoc.
    + by apply allocated_app_l.
    + done.
    + by rewrite routes_of_app_l.
    + rewrite Hbv. apply Qle_refl.
    + done.
    + done.
    + apply Forall_forall. intros l Hl. apply elem_of_seq in Hl. lia.
  - left. simpl. rewrite routes_of_app_l by done. exact Hbv.
Qed.

Lemma simulated_annealing_input_or_cheaper_witness :
  allocated rect_store [0] /\
  simulated_annealing tick_clock never_accept 5 [0] rect_instance rect_dist
    3 1 (995 # 1000) rect_store = (Some [7], rect_annealed_store) /\
  (routes_of rect_annealed_store [7] = routes_of rect_store [0] \/
   Qlt (total_cost (routes_of rect_annealed_store [7]) rect_instance rect_dist)
       (total_cost (routes_of rect_store [0]) rect_instance rect_dist)).
Proof.
  assert (H1 : allocated rect_store [0]) by (repeat constructor).
  split; [exact H1|]. split; [exact rect_annealing_run|].
  exact (simulated_annealing_input_or_cheaper tick_clock never_accept 5 [0]
           rect_instance rect_dist 3 1 (995 # 1000) rect_store [7]
           rect_annealed_store H1 rect_annealing_run).
Defined.

(** ** The local-search loop *)

Lemma two_opt_search_optimal (r : list nat) (D : distmat) :
  (forall i k, 1 <= i -> i < k -> k <= length r - 2 ->
               Qle 0 (two_opt_delta r i k D)) ->
  (two_opt_search r D).2 = None.
Proof.
  intros Hopt. unfold two_opt_search.
  match goal with |- (?res).2 = None => assert (Hres : res = (0%Q, None)) end;
    [|by rewrite Hres].
  apply (foldl_invariant
           (fun st : Q * option (nat * nat) => st = (0%Q, None))); [|done].
  intros st [i k] Hm ->. simpl.
  apply elem_of_two_opt_moves in Hm.
  replace (Qltb (two_opt_delta r i k D) 0) with false; [done|].
  symmetry. apply Qltb_ge. apply Hopt; lia.
Qed.

Lemma two_opt_sweep_optimal (rs : list loc) (D : distmat) (h : store) :
  two_opt_optimal (routes_of h rs) D ->
  two_opt_sweep rs D h = (rs, false, h).
Proof.
  induction rs as [|l rs IH]; intros Hopt; [done|].
  simpl. unfold bind at 1, read at 1.
  rewrite two_opt_search_optimal.
  - unfold bind at 1. rewrite IH; [done|].
    intros r i k Hr. apply Hopt. simpl. by right.
  - intros i k. apply Hopt. simpl. by left.
Qed.

Lemma relocate_optimal_run (rs : list loc) (instance : VRPInstance)
    (D : distmat) (h : store) :
  relocate_optimal (routes_of h rs) instance D ->
  relocate_best_improvement rs instance D h = (rs, false, h).
Proof.
  intros Hopt. unfold relocate_best_improvement, bind at 1, read_all at 1.
  destruct (relocate_search (routes_of h rs) instance D) as [g [mv|]] eqn:Es;
    [|done].
  apply relocate_search_candidate in Es as (Hc & -> & _).
  destruct mv as [[[ra ia] rb] jb].
  replace (Qltb relocate_eps _) with false; [done|].
  symmetry. apply Qltb_ge. by apply Hopt.
Qed.

(** X27.  The local-search loop stops in its first turn, changing nothing,
    on a solution that neither operator can improve; and whenever it
    stops, the solution it returns is one that neither operator can
    improve. *)
Theorem local_search_stops_at_optimum (rs : list loc)
    (instance : VRPInstance) (D : distmat) (h : store) :
  (two_opt_optimal (routes_of h rs) D ->
   relocate_optimal (routes_of h rs) instance D ->
   forall fuel, local_search (S fuel) rs instance D h = (Some rs, h)) /\
  (forall fuel rs' h',
     local_search fuel rs instance D h = (Some rs', h') ->
     two_opt_optimal (routes_of h' rs') D /\
     relocate_optimal (routes_of h' rs') instance D).
Proof.
  split.
  - intros H2 Hr fuel. simpl. unfold bind at 1, local_search_step.
    unfold bind at 1, improve_two_opt_intra. simpl two_opt_passes.
    unfold bind at 1. rewrite (two_opt_sweep_optimal rs D h H2). simpl.
    unfold bind at 1. by rewrite (relocate_optimal_run rs instance D h Hr).
  - intros fuel. revert rs h.
    induction fuel as [|fuel IH]; intros rs h rs' h' Hrun; [done|].
    simpl in Hrun. unfold bind at 1 in Hrun.
    destruct (local_search_step rs instance D h) as [[rs1 b] h1] eqn:Es.
    simpl in Hrun. destruct b; [by eapply IH|].
    injection Hrun as <- <-.
    unfold local_search_step, bind in Es.
    destruct (improve_two_opt_intra rs D 1 h) as [[rs2 b2] h2] eqn:E2.
    cbn [fst snd] in Es.
    destruct (relocate_best_improvement rs2 instance D h2)
      as [[rs3 b3] h3] eqn:E3.
    unfold ret in Es. injection Es as <- Hb <-.
    apply orb_false_iff in Hb as [-> ->].
    apply two_opt_pass_unchanged in E2 as (-> & -> & Hopt2).
    apply relocate_pass_unchanged in E3 as (-> & -> & Hopt3).
    split; [|exact Hopt3].
    intros r i k. apply Hopt2. lia.
Qed.

Lemma sorted_store_two_opt_optimal :
  two_opt_optimal (routes_of sorted_store [0]) line_dist.
Proof.
  assert (H : improve_two_opt_intra [0] line_dist 1 sorted_store
              = ([0], false, sorted_store)) by (vm_compute; reflexivity).
  apply two_opt_pass_unchanged in H as (_ & _ & Hopt).
  intros r i k. apply Hopt. lia.
Qed.

Lemma sorted_store_relocate_optimal :
  relocate_optimal (routes_of sorted_store [0]) rush_instance line_dist.
Proof.
  assert (H : relocate_best_improvement [0] rush_instance line_dist sorted_store
              = ([0], false, sorted_store)) by (vm_compute; reflexivity).
  by apply relocate_pass_unchanged in H as (_ & _ & Hopt).
Qed.

Lemma local_search_stops_at_optimum_witness :
  two_opt_optimal (routes_of sorted_store [0]) line_dist /\
  relocate_optimal (routes_of sorted_store [0]) rush_instance line_dist /\
  (forall fuel,
     local_search (S fuel) [0] rush_instance line_dist sorted_store
     = (Some [0], sorted_store)) /\
  (forall fuel rs' h',
     local_search fuel [0] rush_instance line_dist sorted_store
     = (Some rs', h') ->
     two_opt_optimal (routes_of h' rs') line_dist /\
     relocate_optimal (routes_of h' rs') rush_instance line_dist).
Proof.
  split; [exact sorted_store_two_opt_optimal|].
  split; [exact sorted_store_relocate_optimal|].
  split.
  - exact (proj1 (local_search_stops_at_optimum [0] rush_instance line_dist
                    sorted_store)
             sorted_store_two_opt_optimal sorted_store_relocate_optimal).
  - exact (proj2 (local_search_stops_at_optimum [0] rush_instance line_dist
                    sorted_store)).
Defined.

(** ** The cost evaluator *)

(** X2.  On a symmetric matrix a route costs the same in either
    direction. *)
Theorem route_distance_reverse (route : list nat) (D : distmat) :
  symmetric D ->
  (route_distance (reverse route) D == route_distance route D)%Q.
Proof.
  intros Hsym. rewrite !route_distance_path. by apply path_len_reverse.
Qed.

Lemma route_distance_reverse_witness :
  symmetric line_dist /\
  Qeq (route_distance (reverse line_route) line_dist)
      (route_distance line_route line_dist).
Proof.
  split; [exact line_dist_symmetric|].
  exact (route_distance_reverse line_route line_dist line_dist_symmetric).
Defined.

Lemma tw_step_penalty (nodes : list Node) (D : distmat) (st : Q * Q)
    (e : nat * nat) :
  (st.2 <= (tw_step nodes D st e).2)%Q /\
  (tw_open (node_at nodes e.2) = None \/ tw_close (node_at nodes e.2) = None ->
   (tw_step nodes D st e).2 = st.2).
Proof.
  unfold tw_step.
  destruct (tw_open (node_at nodes e.2)) as [o|],
           (tw_close (node_at nodes e.2)) as [c|]; simpl;
    try (split; [lra | done]).
  split; [|by intros [?|?]].
  set (t := if Qltb _ o then o else _).
  destruct (Qltb c t) eqn:E; simpl; [|lra].
  apply Qltb_lt in E. lra.
Qed.

Lemma time_window_penalty_sign (route : list nat) (nodes : list Node)
    (D : distmat) :
  Qle 0 (time_window_penalty route nodes D) /\
  (Forall (fun n => tw_open n = None \/ tw_close n = None) nodes ->
   time_window_penalty route nodes D = 0%Q).
Proof.
  unfold time_window_penalty. split.
  - apply (foldl_invariant (fun st : Q * Q => Qle 0 st.2)); [|simpl; lra].
    intros st e _ Hst. destruct (tw_step_penalty nodes D st e) as [Hle _]. lra.
  - intros Hnone.
    apply (foldl_invariant (fun st : Q * Q => st.2 = 0%Q)); [|done].
    intros st e _ Hst. destruct (tw_step_penalty nodes D st e) as [_ Heq].
    rewrite Heq; [done|]. unfold node_at.
    destruct (nodes !! e.2) as [n|] eqn:En; simpl; [|by left].
    by apply (Forall_lookup_1 _ _ _ _ Hnone En).
Qed.

(** X3.  The lateness penalty of a route is never negative, and it is
    zero when no node carries both a window opening and a window
    close. *)
Theorem time_window_penalty_nonneg (route : list nat) (nodes : list Node)
    (D : distmat) :
  Qle 0 (time_window_penalty route nodes D) /\
  (Forall (fun n => tw_open n = None \/ tw_close n = None) nodes ->
   time_window_penalty route nodes D = 0%Q).
Proof. apply time_window_penalty_sign. Qed.

Lemma Qsum_nonneg (l : list Q) : Forall (Qle 0) l -> Qle 0 (Qsum l).
Proof.
  unfold Qsum. induction 1 as [|a l Ha _ IH]; simpl; lra.
Qed.

Lemma Qmean_nonneg (l : list Q) : Forall (Qle 0) l -> Qle 0 (Qmean l).
Proof.
  intros Hl. unfold Qmean, Qdiv.
  apply Qmult_le_0_compat; [by apply Qsum_nonneg|].
  apply Qinv_le_0_compat, Qnat_nonneg.
Qed.

Lemma Qvar_nonneg (l : list Q) : Qle 0 (Qvar l).
Proof.
  unfold Qvar. apply Qmean_nonneg, Forall_fmap, Forall_forall.
  intros v _. simpl. set (d := (v - Qmean l)%Q).
  destruct (Qlt_le_dec d 0) as [Hd|Hd].
  - assert (H : (d * d == (- d) * (- d))%Q) by ring. rewrite H.
    apply Qmult_le_0_compat; lra.
  - by apply Qmult_le_0_compat.
Qed.

Lemma fairness_penalty_nonneg (routes : list (list nat)) (nodes : list Node)
    (num_zones : nat) :
  Qle 0 (fairness_penalty routes nodes num_zones).
Proof.
  unfold fairness_penalty. destruct (num_zones <=? 1); [lra|]. cbv zeta.
  destruct (decide _); [lra | apply Qvar_nonneg].
Qed.

(** X6.  The penalty terms never lower the cost: the total cost of a
    solution is at least its travel distance, and it is the travel
    distance when neither weight is positive. *)
Theorem total_cost_at_least_distance (routes : list (list nat))
    (instance : VRPInstance) (D : distmat) :
  Qle (total_distance routes D) (total_cost routes instance D) /\
  (Qle (lambda_tw instance) 0 -> Qle (mu_fair instance) 0 ->
   Qeq (total_cost routes instance D) (total_distance routes D)).
Proof.
  unfold total_cost, total_distance. cbv zeta.
  set (dist := Qsum (map (fun r => route_distance r D) routes)).
  set (tw := Qsum (map (fun r => time_window_penalty r (all_nodes instance) D)
                       routes)).
  set (fair := fairness_penalty routes (all_nodes instance) 4).
  assert (Htw : Qle 0 tw).
  { apply Qsum_nonneg, Forall_fmap, Forall_forall. intros r _.
    apply time_window_penalty_sign. }
  assert (Hfair : Qle 0 fair) by apply fairness_penalty_nonneg.
  split.
  - destruct (Qltb 0 (lambda_tw instance)) eqn:El;
      destruct (Qltb 0 (mu_fair instance)) eqn:Em;
      try apply Qltb_lt in El; try apply Qltb_lt in Em; nra.
  - intros Hl Hm.
    apply Qltb_ge in Hl, Hm. rewrite Hl, Hm. lra.
Qed.

(** ** The dictionary of zone counts *)

Lemma sum_perm (l l' : list nat) :
  l ≡ₚ l' -> foldr Nat.add 0 l = foldr Nat.add 0 l'.
Proof.
  induction 1 as [|a l l' _ IH|a b l|l l' l'' _ IH1 _ IH2]; simpl; lia.
Qed.

Lemma counts_total_insert (counts : gmap Z nat) (z : Z) (v : nat) :
  counts !! z = None ->
  counts_total (<[z := v]> counts) = v + counts_total counts.
Proof.
  intros Hz. unfold counts_total.
  rewrite (sum_perm _ (map snd ((z, v) :: map_to_list counts))); [done|].
  apply Permutation_map. by apply map_to_list_insert.
Qed.

Lemma counts_total_visit (counts : gmap Z nat) (z : Z) :
  counts_total (count_visit counts z) = S (counts_total counts).
Proof.
  unfold count_visit. destruct (counts !! z) as [v|] eqn:Ez; simpl.
  - rewrite <- (insert_delete_id counts z v Ez) at 2.
    rewrite <- insert_delete_eq.
    rewrite !counts_total_insert by apply lookup_delete_eq. lia.
  - by rewrite counts_total_insert.
Qed.

Lemma counts_total_fold (nodes : list Node) (k : nat) (l : list nat) :
  forall m0 : gmap Z nat,
    counts_total
      (foldl (fun counts i =>
                if decide (i = 0) then counts
                else count_visit counts (zone_id nodes k i)) m0 l)
    = counts_total m0 + length (custs l).
Proof.
  induction l as [|a l IH]; intros m0; simpl; [lia|].
  rewrite IH. unfold custs. rewrite filter_cons.
  destruct (decide (a = 0)) as [->|Ha].
  - destruct (decide (0 <> 0)); [done|]. done.
  - destruct (decide (a <> 0)); [|done].
    rewrite counts_total_visit. simpl. lia.
Qed.

(** X4.  The dictionary of zone counts holds exactly the visited cells
    of the grid: under the identifier of a cell it holds the number of
    customer visits that fall in it, when that number is positive, and
    nothing otherwise.  Its keys are cells of the grid, and its values
    add up to the number of customer visits of the solution. *)
Theorem zone_counts_census (routes : list (list nat)) (nodes : list Node)
    (num_zones : nat) :
  0 < num_zones ->
  (forall z n,
     zone_counts routes nodes num_zones !! z = Some n <->
     0 < n /\
     n = length (filter (fun i => i <> 0 /\ zone_id nodes num_zones i = z)
                        (concat routes))) /\
  (forall z,
     is_Some (zone_counts routes nodes num_zones !! z) ->
     (0 <= z < Z.of_nat (num_zones * num_zones))%Z) /\
  counts_total (zone_counts routes nodes num_zones)
  = length (custs (concat routes)).
Proof.
  intros Hk. split; [|split].
  - intros z n. rewrite zone_counts_lookup.
    fold (cell_visits routes nodes num_zones z).
    destruct (decide _) as [E|E]; split.
    + done.
    + intros [Hpos ->]. lia.
    + intros [= <-]. split; [lia | done].
    + intros [_ ->]. done.
  - intros z [n Hz]. rewrite zone_counts_lookup in Hz.
    destruct (decide _) as [|Hn]; [done|].
    apply elem_of_grid_cells.
    apply (cell_visits_in_grid routes nodes); lia.
  - unfold zone_counts. rewrite foldl_concat, counts_total_fold.
    unfold counts_total. by rewrite map_to_list_empty.
Qed.

Lemma zone_counts_census_witness :
  0 < 4 /\
  (forall z n,
     zone_counts corner_routes (all_nodes corner_instance) 4 !! z = Some n <->
     0 < n /\
     n = length (filter (fun i => i <> 0 /\
                           zone_id (all_nodes corner_instance) 4 i = z)
                        (concat corner_routes))) /\
  (forall z,
     is_Some (zone_counts corner_routes (all_nodes corner_instance) 4 !! z) ->
     (0 <= z < Z.of_nat (4 * 4))%Z) /\
  counts_total (zone_counts corner_routes (all_nodes corner_instance) 4)
  = length (custs (concat corner_routes)).
Proof.
  assert (H : 0 < 4) by lia.
  split; [exact H|].
  exact (zone_counts_census corner_routes (all_nodes corner_instance) 4 H).
Defined.

(** ** The fairness term under the operators *)

Lemma perm_kept (routes0 : list (list nat)) (instance : VRPInstance)
    (D : distmat) :
  kept_by_operators (fun routes => concat routes ≡ₚ concat routes0) instance D.
Proof.
  split; intros routes Hp.
  - by rewrite two_opt_routes_perm.
  - by rewrite relocate_routes_perm.
Qed.

(** X5.  The fairness term of a solution is the same after a 2-opt pass,
    after a relocate pass and after annealing: no operator can change
    it. *)
Theorem fairness_penalty_unchanged (instance : VRPInstance) (D : distmat)
    (nodes : list Node) (num_zones : nat) :
  (forall rs max_passes h rs' b h',
     allocated h rs ->
     improve_two_opt_intra rs D max_passes h = (rs', b, h') ->
     fairness_penalty (routes_of h' rs') nodes num_zones
     = fairness_penalty (routes_of h rs) nodes num_zones) /\
  (forall rs h rs' b h',
     NoDup rs -> allocated h rs ->
     relocate_best_improvement rs instance D h = (rs', b, h') ->
     fairness_penalty (routes_of h' rs') nodes num_zones
     = fairness_penalty (routes_of h rs) nodes num_zones) /\
  (forall clock accept fuel rs time_budget_s T0 alpha h best h',
     allocated h rs ->
     simulated_annealing clock accept fuel rs instance D time_budget_s T0 alpha h
     = (Some best, h') ->
     fairness_penalty (routes_of h' best) nodes num_zones
     = fairness_penalty (routes_of h rs) nodes num_zones).
Proof.
  split; [|split].
  - intros rs max_passes h rs' b h' Hall Hrun.
    apply improve_two_opt_intra_spec in Hrun as (m & ext & -> & _ & ->);
      [|done].
    apply fairness_penalty_perm, two_opt_iter_perm.
  - intros rs h rs' b h' Hnd Hall Hrun.
    apply relocate_best_improvement_spec in Hrun as (-> & _ & -> & _);
      [|done..].
    apply fairness_penalty_perm, relocate_routes_perm.
  - intros clock accept fuel rs time_budget_s T0 alpha h best h' Hall Hrun.
    eapply (simulated_annealing_inv clock accept
              (fun routes => concat routes ≡ₚ concat (routes_of h rs)))
      in Hrun as (_ & _ & _ & Hp & _); [|apply perm_kept|done|done].
    by apply fairness_penalty_perm.
Qed.

Lemma fairness_penalty_unchanged_witness :
  allocated rush_store [0] /\
  improve_two_opt_intra [0] line_dist 1 rush_store
  = ([1], true, [[0; 2; 1; 3; 0]; [0; 1; 2; 3; 0]]) /\
  fairness_penalty (routes_of [[0; 2; 1; 3; 0]; [0; 1; 2; 3; 0]] [1])
    (all_nodes rush_instance) 4
  = fairness_penalty (routes_of rush_store [0]) (all_nodes rush_instance) 4.
Proof.
  assert (H1 : allocated rush_store [0]) by (repeat constructor).
  assert (H2 : improve_two_opt_intra [0] line_dist 1 rush_store
               = ([1], true, [[0; 2; 1; 3; 0]; [0; 1; 2; 3; 0]]))
    by (vm_compute; reflexivity).
  split; [exact H1|]. split; [exact H2|].
  exact (proj1 (fairness_penalty_unchanged rush_instance line_dist
                  (all_nodes rush_instance) 4)
           [0] 1 rush_store [1] true _ H1 H2).
Defined.

(** ** The matrix of Euclidean distances *)

Lemma euclidean_matrix_rows (nodes : list Node) (M : list (list R)) :
  euclidean_matrix nodes = Some M ->
  M = map (fun a : R * R =>
             map (fun b : R * R => dist_euc a.1 a.2 b.1 b.2)
                 (map (fun n => (Q2R (x n), Q2R (y n))) nodes))
          (map (fun n => (Q2R (x n), Q2R (y n))) nodes).
Proof. destruct nodes; [done|]. by intros [= <-]. Qed.

Lemma euclidean_matrix_entry (nodes : list Node) (M : list (list R))
    (a b : nat) (na nb : Node) :
  euclidean_matrix nodes = Some M ->
  nodes !! a = Some na -> nodes !! b = Some nb ->
  matrix_entry M a b
  = Some (dist_euc (Q2R (x na)) (Q2R (y na)) (Q2R (x nb)) (Q2R (y nb))).
Proof.
  intros HM Ha Hb. apply euclidean_matrix_rows in HM. subst M.
  unfold matrix_entry.
  rewrite list_lookup_fmap, list_lookup_fmap, Ha. simpl.
  rewrite list_lookup_fmap, list_lookup_fmap, Hb. done.
Qed.

(** X1.  The matrix of Euclidean distances exists for every non-empty list
    of nodes; it is square, with one row and one column per node; its
    entry [a][b] is the Euclidean distance between the nodes [a] and [b],
    the square root of the sum of the squared coordinate differences; it
    has a zero diagonal and no negative entry, is symmetric and obeys the
    triangle inequality. *)
Theorem euclidean_matrix_metric (nodes : list Node) :
  (euclidean_matrix nodes = None <-> nodes = []) /\
  forall M, euclidean_matrix nodes = Some M ->
    length M = length nodes /\
    Forall (fun row => length row = length nodes) M /\
    (forall a b na nb, nodes !! a = Some na -> nodes !! b = Some nb ->
       matrix_entry M a b
       = Some (sqrt (Rsqr (Q2R (x na) - Q2R (x nb))
                     + Rsqr (Q2R (y na) - Q2R (y nb))))) /\
    forall a b c, a < length nodes -> b < length nodes -> c < length nodes ->
      exists dab dba dac dbc,
        matrix_entry M a b = Some dab /\ matrix_entry M b a = Some dba /\
        matrix_entry M a c = Some dac /\ matrix_entry M b c = Some dbc /\
        matrix_entry M a a = Some 0%R /\
        dab = dba /\ (0 <= dab)%R /\ (dac <= dab + dbc)%R.
Proof.
  split.
  - destruct nodes; simpl; split; done.
  - intros M HM. split; [|split; [|split]].
    + apply euclidean_matrix_rows in HM. subst M. by rewrite !length_map.
    + apply euclidean_matrix_rows in HM. subst M.
      apply Forall_fmap, Forall_forall. intros p _. simpl.
      by rewrite !length_map.
    + intros a b na nb Hna Hnb.
      by rewrite (euclidean_matrix_entry nodes M a b na nb).
    + intros a b c Ha Hb Hc.
      destruct (lookup_lt_is_Some_2 nodes a Ha) as [na Hna].
      destruct (lookup_lt_is_Some_2 nodes b Hb) as [nb Hnb].
      destruct (lookup_lt_is_Some_2 nodes c Hc) as [nc Hnc].
      eexists _, _, _, _.
      rewrite (euclidean_matrix_entry nodes M a b na nb) by done.
      rewrite (euclidean_matrix_entry nodes M b a nb na) by done.
      rewrite (euclidean_matrix_entry nodes M a c na nc) by done.
      rewrite (euclidean_matrix_entry nodes M b c nb nc) by done.
      rewrite (euclidean_matrix_entry nodes M a a na na) by done.
      repeat split; try reflexivity.
      * by rewrite distance_refl.
      * apply distance_symm.
      * apply sqrt_pos.
      * apply triangle.
Qed.

(** ** The instance generator *)

Section SyntheticProofs.

Variable rng_uniform : Z -> nat -> Q -> Q -> Q.
Variable rng_integers : Z -> nat -> Z -> Z -> Z.

Lemma synthetic_customers_forall (P : Node -> Prop) (seed capacity : Z)
    (with_time_windows : bool) (l : list nat) :
  (forall st i,
     P (default blank_node
          (last (synthetic_customer rng_uniform rng_integers seed capacity
                   with_time_windows st i).2))) ->
  forall st, Forall P st.2 ->
    Forall P (foldl (synthetic_customer rng_uniform rng_integers seed capacity
                       with_time_windows) st l).2.
Proof.
  intros Hstep. induction l as [|i l IH]; intros st Hst; [done|].
  simpl. apply IH. specialize (Hstep st i).
  unfold synthetic_customer in *. cbv zeta in *.
  destruct with_time_windows; simpl in *; rewrite last_snoc in Hstep;
    apply Forall_app; split; try done; by apply Forall_singleton.
Qed.

Lemma synthetic_customers_idx (seed capacity : Z) (with_time_windows : bool)
    (n : nat) :
  let customers :=
    (foldl (synthetic_customer rng_uniform rng_integers seed capacity
              with_time_windows) (0, []) (seq 1 n)).2 in
  length customers = n /\
  forall j nd, customers !! j = Some nd -> idx nd = Z.of_nat (S j).
Proof.
  induction n as [|n [IHlen IHidx]]; cbv zeta.
  - simpl. split; [done|]. intros j nd Hj. by destruct j.
  - rewrite seq_S, foldl_app. simpl foldl.
    set (st := foldl _ (0, []) (seq 1 n)) in *.
    assert (Hlast : exists nd,
              (synthetic_customer rng_uniform rng_integers seed capacity
                 with_time_windows st (S n)).2 = st.2 ++ [nd]
              /\ idx nd = Z.of_nat (S n)).
    { unfold synthetic_customer. cbv zeta.
      destruct with_time_windows; simpl; by eexists. }
    destruct Hlast as (nd0 & -> & Hidx0). split.
    + rewrite length_app. simpl. lia.
    + intros j nd Hj.
      destruct (decide (j < n)) as [Hlt|Hge].
      * rewrite lookup_app_l in Hj by lia. by apply IHidx.
      * rewrite lookup_app_r in Hj by lia.
        rewrite IHlen in Hj.
        destruct (j - n) as [|m] eqn:Ejn; simpl in Hj; [|done].
        injection Hj as <-. rewrite Hidx0. f_equal. lia.
Qed.

End SyntheticProofs.

Lemma generate_synthetic_instance (rng_uniform : Z -> nat -> Q -> Q -> Q)
    (rng_integers : Z -> nat -> Z -> Z -> Z)
    (n_customers seed capacity vehicles : Z) (with_time_windows : bool) :
  exists D,
    generate_synthetic rng_uniform rng_integers n_customers seed capacity
      vehicles with_time_windows
    = Some (mkInstance (mkNode 0 50 50 0 None None 0)
              (foldl (synthetic_customer rng_uniform rng_integers seed capacity
                        with_time_windows) (0, [])
                     (seq 1 (Z.to_nat n_customers))).2
              capacity vehicles 0 0, D).
Proof. unfold generate_synthetic. simpl. by eexists. Qed.

(** X7.  A generated instance has the depot at (50, 50), the capacity and
    fleet asked for, both penalty weights zero and the customers
    numbered 1 to [n_customers]; every demand is at least 1 and below
    [max(2, capacity // 5)], so no demand is negative and, with a
    capacity of at least 1, every demand fits in a vehicle. *)
Theorem generate_synthetic_demands (rng_uniform : Z -> nat -> Q -> Q -> Q)
    (rng_integers : Z -> nat -> Z -> Z -> Z)
    (n_customers seed capacity vehicles : Z) (with_time_windows : bool) :
  integers_in_range rng_integers ->
  exists inst D,
    generate_synthetic rng_uniform rng_integers n_customers seed capacity
      vehicles with_time_windows = Some (inst, D) /\
    depot inst = mkNode 0 50 50 0 None None 0 /\
    vehicle_capacity inst = capacity /\ num_vehicles inst = vehicles /\
    lambda_tw inst = 0%Q /\ mu_fair inst = 0%Q /\
    length (customers inst) = Z.to_nat n_customers /\
    (forall j nd, customers inst !! j = Some nd -> idx nd = Z.of_nat (S j)) /\
    Forall (fun nd => (1 <= demand nd < Z.max 2 (capacity / 5))%Z)
           (customers inst) /\
    demands_nonneg inst /\
    ((1 <= capacity)%Z -> demands_fit inst).
Proof.
  intros Hint.
  destruct (generate_synthetic_instance rng_uniform rng_integers n_customers
              seed capacity vehicles with_time_windows) as [D HD].
  eexists _, D. split; [exact HD|]. simpl.
  destruct (synthetic_customers_idx rng_uniform rng_integers seed capacity
              with_time_windows (Z.to_nat n_customers)) as [Hlen Hidx].
  assert (Hdem : Forall (fun nd => (1 <= demand nd < Z.max 2 (capacity / 5))%Z)
                   (foldl (synthetic_customer rng_uniform rng_integers seed
                             capacity with_time_windows) (0, [])
                          (seq 1 (Z.to_nat n_customers))).2).
  { apply synthetic_customers_forall; [|done].
    intros st i. unfold synthetic_customer. cbv zeta.
    destruct with_time_windows; simpl; rewrite last_snoc; simpl;
      apply Hint; lia. }
  repeat split; try done.
  - unfold demands_nonneg. simpl. eapply Forall_impl; [exact Hdem|].
    intros nd. simpl. lia.
  - intros Hcap. unfold demands_fit. simpl.
    eapply Forall_impl; [exact Hdem|]. intros nd [_ Hlt]. simpl in Hlt.
    assert (capacity / 5 <= capacity)%Z.
    { apply Z.div_le_upper_bound; lia. }
    lia.
Qed.

Lemma generate_synthetic_demands_witness :
  integers_in_range low_integers /\
  exists inst D,
    generate_synthetic low_uniform low_integers 3 42 100 10 true
    = Some (inst, D) /\
    depot inst = mkNode 0 50 50 0 None None 0 /\
    vehicle_capacity inst = 100%Z /\ num_vehicles inst = 10%Z /\
    lambda_tw inst = 0%Q /\ mu_fair inst = 0%Q /\
    length (customers inst) = Z.to_nat 3 /\
    (forall j nd, customers inst !! j = Some nd -> idx nd = Z.of_nat (S j)) /\
    Forall (fun nd => (1 <= demand nd < Z.max 2 (100 / 5))%Z)
           (customers inst) /\
    demands_nonneg inst /\
    ((1 <= 100)%Z -> demands_fit inst).
Proof.
  split; [exact low_integers_in_range|].
  exact (generate_synthetic_demands low_uniform low_integers 3 42 100 10 true
           low_integers_in_range).
Defined.

(** X8.  In a generated instance every coordinate lies in [0, 100).
    Without time windows no node has one and every service time is
    zero; with time windows every customer has a window that opens in
    [0, 200) and closes at least 20 and less than 60 later, and a
    service time in [0.5, 2).  Either way every node has no window or a
    complete one that opens no later than it closes. *)
Theorem generate_synthetic_windows (rng_uniform : Z -> nat -> Q -> Q -> Q)
    (rng_integers : Z -> nat -> Z -> Z -> Z)
    (n_customers seed capacity vehicles : Z) (with_time_windows : bool) :
  uniform_in_range rng_uniform ->
  exists inst D,
    generate_synthetic rng_uniform rng_integers n_customers seed capacity
      vehicles with_time_windows = Some (inst, D) /\
    Forall (fun nd => Qle 0 (x nd) /\ Qlt (x nd) 100 /\
                      Qle 0 (y nd) /\ Qlt (y nd) 100) (all_nodes inst) /\
    Forall window_ok (all_nodes inst) /\
    (with_time_windows = false ->
     Forall (fun nd => tw_open nd = None /\ tw_close nd = None /\
                       service nd = 0%Q) (all_nodes inst)) /\
    (with_time_windows = true ->
     Forall (fun nd => exists o c,
                 tw_open nd = Some o /\ tw_close nd = Some c /\
                 Qle 0 o /\ Qlt o 200 /\
                 Qle 20 (Qminus c o) /\ Qlt (Qminus c o) 60 /\
                 Qle (1 # 2) (service nd) /\ Qlt (service nd) 2)
            (customers inst)).
Proof.
  intros Huni.
  destruct (generate_synthetic_instance rng_uniform rng_integers n_customers
              seed capacity vehicles with_time_windows) as [D HD].
  eexists _, D. split; [exact HD|]. unfold all_nodes. simpl.
  assert (H100 : Qlt 0 100) by reflexivity.
  assert (H200 : Qlt 0 200) by reflexivity.
  assert (H60 : Qlt 20 60) by reflexivity.
  assert (H2 : Qlt (1 # 2) 2) by reflexivity.
  split; [|split; [|split]].
  - apply Forall_cons. split; [repeat split; reflexivity || discriminate|].
    apply synthetic_customers_forall; [|done].
    intros st i. unfold synthetic_customer. cbv zeta.
    destruct with_time_windows; simpl; rewrite last_snoc; simpl;
      destruct (Huni seed st.1 0%Q 100%Q H100);
      destruct (Huni seed (st.1 + 1) 0%Q 100%Q H100); done.
  - apply Forall_cons. split; [done|].
    apply synthetic_customers_forall; [|done].
    intros st i. unfold synthetic_customer, window_ok. cbv zeta.
    destruct with_time_windows; simpl; rewrite last_snoc; simpl; [|done].
    destruct (Huni seed (st.1 + 4) 20%Q 60%Q H60). lra.
  - intros ->. apply Forall_cons. split; [done|].
    apply synthetic_customers_forall; [|done].
    intros st i. unfold synthetic_customer. cbv zeta. simpl.
    by rewrite last_snoc.
  - intros ->.
    apply synthetic_customers_forall; [|done].
    intros st i. unfold synthetic_customer. cbv zeta. simpl.
    rewrite last_snoc. simpl. eexists _, _.
    split; [done|]. split; [done|].
    destruct (Huni seed (st.1 + 3) 0%Q 200%Q H200).
    destruct (Huni seed (st.1 + 4) 20%Q 60%Q H60).
    destruct (Huni seed (st.1 + 5) (1 # 2) 2%Q H2).
    repeat split; try done; lra.
Qed.

Lemma generate_synthetic_windows_witness :
  uniform_in_range low_uniform /\
  exists inst D,
    generate_synthetic low_uniform low_integers 3 42 100 10 true
    = Some (inst, D) /\
    Forall (fun nd => Qle 0 (x nd) /\ Qlt (x nd) 100 /\
                      Qle 0 (y nd) /\ Qlt (y nd) 100) (all_nodes inst) /\
    Forall window_ok (all_nodes inst) /\
    (true = false ->
     Forall (fun nd => tw_open nd = None /\ tw_close nd = None /\
                       service nd = 0%Q) (all_nodes inst)) /\
    (true = true ->
     Forall (fun nd => exists o c,
                 tw_open nd = Some o /\ tw_close nd = Some c /\
                 Qle 0 o /\ Qlt o 200 /\
                 Qle 20 (Qminus c o) /\ Qlt (Qminus c o) 60 /\
                 Qle (1 # 2) (service nd) /\ Qlt (service nd) 2)
            (customers inst)).
Proof.
  split; [exact low_uniform_in_range|].
  exact (generate_synthetic_windows low_uniform low_integers 3 42 100 10 true
           low_uniform_in_range).
Defined.

(** ** What the local-search loop keeps *)

Section LocalSearch.

Variable P : list (list nat) -> Prop.
Variable instance : VRPInstance.
Variable D : distmat.
Hypothesis P_kept : kept_by_operators P instance D.

Lemma local_search_step_kept (rs : list loc) (h : store) (rs' : list loc)
    (b : bool) (h' : store) :
  NoDup rs -> allocated h rs -> P (routes_of h rs) ->
  local_search_step rs instance D h = (rs', b, h') ->
  NoDup rs' /\ allocated h' rs' /\ P (routes_of h' rs').
Proof.
  intros Hnd Hall HP Hrun. destruct P_kept as [HP2 HPr].
  unfold local_search_step, bind in Hrun.
  destruct (improve_two_opt_intra rs D 1 h) as [[rs1 c1] h1] eqn:E1.
  simpl in Hrun.
  destruct (relocate_best_improvement rs1 instance D h1)
    as [[rs2 c2] h2] eqn:E2.
  unfold ret in Hrun. simpl in Hrun. injection Hrun as <- <- <-.
  pose proof (two_opt_passes_NoDup 1 D rs false h rs1 c1 h1 Hall Hnd E1)
    as Hnd1.
  apply improve_two_opt_intra_spec in E1 as (m & ext & -> & Hall1 & Hval1);
    [|done].
  apply relocate_best_improvement_spec in E2 as (-> & Hlen & Hval2 & _);
    [|done..].
  split; [done|]. split.
  - unfold allocated in *. by rewrite Hlen.
  - rewrite Hval2, Hval1. apply HPr. by apply iter_kept.
Qed.

Lemma local_search_kept (fuel : nat) :
  forall (rs : list loc) (h : store) (rs' : list loc) (h' : store),
    NoDup rs -> allocated h rs -> P (routes_of h rs) ->
    local_search fuel rs instance D h = (Some rs', h') ->
    NoDup rs' /\ allocated h' rs' /\ P (routes_of h' rs').
Proof.
  induction fuel as [|fuel IH]; intros rs h rs' h' Hnd Hall HP Hrun; [done|].
  simpl in Hrun. unfold bind at 1 in Hrun.
  destruct (local_search_step rs instance D h) as [[rs1 b] h1] eqn:Es.
  apply local_search_step_kept in Es as (Hnd1 & Hall1 & HP1); [|done..].
  simpl in Hrun. destruct b; [by eapply IH|].
  by injection Hrun as <- <-.
Qed.

End LocalSearch.

Lemma relocate_routes_length (routes : list (list nat))
    (instance : VRPInstance) (D : distmat) :
  length (relocate_routes routes instance D) = length routes.
Proof.
  unfold relocate_routes.
  destruct (relocate_search routes instance D) as [g [mv|]]; [|done].
  destruct (Qltb relocate_eps g); [|done].
  destruct mv as [[[ra ia] rb] jb]. unfold relocate_apply.
  by rewrite !length_insert.
Qed.

Lemma length_kept (n : nat) (instance : VRPInstance) (D : distmat) :
  kept_by_operators (fun routes => length routes = n) instance D.
Proof.
  split; intros routes Hn.
  - by rewrite length_map.
  - by rewrite relocate_routes_length.
Qed.

(** X28.  Whenever the local-search loop stops, the solution it returns
    has the routes of the solution it was given with their entries
    rearranged: as many routes, every node index as often as before;
    and, when no demand is negative, no route over capacity if none was
    before. *)
Theorem local_search_feasible (fuel : nat) (rs : list loc)
    (instance : VRPInstance) (D : distmat) (h : store) (rs' : list loc)
    (h' : store) :
  NoDup rs -> allocated h rs ->
  local_search fuel rs instance D h = (Some rs', h') ->
  length rs' = length rs /\
  concat (routes_of h' rs') ≡ₚ concat (routes_of h rs) /\
  (forall N, partition_ok N (routes_of h rs) ->
             partition_ok N (routes_of h' rs')) /\
  (demands_nonneg instance -> capacity_ok instance (routes_of h rs) ->
   capacity_ok instance (routes_of h' rs')).
Proof.
  intros Hnd Hall Hrun.
  assert (Hperm : concat (routes_of h' rs') ≡ₚ concat (routes_of h rs)).
  { eapply (local_search_kept
              (fun routes => concat routes ≡ₚ concat (routes_of h rs)));
      [apply perm_kept|exact Hnd|exact Hall|done|exact Hrun]. }
  split; [|split; [exact Hperm|split]].
  - pose proof (local_search_kept (fun routes => length routes = length rs)
                  instance D (length_kept _ _ _) fuel rs h rs' h' Hnd Hall)
      as Hlen.
    simpl in Hlen. specialize (Hlen (routes_of_length h rs) Hrun)
      as (_ & _ & Hlen).
    by rewrite routes_of_length in Hlen.
  - intros N. by apply partition_ok_perm.
  - intros Hnn Hcap.
    eapply (local_search_kept (capacity_ok instance));
      [by apply capacity_kept|exact Hnd|exact Hall|done|exact Hrun].
Qed.

Lemma local_search_feasible_witness :
  NoDup [0; 1] /\ allocated line_store [0; 1] /\
  local_search 2 [0; 1] line_instance line_dist line_store
  = (Some [0; 1], [[0; 0]; [0; 1; 2; 0]]) /\
  length [0; 1] = length [0; 1] /\
  concat (routes_of [[0; 0]; [0; 1; 2; 0]] [0; 1])
  ≡ₚ concat (routes_of line_store [0; 1]) /\
  (forall N, partition_ok N (routes_of line_store [0; 1]) ->
             partition_ok N (routes_of [[0; 0]; [0; 1; 2; 0]] [0; 1])) /\
  (demands_nonneg line_instance ->
   capacity_ok line_instance (routes_of line_store [0; 1]) ->
   capacity_ok line_instance (routes_of [[0; 0]; [0; 1; 2; 0]] [0; 1])).
Proof.
  assert (H2 : allocated line_store [0; 1]) by (repeat constructor).
  assert (H3 : local_search 2 [0; 1] line_instance line_dist line_store
               = (Some [0; 1], [[0; 0]; [0; 1; 2; 0]]))
    by (vm_compute; reflexivity).
  split; [exact NoDup_two|]. split; [exact H2|]. split; [exact H3|].
  exact (local_search_feasible 2 [0; 1] line_instance line_dist line_store
           [0; 1] _ NoDup_two H2 H3).
Defined.

